(** * Music-Player: the playback engine of [main.py], embedded and verified

    The development follows the source top-down: the sound file reader
    ([soundfile.SoundFile] as [TrackPlayer] uses it), [TrackPlayer] with its
    real-time [callback], [Track], and the part of [MusicPlayer] that
    sequences tracks ([play_track], [on_track_finished]).

    Conventions of the embedding.
    - Python integers that can be negative are [Z]; frame counts, positions
      and list indices are [nat].
    - Samples and the volume are exact rationals [Q]: the rounding of the
      arithmetic on samples is outside the model.  The quotients
      [frames / samplerate] of [duration_seconds] and [get_position] are
      kept exact as well.
    - The float arithmetic that turns seconds into frames and frames into
      slider positions ([seek], [seek_track], [update_progress]) is binary64
      arithmetic: every operation rounds its exact result to nearest, ties
      to even ([round64]), and gives an infinity, or raises, out of range.
    - A Python exception is a value of [exn]; a call that can raise returns
      a [result].  Where the state reached before an exception matters (the
      callback leaves with [CallbackStop] after it has written the block)
      the state is returned in full next to the exception.
    - [threading.Thread(target=f).start()] does not run [f]: it records [f]
      as a started thread, which a later scheduling step runs.
    - The mutex [TrackPlayer.lock] serialises the bodies modelled here, each
      of which is one atomic function of the embedding.
    - Qt widgets (slider, labels, buttons) are not modelled; of the code
      that feeds them, the numbers it computes are. *)

From Stdlib Require Import ZArith QArith Qminmax Qround Qabs Qpower Lia Lqa.
From stdpp Require Import base option list strings gmap.

Local Open Scope nat_scope.

(** ** Exceptions and fallible calls *)

Inductive exn : Type :=
| ValueError
| IndexError
| ZeroDivisionError
| OverflowError
| SoundFileError
| CallbackStop.

Inductive result (A : Type) : Type :=
| Ok (a : A)
| Raise (e : exn).

Arguments Ok {A} a.
Arguments Raise {A} e.

Definition rbind {A B : Type} (r : result A) (k : A -> result B) : result B :=
  match r with
  | Ok a => k a
  | Raise e => Raise e
  end.

Notation "'let!' x ':=' r 'in' k" := (rbind r (fun x => k))
  (at level 10, x name, r at level 100, k at level 200).

(** [try: body except E: handler] for one exception class. *)
Definition try_except {A : Type} (body : result A) (E : exn) (handler : result A)
  : result A :=
  match body with
  | Ok a => Ok a
  | Raise e => match e, E with
               | ValueError, ValueError
               | IndexError, IndexError
               | ZeroDivisionError, ZeroDivisionError
               | OverflowError, OverflowError
               | SoundFileError, SoundFileError
               | CallbackStop, CallbackStop => handler
               | _, _ => Raise e
               end
  end.

(** ** Python and NumPy primitives used by the source *)

(** [list.index(x)]: position of the first occurrence, [ValueError] if absent. *)
Fixpoint py_index (l : list string) (x : string) : result nat :=
  match l with
  | [] => Raise ValueError
  | y :: l' => if String.eqb y x then Ok 0
               else let! i := py_index l' x in Ok (S i)
  end.

(** [a % b] on non-negative integers. *)
Definition py_mod (a b : nat) : result nat :=
  match b with
  | 0 => Raise ZeroDivisionError
  | S _ => Ok (a mod b)
  end.

(** [l[i]] for a non-negative index. *)
Definition py_getitem {A : Type} (l : list A) (i : nat) : result A :=
  match l !! i with
  | Some x => Ok x
  | None => Raise IndexError
  end.

(** [a / b] on integers (true division). *)
Definition py_truediv (a b : Z) : result Q :=
  if Z.eqb b 0 then Raise ZeroDivisionError
  else Ok (inject_Z a / inject_Z b)%Q.

(** [int(x)]: truncation toward zero. *)
Definition py_int (x : Q) : Z := Z.quot (Qnum x) (Z.pos (Qden x)).

(** [np.clip(x, lo, hi)] is [minimum(maximum(x, lo), hi)]. *)
Definition np_clip_int (x lo hi : Z) : Z := Z.min (Z.max x lo) hi.
Definition np_clip (x lo hi : Q) : Q := Qmin (Qmax x lo) hi.

(** ** Python floats

    A Python float is an IEEE 754 binary64 value.  A finite one is
    represented by the rational it denotes (the sign of zero is not kept),
    next to the two infinities and NaN. *)
Inductive float64 : Type :=
| Finite (q : Q)
| Infinite (negative : bool)
| NaN.

(** The integer part of the binary logarithm of [x > 0]. *)
Definition ilog2 (x : Q) : Z :=
  let k := (Z.log2 (Qnum x) - Z.log2 (Z.pos (Qden x)))%Z in
  if Qle_bool (2 ^ k) x then k else (k - 1)%Z.

(** The integer nearest to [y], the even one of two that are as near. *)
Definition round_half_even (y : Q) : Z :=
  let f := Qfloor y in
  match (y - inject_Z f ?= 1 # 2)%Q with
  | Lt => f
  | Gt => (f + 1)%Z
  | Eq => if Z.even f then f else (f + 1)%Z
  end.

(** From this magnitude on a real number rounds to an infinity: the middle
    between the largest finite binary64 value and [2 ^ 1024]. *)
Definition float_overflow : Q := (2 ^ 1024 - 2 ^ 970)%Q.

(** Rounding of a real number to binary64, to nearest, ties to even: 53
    significant bits, the least exponent that of the subnormal numbers. *)
Definition round64 (x : Q) : float64 :=
  if Qle_bool float_overflow (Qabs x) then Infinite (negb (Qle_bool 0 x))
  else if Qeq_bool x 0 then Finite 0
  else
    let e := Z.max (ilog2 (Qabs x) - 52) (-1074) in
    let m := round_half_even (Qabs x / 2 ^ e) in
    let r := Qred (inject_Z m * 2 ^ e) in
    Finite (if Qle_bool 0 x then r else - r)%Q.

(** The float of an exact integer or quotient of integers: [float(n)], the
    conversion of an integer operand of a float operation, and [a / b] on
    integers all raise [OverflowError] when the result is out of range. *)
Definition py_float (x : Q) : result Q :=
  match round64 x with
  | Finite q => Ok q
  | _ => Raise OverflowError
  end.

(** [x * y] on floats: the exact product, rounded; never raises. *)
Definition py_fmul (x y : float64) : float64 :=
  match x, y with
  | NaN, _ | _, NaN => NaN
  | Finite a, Finite b => round64 (a * b)
  | Infinite s, Finite b | Finite b, Infinite s =>
      if Qeq_bool b 0 then NaN else Infinite (xorb s (negb (Qle_bool 0 b)))
  | Infinite s, Infinite s' => Infinite (xorb s s')
  end.

(** [x / y] on finite floats. *)
Definition py_fdiv (x y : Q) : result float64 :=
  if Qeq_bool y 0 then Raise ZeroDivisionError else Ok (round64 (x / y)).

(** [int(x)] on a float. *)
Definition py_int_float (x : float64) : result Z :=
  match x with
  | Finite q => Ok (py_int q)
  | Infinite _ => Raise OverflowError
  | NaN => Raise ValueError
  end.

(** An output block: one row per frame, one column per channel. *)
Abbreviation block := (list (list Q)).

(** [a.fill(0)]: every sample becomes 0, the shape is kept. *)
Definition np_fill0 (a : block) : block := map (map (fun _ => 0%Q)) a.

(** [a * v] for an array and a scalar. *)
Definition np_scale (a : block) (v : Q) : block := map (map (fun x => (x * v)%Q)) a.

(** [out[start:stop] = rows], for [rows] of the shape of the slice. *)
Definition slice_assign (start stop : nat) (rows out : block) : block :=
  take start out ++ rows ++ drop stop out.

(** [out[start:].fill(0)]. *)
Definition slice_fill0_from (start : nat) (out : block) : block :=
  take start out ++ np_fill0 (drop start out).

(** ** The sound file reader *)

(** What is on disk under one path, once decoded. *)
Record AudioFile : Type := {
  af_samplerate : Z;
  af_channels : nat;
  af_frames : block
}.

Record SoundFile : Type := {
  sf_samplerate : Z;
  sf_channels : nat;
  sf_frames : block;
  sf_pos : nat;
  sf_closed : bool
}.

(** [sf.SoundFile(str(path))]: a missing or undecodable file raises. *)
Definition SoundFile_open (fs : gmap string AudioFile) (path : string)
  : result SoundFile :=
  match fs !! path with
  | Some af => Ok {| sf_samplerate := af_samplerate af;
                     sf_channels := af_channels af;
                     sf_frames := af_frames af;
                     sf_pos := 0;
                     sf_closed := false |}
  | None => Raise SoundFileError
  end.

(** [len(f)]. *)
Definition sf_len (f : SoundFile) : nat := length (sf_frames f).

Definition sf_set_pos (f : SoundFile) (p : nat) : SoundFile :=
  {| sf_samplerate := sf_samplerate f;
     sf_channels := sf_channels f;
     sf_frames := sf_frames f;
     sf_pos := p;
     sf_closed := sf_closed f |}.

(** [f.close()], also the exit of [with sf.SoundFile(...) as f]. *)
Definition sf_close (f : SoundFile) : SoundFile :=
  {| sf_samplerate := sf_samplerate f;
     sf_channels := sf_channels f;
     sf_frames := sf_frames f;
     sf_pos := sf_pos f;
     sf_closed := true |}.

(** [f.read(frames, always_2d=True)]: up to [frames] rows from the read
    pointer, which moves past them; fewer rows only at the end of the file. *)
Definition sf_read (frames : nat) (f : SoundFile) : result (block * SoundFile) :=
  if sf_closed f then Raise SoundFileError
  else
    let data := take frames (drop (sf_pos f) (sf_frames f)) in
    Ok (data, sf_set_pos f (sf_pos f + length data)).

(** [f.seek(frame)]: an offset outside [0, len(f)] is an error of the library. *)
Definition sf_seek (frame : Z) (f : SoundFile) : result SoundFile :=
  if sf_closed f then Raise SoundFileError
  else if (frame <? 0)%Z || (Z.of_nat (sf_len f) <? frame)%Z then Raise SoundFileError
  else Ok (sf_set_pos f (Z.to_nat frame)).

(** [f.tell()]. *)
Definition sf_tell (f : SoundFile) : result nat :=
  if sf_closed f then Raise SoundFileError else Ok (sf_pos f).

(** ** TrackPlayer *)

(** The closures the program hands to threads and to the player:
    [on_finished] of [play_track] captures the path of its track. *)
Inductive Callable : Type :=
| on_finished (path : string).

(** [sd.OutputStream]: started and calling back, or stopped by the callback. *)
Inductive OutputStream : Type :=
| Active
| Finished.

Record TrackPlayer : Type := {
  sf : SoundFile;
  samplerate : Z;
  channels : nat;
  stream : option OutputStream;
  volume : Q;
  paused : bool;
  current_frame : nat;
  finished_callback : option Callable
}.

Definition blocksize : nat := 2048.

(** [TrackPlayer.__init__]. *)
Definition TrackPlayer_init (fs : gmap string AudioFile) (path : string)
  : result TrackPlayer :=
  let! f := SoundFile_open fs path in
  Ok {| sf := f;
        samplerate := sf_samplerate f;
        channels := sf_channels f;
        stream := None;
        volume := 1%Q;
        paused := false;
        current_frame := 0;
        finished_callback := None |}.

Definition set_sf (self : TrackPlayer) (f : SoundFile) : TrackPlayer :=
  {| sf := f; samplerate := samplerate self; channels := channels self;
     stream := stream self; volume := volume self; paused := paused self;
     current_frame := current_frame self;
     finished_callback := finished_callback self |}.

Definition set_stream (self : TrackPlayer) (s : option OutputStream) : TrackPlayer :=
  {| sf := sf self; samplerate := samplerate self; channels := channels self;
     stream := s; volume := volume self; paused := paused self;
     current_frame := current_frame self;
     finished_callback := finished_callback self |}.

Definition set_volume_field (self : TrackPlayer) (v : Q) : TrackPlayer :=
  {| sf := sf self; samplerate := samplerate self; channels := channels self;
     stream := stream self; volume := v; paused := paused self;
     current_frame := current_frame self;
     finished_callback := finished_callback self |}.

Definition set_paused (self : TrackPlayer) (b : bool) : TrackPlayer :=
  {| sf := sf self; samplerate := samplerate self; channels := channels self;
     stream := stream self; volume := volume self; paused := b;
     current_frame := current_frame self;
     finished_callback := finished_callback self |}.

Definition set_current_frame (self : TrackPlayer) (n : nat) : TrackPlayer :=
  {| sf := sf self; samplerate := samplerate self; channels := channels self;
     stream := stream self; volume := volume self; paused := paused self;
     current_frame := n;
     finished_callback := finished_callback self |}.

Definition set_finished_callback (self : TrackPlayer) (c : option Callable)
  : TrackPlayer :=
  {| sf := sf self; samplerate := samplerate self; channels := channels self;
     stream := stream self; volume := volume self; paused := paused self;
     current_frame := current_frame self;
     finished_callback := c |}.

(** What one invocation of [callback] leaves behind: the player, the output
    block, the threads it started, and the exception it left with, if any. *)
Record CallbackResult : Type := {
  cb_player : TrackPlayer;
  cb_outdata : block;
  cb_started : list Callable;
  cb_raised : option exn
}.

(** [TrackPlayer.callback(outdata, frames, time, status)].  [time] is unused
    and [status] is only printed. *)
Definition callback (self : TrackPlayer) (outdata : block) (frames : nat)
  : CallbackResult :=
  if paused self then
    {| cb_player := self; cb_outdata := np_fill0 outdata;
       cb_started := []; cb_raised := None |}
  else
    match sf_read frames (sf self) with
    | Raise e =>
        {| cb_player := self; cb_outdata := outdata;
           cb_started := []; cb_raised := Some e |}
    | Ok (data, f) =>
        let self1 := set_sf self f in
        if length data <? frames then
          let out1 := slice_assign 0 (length data) (np_scale data (volume self1)) outdata in
          let out2 := slice_fill0_from (length data) out1 in
          let started := match finished_callback self1 with
                         | Some c => [c]
                         | None => []
                         end in
          {| cb_player := self1; cb_outdata := out2;
             cb_started := started; cb_raised := Some CallbackStop |}
        else
          let out1 := slice_assign 0 (length outdata) (np_scale data (volume self1)) outdata in
          match sf_tell (sf self1) with
          | Raise e =>
              {| cb_player := self1; cb_outdata := out1;
                 cb_started := []; cb_raised := Some e |}
          | Ok p =>
              {| cb_player := set_current_frame self1 p; cb_outdata := out1;
                 cb_started := []; cb_raised := None |}
          end
    end.

(** [TrackPlayer.play]: a stream is opened on [callback] and started. *)
Definition play (self : TrackPlayer) : TrackPlayer := set_stream self (Some Active).

(** [TrackPlayer.stop]. *)
Definition stop (self : TrackPlayer) : result TrackPlayer :=
  let self1 := match stream self with
               | Some _ => set_stream self None
               | None => self
               end in
  let! f := sf_seek 0 (sf self1) in
  Ok (set_current_frame (set_sf self1 f) 0).

Definition pause (self : TrackPlayer) : TrackPlayer := set_paused self true.

Definition resume (self : TrackPlayer) : TrackPlayer := set_paused self false.

(** [TrackPlayer.set_volume(value)].  The division [value / 100] raises
    when its result is out of the range of a float; the quotient it yields
    is kept exact, like the samples it scales. *)
Definition set_volume (self : TrackPlayer) (value : Z) : result TrackPlayer :=
  let! _ := py_float (inject_Z value / 100) in
  Ok (set_volume_field self (np_clip (inject_Z value / 100) 0 1)%Q).

(** [int(seconds * self.samplerate)], the first statement of [seek]: the
    sample rate becomes a float, the product is a float product. *)
Definition seek_frame (self : TrackPlayer) (seconds : float64) : result Z :=
  let! rate := py_float (inject_Z (samplerate self)) in
  py_int_float (py_fmul seconds (Finite rate)).

(** [TrackPlayer.seek(seconds)]. *)
Definition seek (self : TrackPlayer) (seconds : float64) : result TrackPlayer :=
  let! frame := seek_frame self seconds in
  let frame := np_clip_int frame 0 (Z.of_nat (sf_len (sf self))) in
  let! f := sf_seek frame (sf self) in
  let! p := sf_tell f in
  Ok (set_current_frame (set_sf self f) p).

(** ** Track *)

Record Track : Type := {
  path : string;
  player : TrackPlayer;
  duration_seconds : Q
}.

(** [Track.__init__]: the player opens the file, a second reader measures
    the duration and is closed when its [with] block is left. *)
Definition Track_init (fs : gmap string AudioFile) (p : string) : result Track :=
  let! pl := TrackPlayer_init fs p in
  let! f := SoundFile_open fs p in
  let! d := py_truediv (Z.of_nat (sf_len f)) (sf_samplerate f) in
  Ok {| path := p; player := pl; duration_seconds := d |}.

Definition set_player (t : Track) (pl : TrackPlayer) : Track :=
  {| path := path t; player := pl; duration_seconds := duration_seconds t |}.

Definition Track_play (t : Track) : Track := set_player t (play (player t)).

Definition Track_stop (t : Track) : result Track :=
  let! pl := stop (player t) in Ok (set_player t pl).

Definition Track_pause (t : Track) : Track := set_player t (pause (player t)).

Definition Track_resume (t : Track) : Track := set_player t (resume (player t)).

Definition Track_set_volume (t : Track) (value : Z) : result Track :=
  let! pl := set_volume (player t) value in Ok (set_player t pl).

Definition Track_seek (t : Track) (seconds : float64) : result Track :=
  let! pl := seek (player t) seconds in Ok (set_player t pl).

(** [Track.get_position]: the exact quotient, as [duration_seconds] is;
    where either enters float arithmetic it is rounded first. *)
Definition get_position (t : Track) : result Q :=
  py_truediv (Z.of_nat (current_frame (player t))) (samplerate (player t)).

(** ** MusicPlayer *)

(** What a started thread runs: [track.play] of the [Track] object [id], or
    a closure. *)
Inductive Target : Type :=
| target_play (id : nat)
| target_call (c : Callable).

(** A line printed by [play_track]: [Failed to play <name>: <e>]. *)
Inductive Report : Type :=
| failed_to_play (p : string) (e : exn).

(** The fields of [MusicPlayer] that drive playback, followed by the
    surroundings they act on: the [Track] objects created so far (a
    reference to a [Track] is its index in [objects]), the decodable files
    under the music directory, the threads started and not yet run, and
    what was printed. *)
Record MusicPlayer : Type := {
  current_track : option nat;
  current_volume : Z;
  loop_mode : string;
  track_list : list string;
  objects : list Track;
  music_dir : gmap string AudioFile;
  threads : list Target;
  stdout : list Report
}.

Definition set_current_track (self : MusicPlayer) (c : option nat) : MusicPlayer :=
  {| current_track := c; current_volume := current_volume self;
     loop_mode := loop_mode self; track_list := track_list self;
     objects := objects self; music_dir := music_dir self;
     threads := threads self; stdout := stdout self |}.

Definition set_current_volume (self : MusicPlayer) (v : Z) : MusicPlayer :=
  {| current_track := current_track self; current_volume := v;
     loop_mode := loop_mode self; track_list := track_list self;
     objects := objects self; music_dir := music_dir self;
     threads := threads self; stdout := stdout self |}.

Definition set_loop_mode (self : MusicPlayer) (mode : string) : MusicPlayer :=
  {| current_track := current_track self; current_volume := current_volume self;
     loop_mode := mode; track_list := track_list self;
     objects := objects self; music_dir := music_dir self;
     threads := threads self; stdout := stdout self |}.

Definition set_track_list (self : MusicPlayer) (l : list string) : MusicPlayer :=
  {| current_track := current_track self; current_volume := current_volume self;
     loop_mode := loop_mode self; track_list := l;
     objects := objects self; music_dir := music_dir self;
     threads := threads self; stdout := stdout self |}.

Definition set_objects (self : MusicPlayer) (o : list Track) : MusicPlayer :=
  {| current_track := current_track self; current_volume := current_volume self;
     loop_mode := loop_mode self; track_list := track_list self;
     objects := o; music_dir := music_dir self;
     threads := threads self; stdout := stdout self |}.

Definition set_music_dir (self : MusicPlayer) (fs : gmap string AudioFile)
  : MusicPlayer :=
  {| current_track := current_track self; current_volume := current_volume self;
     loop_mode := loop_mode self; track_list := track_list self;
     objects := objects self; music_dir := fs;
     threads := threads self; stdout := stdout self |}.

Definition set_threads (self : MusicPlayer) (ts : list Target) : MusicPlayer :=
  {| current_track := current_track self; current_volume := current_volume self;
     loop_mode := loop_mode self; track_list := track_list self;
     objects := objects self; music_dir := music_dir self;
     threads := ts; stdout := stdout self |}.

Definition set_stdout (self : MusicPlayer) (out : list Report) : MusicPlayer :=
  {| current_track := current_track self; current_volume := current_volume self;
     loop_mode := loop_mode self; track_list := track_list self;
     objects := objects self; music_dir := music_dir self;
     threads := threads self; stdout := out |}.

(** The object [id] is replaced by its new state. *)
Definition set_object (self : MusicPlayer) (id : nat) (t : Track) : MusicPlayer :=
  set_objects self (<[id := t]> (objects self)).

(** [Thread(target=tg, daemon=True).start()]. *)
Definition start_thread (self : MusicPlayer) (tg : Target) : MusicPlayer :=
  set_threads self (threads self ++ [tg]).

(** [print(...)]. *)
Definition print (self : MusicPlayer) (r : Report) : MusicPlayer :=
  set_stdout self (stdout self ++ [r]).

(** [MusicPlayer.__init__], which ends with [refresh_ui]: [scan] is what
    [scan_music] finds at that moment. *)
Definition MusicPlayer_init (fs : gmap string AudioFile) (scan : list string)
  : MusicPlayer :=
  {| current_track := None; current_volume := 100; loop_mode := "none";
     track_list := scan; objects := []; music_dir := fs;
     threads := []; stdout := [] |}.

(** The first statement of [play_track]: [if self.current_track: ...].
    A reference held by [current_track] always resolves (see [wf]). *)
Definition stop_current (self : MusicPlayer) : result MusicPlayer :=
  match current_track self with
  | Some id =>
      match objects self !! id with
      | Some t =>
          let! t' := Track_stop t in
          Ok (set_current_track (set_object self id t') None)
      | None => Ok (set_current_track self None)
      end
  | None => Ok self
  end.

(** The body of the [try] of [play_track]. *)
Definition start_track (self : MusicPlayer) (p : string) : result MusicPlayer :=
  let! track := Track_init (music_dir self) p in
  let! track := Track_set_volume track (current_volume self) in
  let track := set_player track
                 (set_finished_callback (player track) (Some (on_finished p))) in
  let id := length (objects self) in
  let self1 := set_objects self (objects self ++ [track]) in
  let self2 := start_thread self1 (target_play id) in
  Ok (set_current_track self2 (Some id)).

(** [MusicPlayer.play_track(path)]. *)
Definition play_track (self : MusicPlayer) (p : string) : result MusicPlayer :=
  let! self1 := stop_current self in
  match start_track self1 p with
  | Ok self2 => Ok self2
  | Raise e => Ok (print self1 (failed_to_play p e))
  end.

(** [MusicPlayer.on_track_finished(path)].  In the body of the [try] only
    [index] raises [ValueError], and it does so before the session is
    touched: the handler [pass] leaves [self] as it was. *)
Definition on_track_finished (self : MusicPlayer) (p : string) : result MusicPlayer :=
  if String.eqb (loop_mode self) "song" then play_track self p
  else if String.eqb (loop_mode self) "list" then
    try_except
      (let! idx := py_index (track_list self) p in
       let! next_idx := py_mod (idx + 1) (length (track_list self)) in
       let! next := py_getitem (track_list self) next_idx in
       play_track self next)
      ValueError
      (Ok self)
  else Ok (set_current_track self None).

(** [toggle_play] of [add_song_row], the handler of a row's play button. *)
Definition toggle_play (self : MusicPlayer) (p : string) : result MusicPlayer :=
  match current_track self with
  | Some id =>
      match objects self !! id with
      | Some t =>
          if String.eqb (path t) p then
            if paused (player t) then Ok (set_object self id (Track_resume t))
            else Ok (set_object self id (Track_pause t))
          else play_track self p
      | None => play_track self p
      end
  | None => play_track self p
  end.

(** [MusicPlayer.on_volume_change(value)]. *)
Definition on_volume_change (self : MusicPlayer) (value : Z) : result MusicPlayer :=
  let self1 := set_current_volume self value in
  match current_track self1 with
  | Some id =>
      match objects self1 !! id with
      | Some t => let! t' := Track_set_volume t value in
                  Ok (set_object self1 id t')
      | None => Ok self1
      end
  | None => Ok self1
  end.

(** [MusicPlayer.seek_track(value)], [value] being the slider position. *)
Definition seek_track (self : MusicPlayer) (value : Z) : result MusicPlayer :=
  match current_track self with
  | Some id =>
      match objects self !! id with
      | Some t =>
          let! fraction := py_float (inject_Z value / 1000) in
          let target_sec := py_fmul (Finite fraction)
                                    (round64 (duration_seconds t)) in
          let! t' := Track_seek t target_sec in
          Ok (set_object self id t')
      | None => Ok self
      end
  | None => Ok self
  end.

(** [MusicPlayer.refresh_ui], [scan] being the result of [scan_music]. *)
Definition refresh_ui (self : MusicPlayer) (scan : list string) : MusicPlayer :=
  set_track_list self scan.

(** ** The surroundings: threads and the audio subsystem *)

(** A started thread runs its target. *)
Definition run_target (self : MusicPlayer) (tg : Target) : result MusicPlayer :=
  match tg with
  | target_play id =>
      match objects self !! id with
      | Some t => Ok (set_object self id (Track_play t))
      | None => Ok self
      end
  | target_call (on_finished p) => on_track_finished self p
  end.

(** The scheduler picks the [k]-th started thread and runs it to its end. *)
Definition run_thread (self : MusicPlayer) (k : nat) : result MusicPlayer :=
  match threads self !! k with
  | Some tg => run_target (set_threads self (delete k (threads self))) tg
  | None => Ok self
  end.

(** The audio subsystem asks the stream of object [id] for one block.  Only a
    started stream calls back; a callback that raises ([CallbackStop]
    included) ends its stream.  The second component is the block handed to
    the device. *)
Definition audio_callback (self : MusicPlayer) (id : nat) (outdata : block)
    (frames : nat) : MusicPlayer * block :=
  match objects self !! id with
  | Some t =>
      match stream (player t) with
      | Some Active =>
          let r := callback (player t) outdata frames in
          let pl := match cb_raised r with
                    | None => cb_player r
                    | Some _ => set_stream (cb_player r) (Some Finished)
                    end in
          let self1 := set_object self id (set_player t pl) in
          (set_threads self1 (threads self1 ++ map target_call (cb_started r)),
           cb_outdata r)
      | _ => (self, outdata)
      end
  | None => (self, outdata)
  end.

(** A [QSlider] keeps the value it is given inside its range, and hands
    its slot the value it kept. *)
Definition slider_bound (minimum maximum value : Z) : Z :=
  Z.max minimum (Z.min maximum value).

(** Everything that can happen to a running session.  [ev_volume v]: the
    volume slider, of range 0 to 100, is given the value [v]. *)
Inductive Event : Type :=
| ev_toggle_play (p : string)
| ev_volume (value : Z)
| ev_seek (value : Z)
| ev_loop_mode (mode : string)
| ev_refresh (scan : list string)
| ev_disk (fs : gmap string AudioFile)
| ev_thread (k : nat)
| ev_audio (id : nat) (outdata : block) (frames : nat).

Definition step (self : MusicPlayer) (e : Event) : result MusicPlayer :=
  match e with
  | ev_toggle_play p => toggle_play self p
  | ev_volume v => on_volume_change self (slider_bound 0 100 v)
  | ev_seek v => seek_track self v
  | ev_loop_mode m => Ok (set_loop_mode self m)
  | ev_refresh scan => Ok (refresh_ui self scan)
  | ev_disk fs => Ok (set_music_dir self fs)
  | ev_thread k => run_thread self k
  | ev_audio id outdata frames => Ok (fst (audio_callback self id outdata frames))
  end.

(** The states a session can be in. *)
Inductive reachable : MusicPlayer -> Prop :=
| reach_init fs scan : reachable (MusicPlayer_init fs scan)
| reach_step self e self' :
    reachable self -> step self e = Ok self' -> reachable self'.

(** ** Notions used to state the properties *)

(** The audio subsystem asks a running stream for block after block; a
    request is the output buffer and its number of frames.  The stream ends
    with the first callback that raises. *)
Fixpoint callbacks (self : TrackPlayer) (reqs : list (block * nat))
  : TrackPlayer * list block :=
  match reqs with
  | [] => (self, [])
  | (outdata, frames) :: reqs' =>
      let r := callback self outdata frames in
      match cb_raised r with
      | None =>
          let rest := callbacks (cb_player r) reqs' in
          (fst rest, cb_outdata r :: snd rest)
      | Some _ => (cb_player r, [cb_outdata r])
      end
  end.

(** [pause()], some callbacks, [resume()]: once per element of [phases]. *)
Fixpoint pause_resume_pairs (self : TrackPlayer) (phases : list (list (block * nat)))
  : TrackPlayer * list block :=
  match phases with
  | [] => (self, [])
  | reqs :: phases' =>
      let during := callbacks (pause self) reqs in
      let rest := pause_resume_pairs (resume (fst during)) phases' in
      (fst rest, snd during ++ snd rest)
  end.

(** A block of silence. *)
Definition silent (b : block) : Prop := Forall (Forall (fun x => x = 0%Q)) b.

(** Two blocks of the same shape. *)
Definition same_shape (a b : block) : Prop := map length a = map length b.

(** [clamp(v, lo, hi)] on integers. *)
Definition clamp (v lo hi : Z) : Z := Z.max lo (Z.min v hi).

(** What every [Track] object of a session satisfies: its reader is open,
    its sample rate is not zero (the division of [Track.__init__] went
    through), its completion callback is the [on_finished] of its path, and
    its read cursor is not ahead of its reader. *)
Definition track_ok (t : Track) : Prop :=
  sf_closed (sf (player t)) = false /\
  samplerate (player t) <> 0%Z /\
  finished_callback (player t) = Some (on_finished (path t)) /\
  current_frame (player t) <= sf_pos (sf (player t)).

(** A well-formed session: [current_track] refers to an existing object,
    every object is [track_ok], and the volume setting is a value of the
    volume slider. *)
Definition wf (self : MusicPlayer) : Prop :=
  (forall id, current_track self = Some id -> id < length (objects self)) /\
  Forall track_ok (objects self) /\
  (0 <= current_volume self <= 100)%Z.

(** The engine of a track runs when its stream is started. *)
Definition running (t : Track) : Prop := stream (player t) = Some Active.

(** At most the current track has a running engine. *)
Definition exclusive (self : MusicPlayer) : Prop :=
  forall id t, objects self !! id = Some t -> running t ->
               current_track self = Some id.

(** No thread that would start an engine is waiting to run. *)
Definition no_play_pending (self : MusicPlayer) : Prop :=
  forall id, target_play id ∉ threads self.

(** No engine runs at all. *)
Definition no_engine (self : MusicPlayer) : Prop :=
  forall id t, objects self !! id = Some t -> ~ running t.

(** The started threads run at once, the oldest first; [fuel] bounds how
    many are run. *)
Fixpoint run_started (fuel : nat) (self : MusicPlayer) : result MusicPlayer :=
  match fuel with
  | 0 => Ok self
  | S fuel' =>
      match threads self with
      | [] => Ok self
      | _ :: _ => let! self1 := run_thread self 0 in run_started fuel' self1
      end
  end.

(** An event of a session in which every started thread has run before the
    next event arrives: an event starts at most a completion thread, which
    starts at most the thread of the next engine. *)
Definition prompt_step (self : MusicPlayer) (e : Event) : result MusicPlayer :=
  let! self1 := step self e in run_started 2 self1.

Inductive prompt_reachable : MusicPlayer -> Prop :=
| prompt_init fs scan : prompt_reachable (MusicPlayer_init fs scan)
| prompt_next self e self' :
    prompt_reachable self -> prompt_step self e = Ok self' ->
    prompt_reachable self'.

(** A player on a mono file of three frames, at the start, with a callback
    registered; and a session on a directory of three such files. *)
Definition three_frames : block := [[1 # 2]; [1 # 4]; [-1 # 2]]%Q.

Definition example_file : AudioFile :=
  {| af_samplerate := 44100; af_channels := 1; af_frames := three_frames |}.

Definition example_dir : gmap string AudioFile :=
  <["A" := example_file]> (<["B" := example_file]> (<["C" := example_file]> ∅)).

Definition example_player : TrackPlayer :=
  {| sf := {| sf_samplerate := 44100; sf_channels := 1;
              sf_frames := three_frames; sf_pos := 0; sf_closed := false |};
     samplerate := 44100; channels := 1; stream := Some Active;
     volume := 1 # 2; paused := false; current_frame := 0;
     finished_callback := Some (on_finished "A") |}.

Definition example_block : block := repeat [7%Q] blocksize.

(** A run of events, stopping at the first that raises. *)
Fixpoint run_events (self : MusicPlayer) (es : list Event) : result MusicPlayer :=
  match es with
  | [] => Ok self
  | e :: es' => let! self1 := step self e in run_events self1 es'
  end.

Definition session_after (es : list Event) : MusicPlayer :=
  match run_events (MusicPlayer_init example_dir ["A"; "B"; "C"]) es with
  | Ok self => self
  | Raise _ => MusicPlayer_init example_dir ["A"; "B"; "C"]
  end.

(** Loop mode list, the play button of "C" pressed, its engine started. *)
Definition example_session : MusicPlayer :=
  session_after [ev_loop_mode "list"; ev_toggle_play "C"; ev_thread 0].

(** The same after a rescan that no longer finds "B". *)
Definition rescanned_session : MusicPlayer :=
  session_after [ev_loop_mode "list"; ev_toggle_play "C"; ev_thread 0;
                 ev_refresh ["A"; "C"]].

(** The play buttons of "A" and of "B" pressed one after the other, before
    the thread that starts the engine of "A" has run; then both threads run. *)
Definition hasty_session : MusicPlayer :=
  session_after [ev_toggle_play "A"; ev_toggle_play "B"; ev_thread 0; ev_thread 0].

(** The [Track] object of "C" in [example_session]. *)
Definition example_track : Track :=
  {| path := "C";
     player :=
       {| sf := {| sf_samplerate := 44100; sf_channels := 1;
                   sf_frames := three_frames; sf_pos := 0; sf_closed := false |};
          samplerate := 44100; channels := 1; stream := Some Active;
          volume := 100 # 100; paused := false; current_frame := 0;
          finished_callback := Some (on_finished "C") |};
     duration_seconds := 3 # 44100 |}.

(** ** The window around the engine *)

(** [x // n] and [x % n] for a float [x] and the integer constant [n]. *)
Definition py_floordiv (x : Q) (n : Z) : Q := inject_Z (Qfloor (x / inject_Z n)).

Definition py_fmod (x : Q) (n : Z) : Q := (x - inject_Z n * py_floordiv x n)%Q.

(** [int(d // 60)] and [int(d % 60)], the two numbers of a time label
    [f"{minutes}:{seconds:02}"]. *)
Definition minutes_seconds (d : Q) : Z * Z :=
  (py_int (py_floordiv d 60), py_int (py_fmod d 60)).

(** The [try] of [add_song_row]: the duration label of a row, [None] being
    the label [--:--] of the [except] branch. *)
Definition row_time_label (fs : gmap string AudioFile) (p : string) : option (Z * Z) :=
  match (let! f := SoundFile_open fs p in
         let! duration := py_truediv (Z.of_nat (sf_len f)) (sf_samplerate f) in
         Ok (minutes_seconds duration)) with
  | Ok label => Some label
  | Raise _ => None
  end.

(** What [update_progress] shows: the slider position and the two times of
    the label. *)
Record Progress : Type := {
  slider_value : Z;
  cur_time : Z * Z;
  dur_time : Z * Z
}.

(** [MusicPlayer.update_progress], the slot of the 50 ms timer; the flag
    [user_seeking] of the window is an argument.  [None]: nothing is
    updated. *)
Definition update_progress (self : MusicPlayer) (user_seeking : bool)
  : result (option Progress) :=
  match current_track self with
  | Some id =>
      match objects self !! id with
      | Some t =>
          if user_seeking then Ok None
          else
            let! pos_sec := get_position t in
            let! pos_sec := py_float pos_sec in
            let! duration_sec := py_float (duration_seconds t) in
            let! ratio := py_fdiv pos_sec duration_sec in
            let! value := py_int_float (py_fmul ratio (Finite 1000)) in
            Ok (Some {| slider_value := value;
                        cur_time := minutes_seconds pos_sec;
                        dur_time := minutes_seconds duration_sec |})
      | None => Ok None
      end
  | None => Ok None
  end.


(** [MusicPlayer.closeEvent], as far as the engine goes. *)
Definition closeEvent (self : MusicPlayer) : result MusicPlayer :=
  match current_track self with
  | Some id =>
      match objects self !! id with
      | Some t => let! t' := Track_stop t in Ok (set_object self id t')
      | None => Ok self
      end
  | None => Ok self
  end.

(** ** Further notions *)

(** The reader of a track is inside its file, and the duration of the track
    is that of its reader. *)
Definition track_steady (t : Track) : Prop :=
  sf_pos (sf (player t)) <= sf_len (sf (player t)) /\
  duration_seconds t
  = (inject_Z (Z.of_nat (sf_len (sf (player t)))) / inject_Z (samplerate (player t)))%Q.

(** The gain of the current track is the one the volume setting asks for. *)
Definition volume_synced (self : MusicPlayer) : Prop :=
  forall id t, current_track self = Some id -> objects self !! id = Some t ->
               volume (player t) = np_clip (inject_Z (current_volume self) / 100) 0 1.

(** A player in the middle of [three_frames], and an empty file. *)
Definition empty_file : AudioFile :=
  {| af_samplerate := 44100; af_channels := 1; af_frames := [] |}.

Definition small_block : block := [[7%Q]; [7%Q]].

(** A file of a thousand silent frames at 48000 frames a second, and a
    session in which it is current under the name "A". *)
Definition long_file : AudioFile :=
  {| af_samplerate := 48000; af_channels := 1;
     af_frames := repeat [0%Q] 1000 |}.

Definition long_file_session : MusicPlayer :=
  session_after [ev_disk (<["A" := long_file]> example_dir);
                 ev_toggle_play "A"].

(** A session in which "A" has become an empty file and is current. *)
Definition empty_file_session : MusicPlayer :=
  session_after [ev_disk (<["A" := empty_file]> example_dir);
                 ev_toggle_play "A"].

(** A session whose threads run at once, in loop mode none, "C" playing. *)
Definition prompt_session : MusicPlayer :=
  match prompt_step (MusicPlayer_init example_dir ["A"; "B"; "C"])
                    (ev_toggle_play "C") with
  | Ok self => self
  | Raise _ => MusicPlayer_init example_dir ["A"; "B"; "C"]
  end.

(** * Properties *)

(** A call returned [Ok]: name the value it returned. *)
Ltac returned :=
  let H := fresh "Hret" in intros H; injection H as <-.

Create HintDb session.

(** ** Facts about the primitives *)

Lemma np_fill0_silent (b : block) : silent (np_fill0 b).
Proof.
  unfold silent, np_fill0.
  induction b as [|row b IH]; simpl; constructor; auto.
  clear IH. induction row; simpl; constructor; auto.
Qed.

Lemma np_fill0_same_shape (b : block) : same_shape (np_fill0 b) b.
Proof.
  unfold same_shape, np_fill0.
  induction b as [|row b IH]; simpl; [reflexivity|].
  rewrite length_map. f_equal. exact IH.
Qed.

Lemma np_fill0_length (b : block) : length (np_fill0 b) = length b.
Proof. unfold np_fill0. apply length_map. Qed.

Lemma np_scale_length (b : block) (v : Q) : length (np_scale b v) = length b.
Proof. unfold np_scale. apply length_map. Qed.

Lemma np_fill0_lookup (b : block) (i : nat) :
  np_fill0 b !! i = map (fun _ => 0%Q) <$> b !! i.
Proof. unfold np_fill0. apply list_lookup_fmap. Qed.

Lemma np_scale_lookup (b : block) (v : Q) (i : nat) :
  np_scale b v !! i = map (fun x => (x * v)%Q) <$> b !! i.
Proof. unfold np_scale. apply list_lookup_fmap. Qed.

(** The two writes of the short-read branch: [rows] first, zeros after. *)
Lemma short_block_written (rows out : block) :
  slice_fill0_from (length rows) (slice_assign 0 (length rows) rows out)
  = rows ++ np_fill0 (drop (length rows) out).
Proof.
  unfold slice_fill0_from, slice_assign. rewrite take_0. simpl.
  rewrite take_app_length, drop_app_length. reflexivity.
Qed.

(** The write of the full-read branch overwrites the whole block. *)
Lemma full_block_written (rows out : block) :
  length rows = length out ->
  slice_assign 0 (length out) rows out = rows.
Proof.
  intros _. unfold slice_assign. rewrite take_0, drop_all. simpl.
  apply app_nil_r.
Qed.

Lemma sf_read_length (frames : nat) (f f' : SoundFile) (data : block) :
  sf_read frames f = Ok (data, f') ->
  length data = Nat.min frames (sf_len f - sf_pos f) /\
  sf_pos f' = sf_pos f + length data /\
  sf_frames f' = sf_frames f /\
  sf_closed f' = false /\ sf_closed f = false.
Proof.
  unfold sf_read. destruct (sf_closed f) eqn:Hc; [discriminate|].
  intros H. injection H as <- <-. simpl.
  rewrite length_take, length_drop. unfold sf_len. auto.
Qed.

Lemma py_index_lookup (l : list string) (x : string) (i : nat) :
  py_index l x = Ok i ->
  l !! i = Some x /\ forall j, j < i -> l !! j <> Some x.
Proof.
  revert i. induction l as [|y l IH]; intros i; simpl; [discriminate|].
  destruct (String.eqb y x) eqn:E.
  - intros H. injection H as <-. apply String.eqb_eq in E. subst y.
    split; [reflexivity|]. intros j Hj. lia.
  - destruct (py_index l x) as [k|e] eqn:Hk; simpl; [|discriminate].
    intros H. injection H as <-. destruct (IH k eq_refl) as [H1 H2].
    split; [exact H1|]. intros [|j] Hj; simpl.
    + apply String.eqb_neq in E. congruence.
    + apply H2. lia.
Qed.

Lemma py_index_absent (l : list string) (x : string) :
  x ∉ l -> py_index l x = Raise ValueError.
Proof.
  induction l as [|y l IH]; simpl; [reflexivity|].
  intros Hn. apply not_elem_of_cons in Hn as [Hne Hn].
  destruct (String.eqb y x) eqn:E.
  - apply String.eqb_eq in E. congruence.
  - rewrite (IH Hn). reflexivity.
Qed.

Lemma py_index_present (l : list string) (x : string) :
  x ∈ l -> exists i, py_index l x = Ok i /\ i < length l.
Proof.
  induction l as [|y l IH]; simpl.
  - intros H. apply elem_of_nil in H. contradiction.
  - intros H. destruct (String.eqb y x) eqn:E.
    + exists 0. split; [reflexivity|lia].
    + apply elem_of_cons in H as [H|H].
      * apply String.eqb_neq in E. congruence.
      * destruct (IH H) as (i & Hi & Hlt). exists (S i).
        rewrite Hi. simpl. split; [reflexivity|lia].
Qed.

Lemma py_index_first (l : list string) (x : string) (i : nat) :
  l !! i = Some x -> (forall j, j < i -> l !! j <> Some x) ->
  py_index l x = Ok i.
Proof.
  revert i. induction l as [|y l IH]; intros i Hi Hfirst; [discriminate|].
  simpl. destruct i as [|i]; simpl in Hi.
  - injection Hi as ->. rewrite String.eqb_refl. reflexivity.
  - destruct (String.eqb y x) eqn:E.
    + apply String.eqb_eq in E. subst y.
      exfalso. apply (Hfirst 0); [lia|reflexivity].
    + rewrite (IH i Hi); [reflexivity|].
      intros j Hj. apply (Hfirst (S j)). lia.
Qed.

Local Open Scope Q_scope.

(** ** Rounding

    What the properties below need of binary64 rounding: where it
    overflows, and that below [2 ^ 53] it moves a number by at most one
    half and leaves an integer alone. *)

Lemma Qle_bool_false (x y : Q) : Qle_bool x y = false <-> y < x.
Proof.
  split.
  - intros H. apply Qnot_le_lt. intros Hle. apply Qle_bool_iff in Hle. congruence.
  - intros H. destruct (Qle_bool x y) eqn:E; [|reflexivity].
    apply Qle_bool_iff in E. exfalso. exact (Qlt_not_le _ _ H E).
Qed.

Lemma round64_overflow (x : Q) :
  float_overflow <= Qabs x -> round64 x = Infinite (negb (Qle_bool 0 x)).
Proof.
  intros H. unfold round64. apply Qle_bool_iff in H. rewrite H. reflexivity.
Qed.

Lemma round64_finite (x : Q) :
  Qabs x < float_overflow -> exists r, round64 x = Finite r.
Proof.
  intros H. unfold round64. apply Qle_bool_false in H. rewrite H.
  destruct (Qeq_bool x 0); eexists; reflexivity.
Qed.

Lemma round64_zero (x : Q) : x == 0 -> round64 x = Finite 0.
Proof.
  intros H. unfold round64.
  assert (Qle_bool float_overflow (Qabs x) = false) as ->.
  { apply Qle_bool_false. rewrite H. reflexivity. }
  apply Qeq_bool_iff in H. rewrite H. reflexivity.
Qed.

Lemma pow2_pos (e : Z) : 0 < 2 ^ e.
Proof. apply Qpower_0_lt. reflexivity. Qed.

Lemma ilog2_le (x : Q) : 0 < x -> 2 ^ ilog2 x <= x.
Proof.
  intros Hx. unfold ilog2.
  set (n := Qnum x). set (d := Z.pos (Qden x)).
  destruct (Qle_bool (2 ^ (Z.log2 n - Z.log2 d)) x) eqn:E.
  - apply Qle_bool_iff. exact E.
  - clear E.
    assert (0 < n)%Z as Hn by (unfold n; destruct x; unfold Qlt in Hx; simpl in *; lia).
    pose proof (Z.log2_spec n Hn) as [Hn1 _].
    pose proof (Z.log2_spec d ltac:(unfold d; lia)) as [_ Hd2].
    pose proof (Z.log2_nonneg n) as Hln. pose proof (Z.log2_nonneg d) as Hld.
    replace (Z.log2 n - Z.log2 d - 1)%Z with (Z.log2 n - Z.succ (Z.log2 d))%Z by lia.
    rewrite Qpower_minus by discriminate.
    rewrite <- (Zpower_Qpower 2 (Z.log2 n)) by lia.
    rewrite <- (Zpower_Qpower 2 (Z.succ (Z.log2 d))) by lia.
    set (a := (2 ^ Z.log2 n)%Z) in *. set (b := (2 ^ Z.succ (Z.log2 d))%Z) in *.
    assert (0 < a)%Z as Ha by (unfold a; apply Z.pow_pos_nonneg; lia).
    apply Qle_shift_div_r; [unfold Qlt; simpl; lia|].
    destruct x as [xn xd]. unfold Qle, Qmult, inject_Z. simpl in *.
    fold n. fold d. nia.
Qed.

Lemma ilog2_lt (x : Q) (n : Z) : 0 < x -> x < 2 ^ n -> (ilog2 x < n)%Z.
Proof.
  intros Hx Hn. apply (Qpower_lt_compat_l_inv 2); [|reflexivity].
  eapply Qle_lt_trans; [apply ilog2_le; exact Hx | exact Hn].
Qed.

Lemma round_half_even_near (y : Q) :
  Qabs (inject_Z (round_half_even y) - y) <= 1 # 2.
Proof.
  unfold round_half_even.
  pose proof (Qfloor_le y) as H1. pose proof (Qlt_floor y) as H2.
  set (f := Qfloor y) in *.
  rewrite inject_Z_plus in H2. change (inject_Z 1) with 1 in H2.
  apply Qabs_Qle_condition.
  destruct (y - inject_Z f ?= 1 # 2) eqn:E.
  - apply Qeq_alt in E.
    destruct (Z.even f); [|rewrite inject_Z_plus; change (inject_Z 1) with 1]; lra.
  - apply Qlt_alt in E. lra.
  - apply Qgt_alt in E. rewrite inject_Z_plus. change (inject_Z 1) with 1. lra.
Qed.

Lemma round_half_even_integer (y : Q) (k : Z) :
  y == inject_Z k -> round_half_even y = k.
Proof.
  intros H. unfold round_half_even.
  rewrite (Qfloor_comp _ _ H), Qfloor_Z.
  assert ((y - inject_Z k ?= 1 # 2) = Lt) as ->; [|reflexivity].
  apply (proj1 (Qlt_alt _ _)). lra.
Qed.

Lemma float_overflow_above : 2 ^ 53 < float_overflow.
Proof. vm_compute. reflexivity. Qed.

(** The exponent of the last place of a number below [2 ^ 53] is at most 0. *)
Lemma exponent_small (a : Q) :
  0 < a -> a < 2 ^ 53 -> (Z.max (ilog2 a - 52) (-1074) <= 0)%Z.
Proof.
  intros Ha Hlt. pose proof (ilog2_lt a 53 Ha Hlt). lia.
Qed.

(** Below [2 ^ 53] rounding moves a number by at most one half. *)
Lemma round64_near (x : Q) :
  Qabs x < 2 ^ 53 ->
  exists r, round64 x = Finite r /\ Qabs (r - x) <= 1 # 2.
Proof.
  intros Hx. unfold round64.
  assert (Qle_bool float_overflow (Qabs x) = false) as ->.
  { apply Qle_bool_false. eapply Qlt_trans; [exact Hx | exact float_overflow_above]. }
  destruct (Qeq_bool x 0) eqn:E0.
  - apply Qeq_bool_iff in E0. exists 0. split; [reflexivity|].
    apply Qabs_Qle_condition. lra.
  - assert (~ x == 0) as Hne.
    { intros H. apply Qeq_bool_iff in H. congruence. }
    assert (0 < Qabs x) as Ha.
    { apply Qabs_case; intros H; lra. }
    pose proof (exponent_small _ Ha Hx) as He.
    set (a := Qabs x) in *.
    set (e := Z.max (ilog2 a - 52) (-1074)) in *.
    pose proof (pow2_pos e) as Hp.
    pose proof (Qpower_le_compat_l 2 e 0 He ltac:(discriminate)) as Hp1.
    change (2 ^ 0) with 1 in Hp1.
    pose proof (round_half_even_near (a / 2 ^ e)) as Hm.
    set (m := round_half_even (a / 2 ^ e)) in *.
    eexists. split; [reflexivity|].
    assert (Qabs (inject_Z m * 2 ^ e - a) <= 1 # 2) as Hr.
    { set (p := 2 ^ e) in *. set (u := a / p) in *.
      assert (a == u * p) as Ea by (unfold u; field; lra).
      apply Qabs_Qle_condition in Hm. apply Qabs_Qle_condition.
      rewrite Ea. nra. }
    destruct (Qle_bool 0 x) eqn:Es.
    + apply Qle_bool_iff in Es. rewrite Qred_correct.
      assert (a == x) as Eax by (apply Qabs_pos; exact Es).
      rewrite <- Eax. exact Hr.
    + apply Qle_bool_false in Es. rewrite Qred_correct.
      assert (a == - x) as Eax by (apply Qabs_neg; lra).
      apply Qabs_Qle_condition in Hr. apply Qabs_Qle_condition. lra.
Qed.

(** An integer below [2 ^ 53] is a float. *)
Lemma round64_integer (n : Z) :
  (Z.abs n < 2 ^ 53)%Z ->
  exists r, round64 (inject_Z n) = Finite r /\ r == inject_Z n.
Proof.
  intros Hn. unfold round64.
  assert (Qabs (inject_Z n) = inject_Z (Z.abs n)) as Eabs by reflexivity.
  assert (inject_Z (Z.abs n) < 2 ^ 53) as Hlt.
  { rewrite <- (Zpower_Qpower 2 53) by lia. rewrite <- Zlt_Qlt. exact Hn. }
  rewrite Eabs.
  assert (Qle_bool float_overflow (inject_Z (Z.abs n)) = false) as ->.
  { apply Qle_bool_false. eapply Qlt_trans; [exact Hlt | exact float_overflow_above]. }
  destruct (Qeq_bool (inject_Z n) 0) eqn:E0.
  - apply Qeq_bool_iff in E0. exists 0. split; [reflexivity|]. symmetry. exact E0.
  - assert (n <> 0%Z) as Hne.
    { intros ->. discriminate. }
    assert (0 < inject_Z (Z.abs n)) as Ha.
    { unfold Qlt. simpl. lia. }
    pose proof (exponent_small _ Ha Hlt) as He.
    set (e := Z.max (ilog2 (inject_Z (Z.abs n)) - 52) (-1074)) in *.
    assert (2 ^ e == / inject_Z (2 ^ (- e))) as Ep.
    { rewrite Zpower_Qpower by lia. rewrite <- Qpower_opp.
      replace (- - e)%Z with e by lia. reflexivity. }
    assert (0 < 2 ^ (- e))%Z as Hpz by (apply Z.pow_pos_nonneg; lia).
    assert (0 < inject_Z (2 ^ (- e))) as Hpq by (unfold Qlt; simpl; lia).
    assert (inject_Z (Z.abs n) / 2 ^ e == inject_Z (Z.abs n * 2 ^ (- e))) as Eq.
    { rewrite Ep, inject_Z_mult. field. lra. }
    rewrite (round_half_even_integer _ _ Eq).
    eexists. split; [reflexivity|].
    assert (Qred (inject_Z (Z.abs n * 2 ^ (- e)) * 2 ^ e) == inject_Z (Z.abs n)) as Er.
    { rewrite Qred_correct, Ep, inject_Z_mult. field. lra. }
    destruct (Qle_bool 0 (inject_Z n)) eqn:Es.
    + apply Qle_bool_iff in Es. unfold Qle in Es. simpl in Es.
      rewrite Er. rewrite Z.abs_eq by lia. reflexivity.
    + apply Qle_bool_false in Es. unfold Qlt in Es. simpl in Es.
      rewrite Er. rewrite Z.abs_neq by lia. rewrite inject_Z_opp. lra.
Qed.

(** Rounding keeps the sign. *)
Lemma round_half_even_nonneg (y : Q) : 0 <= y -> (0 <= round_half_even y)%Z.
Proof.
  intros Hy. pose proof (round_half_even_near y) as H.
  apply Qabs_Qle_condition in H.
  assert (-1 < inject_Z (round_half_even y)) as Hm by lra.
  change (-1) with (inject_Z (-1)) in Hm. rewrite <- Zlt_Qlt in Hm. lia.
Qed.

(** The exponent of the last place of [a], as a power of two. *)
Lemma last_place_bound (a : Q) :
  0 < a ->
  2 ^ Z.max (ilog2 a - 52) (-1074) <= a * 2 ^ (-52) + 2 ^ (-1074).
Proof.
  intros Ha. pose proof (ilog2_le a Ha) as Hlog.
  pose proof (pow2_pos (-1074)) as H1. pose proof (pow2_pos (-52)) as H2.
  destruct (Z.max_spec (ilog2 a - 52) (-1074)) as [[_ ->]|[_ ->]].
  - set (q := 2 ^ (-52)) in *. set (s := 2 ^ (-1074)) in *.
    clearbody q s.
    assert (0 <= a * q) by (apply Qmult_le_0_compat; apply Qlt_le_weak; assumption).
    lra.
  - replace (ilog2 a - 52)%Z with (ilog2 a + (-52))%Z by lia.
    rewrite Qpower_plus by discriminate.
    set (p := 2 ^ ilog2 a) in *. set (q := 2 ^ (-52)) in *.
    set (s := 2 ^ (-1074)) in *. clearbody p q s.
    assert (p * q <= a * q)
      by (apply Qmult_le_compat_r; [exact Hlog | apply Qlt_le_weak; exact H2]).
    lra.
Qed.

(** The error of rounding: relative [2 ^ -53], or half the least
    subnormal. *)
Lemma round64_error (x : Q) :
  Qabs x < float_overflow ->
  exists r,
    round64 x = Finite r /\
    Qabs (r - x) <= Qabs x * 2 ^ (-53) + 2 ^ (-1075) /\
    (0 <= x -> 0 <= r).
Proof.
  intros Hx. unfold round64.
  assert (Qle_bool float_overflow (Qabs x) = false) as ->
    by (apply Qle_bool_false; exact Hx).
  pose proof (pow2_pos (-53)) as Hu. pose proof (pow2_pos (-1075)) as Heps.
  pose proof (Qabs_nonneg x) as Habs.
  destruct (Qeq_bool x 0) eqn:E0.
  - apply Qeq_bool_iff in E0. exists 0. split; [reflexivity|]. split; [|lra].
    assert (Qabs (0 - x) == 0) as -> by (rewrite <- (Qabs_wd 0); [reflexivity|lra]).
    nra.
  - assert (~ x == 0) as Hne.
    { intros H. apply Qeq_bool_iff in H. congruence. }
    assert (0 < Qabs x) as Ha.
    { apply Qabs_case; intros H; lra. }
    pose proof (last_place_bound _ Ha) as Hp.
    set (a := Qabs x) in *.
    set (e := Z.max (ilog2 a - 52) (-1074)) in *.
    pose proof (pow2_pos e) as Hp0.
    pose proof (round_half_even_near (a / 2 ^ e)) as Hm.
    assert (0 <= a / 2 ^ e) as Hq.
    { apply Qle_shift_div_l; [exact Hp0 | lra]. }
    pose proof (round_half_even_nonneg _ Hq) as Hm0.
    set (m := round_half_even (a / 2 ^ e)) in *.
    assert (0 <= inject_Z m) as Hm0' by (unfold Qle; simpl; lia).
    eexists. split; [reflexivity|].
    assert (2 ^ (-52) == 2 * 2 ^ (-53)) as E52 by reflexivity.
    assert (2 ^ (-1074) == 2 * 2 ^ (-1075)) as E1074 by reflexivity.
    set (u := 2 ^ (-53)) in *. set (eps := 2 ^ (-1075)) in *.
    assert (Qabs (inject_Z m * 2 ^ e - a) <= a * u + eps) as Hr.
    { set (p := 2 ^ e) in *. set (v := a / p) in *.
      assert (a == v * p) as Ea by (unfold v; field; lra).
      apply Qabs_Qle_condition in Hm. apply Qabs_Qle_condition.
      rewrite E52, E1074 in Hp.
      split; nra. }
    destruct (Qle_bool 0 x) eqn:Es.
    + apply Qle_bool_iff in Es. rewrite Qred_correct.
      assert (a == x) as Eax by (apply Qabs_pos; exact Es).
      split; [|intros _; nra].
      apply Qabs_Qle_condition in Hr. apply Qabs_Qle_condition. lra.
    + apply Qle_bool_false in Es. rewrite Qred_correct.
      assert (a == - x) as Eax by (apply Qabs_neg; lra).
      split; [|intros H; lra].
      apply Qabs_Qle_condition in Hr. apply Qabs_Qle_condition. lra.
Qed.

(** Rounding of a number that is not negative, with the error bounded by
    a hundred-thousandth of the number and a constant below every
    quotient of two integers under [2 ^ 53]. *)
Lemma round64_close (x : Q) :
  0 <= x -> x < float_overflow ->
  exists r,
    round64 x = Finite r /\ 0 <= r /\
    x - (x * (1 # 100000) + 2 ^ (-1075)) <= r /\
    r <= x + (x * (1 # 100000) + 2 ^ (-1075)).
Proof.
  intros H0 Hx.
  assert (Qabs x == x) as Eabs by (apply Qabs_pos; exact H0).
  destruct (round64_error x) as (r & Hr & He & Hs).
  { rewrite Eabs. exact Hx. }
  exists r. split; [exact Hr|]. split; [exact (Hs H0)|].
  rewrite Eabs in He. apply Qabs_Qle_condition in He.
  assert (2 ^ (-53) <= 1 # 100000) as Hu by (vm_compute; discriminate).
  set (u := 2 ^ (-53)) in *. set (eps := 2 ^ (-1075)) in *. clearbody u eps.
  assert (x * u <= x * (1 # 100000)) as Hxu.
  { rewrite !(Qmult_comm x). apply Qmult_le_compat_r; assumption. }
  split; lra.
Qed.

(** Rounding of a number that is not negative, the error bounded with
    plain numbers: [2 ^ -53] of the number, and [10 ^ -60]. *)
Lemma round64_tight (x : Q) :
  0 <= x -> x < float_overflow ->
  exists r,
    round64 x = Finite r /\ 0 <= r /\
    x - (x * (1 # 9007199254740992) + (1 # 1000000000000000000000000000000000000000000000000000000000000)) <= r /\
    r <= x + (x * (1 # 9007199254740992) + (1 # 1000000000000000000000000000000000000000000000000000000000000)).
Proof.
  intros H0 Hx.
  assert (Qabs x == x) as Eabs by (apply Qabs_pos; exact H0).
  destruct (round64_error x) as (r & Hr & He & Hs).
  { rewrite Eabs. exact Hx. }
  exists r. split; [exact Hr|]. split; [exact (Hs H0)|].
  rewrite Eabs in He. apply Qabs_Qle_condition in He.
  assert (2 ^ (-53) == 1 # 9007199254740992) as Eu by reflexivity.
  assert (2 ^ (-1075) <= 1 # 1000000000000000000000000000000000000000000000000000000000000) as Heps by (vm_compute; discriminate).
  rewrite Eu in He.
  set (eps := 2 ^ (-1075)) in *. clearbody eps.
  split; lra.
Qed.

(** The product of two approximations. *)
Lemma product_close (f x B d a b xmax Bmax : Q) :
  x - a <= f -> f <= x + a -> d - b <= B -> B <= d + b ->
  0 <= a -> 0 <= b ->
  0 <= B -> B <= Bmax -> 0 <= x -> x <= xmax ->
  x * d - (a * Bmax + xmax * b) <= f * B /\
  f * B <= x * d + (a * Bmax + xmax * b).
Proof.
  intros Hf1 Hf2 HB1 HB2 Ha Hb HB0 HBm Hx0 Hxm.
  assert (f * B - x * d == (f - x) * B + x * (B - d)) as E by ring.
  assert ((f - x) * B <= a * Bmax) as H1.
  { apply Qle_trans with (a * B).
    - apply Qmult_le_compat_r; [lra | exact HB0].
    - rewrite !(Qmult_comm a). apply Qmult_le_compat_r; [exact HBm | exact Ha]. }
  assert (- (a * Bmax) <= (f - x) * B) as H2.
  { apply Qle_trans with (- (a * B)).
    - apply Qopp_le_compat.
      rewrite !(Qmult_comm a). apply Qmult_le_compat_r; [exact HBm | exact Ha].
    - assert (- (a * B) == (- a) * B) as -> by ring.
      apply Qmult_le_compat_r; [lra | exact HB0]. }
  assert (x * (B - d) <= xmax * b) as H3.
  { apply Qle_trans with (x * b).
    - rewrite !(Qmult_comm x). apply Qmult_le_compat_r; [lra | exact Hx0].
    - apply Qmult_le_compat_r; [exact Hxm | exact Hb]. }
  assert (- (xmax * b) <= x * (B - d)) as H4.
  { apply Qle_trans with (- (x * b)).
    - apply Qopp_le_compat. apply Qmult_le_compat_r; [exact Hxm | exact Hb].
    - assert (- (x * b) == x * (- b)) as -> by ring.
      rewrite !(Qmult_comm x). apply Qmult_le_compat_r; [lra | exact Hx0]. }
  split; lra.
Qed.

(** [int(x)] is less than 1 away from [x]. *)
Lemma py_int_near (x : Q) : Qabs (inject_Z (py_int x) - x) < 1.
Proof.
  destruct x as [n d]. unfold py_int. cbn [Qnum Qden].
  pose proof (Z.quot_rem' n (Z.pos d)) as Hqr.
  pose proof (Z.rem_bound_abs n (Z.pos d) ltac:(lia)) as Hb.
  set (q := (n ÷ Z.pos d)%Z) in *. set (r := Z.rem n (Z.pos d)) in *.
  apply (proj2 (Qabs_Qlt_condition _ _)).
  unfold Qlt, Qminus, Qplus, Qopp, inject_Z. simpl.
  split; nia.
Qed.

Lemma py_float_in_range (x : Q) :
  Qabs x < float_overflow -> exists q, py_float x = Ok q.
Proof.
  intros H. unfold py_float. destruct (round64_finite x H) as [r ->].
  exists r. reflexivity.
Qed.

Lemma py_float_out_of_range (x : Q) :
  float_overflow <= Qabs x -> py_float x = Raise OverflowError.
Proof. intros H. unfold py_float. rewrite (round64_overflow x H). reflexivity. Qed.

Local Close Scope Q_scope.

(** ** Volume *)

Lemma np_clip_unit_spec (x : Q) :
  ((x <= 0 /\ np_clip x 0 1 == 0) \/
   (0 <= x <= 1 /\ np_clip x 0 1 == x) \/
   (1 <= x /\ np_clip x 0 1 == 1))%Q.
Proof.
  unfold np_clip.
  destruct (Q.max_spec x 0) as [[H1 E1]|[H1 E1]];
    destruct (Q.min_spec (Qmax x 0) 1) as [[H2 E2]|[H2 E2]];
    rewrite E2; rewrite E1 in H2.
  - left. split; [apply Qlt_le_weak; exact H1 | exact E1].
  - exfalso. revert H2. unfold Qle. simpl. lia.
  - right. left. rewrite E1. split; [|reflexivity].
    split; [exact H1 | apply Qlt_le_weak; exact H2].
  - right. right. split; [exact H2 | reflexivity].
Qed.

Lemma np_clip_percent (v : Z) :
  (np_clip (inject_Z v / 100) 0 1 == inject_Z (clamp v 0 100) / 100)%Q /\
  (0 <= np_clip (inject_Z v / 100) 0 1 <= 1)%Q.
Proof.
  destruct (np_clip_unit_spec (inject_Z v / 100)) as [[H E]|[[[H H'] E]|[H E]]];
    rewrite E; revert H; try revert H';
    unfold clamp, Qle, Qeq, Qdiv, Qmult, Qinv, inject_Z; simpl; lia.
Qed.

(** Where the division goes through, [set_volume] sets the volume and
    touches nothing else. *)
Lemma set_volume_in_range (self : TrackPlayer) (v : Z) :
  (Qabs (inject_Z v / 100) < float_overflow)%Q ->
  set_volume self v
  = Ok (set_volume_field self (np_clip (inject_Z v / 100) 0 1)%Q).
Proof.
  intros H. unfold set_volume.
  destruct (py_float_in_range _ H) as [q ->]. reflexivity.
Qed.

(** It goes through for every value of the volume slider. *)
Lemma slider_volume_in_range (v : Z) :
  (0 <= v <= 100)%Z -> (Qabs (inject_Z v / 100) < float_overflow)%Q.
Proof.
  intros Hv. apply (Qle_lt_trans _ 1).
  - apply (proj2 (Qabs_Qle_condition _ _)).
    unfold Qle, Qdiv, Qmult, Qinv, Qopp, inject_Z. simpl. lia.
  - vm_compute. reflexivity.
Qed.

Lemma set_volume_slider (self : TrackPlayer) (v : Z) :
  (0 <= v <= 100)%Z ->
  set_volume self v
  = Ok (set_volume_field self (np_clip (inject_Z v / 100) 0 1)%Q).
Proof. intros Hv. apply set_volume_in_range, slider_volume_in_range, Hv. Qed.

Lemma Track_set_volume_slider (t : Track) (v : Z) :
  (0 <= v <= 100)%Z ->
  Track_set_volume t v
  = Ok (set_player t (set_volume_field (player t)
                        (np_clip (inject_Z v / 100) 0 1)%Q)).
Proof.
  intros Hv. unfold Track_set_volume. rewrite (set_volume_slider _ _ Hv).
  reflexivity.
Qed.

(** When it returns, [set_volume] has set the clamped quotient. *)
Lemma Track_set_volume_inv (t t' : Track) (v : Z) :
  Track_set_volume t v = Ok t' ->
  t' = set_player t (set_volume_field (player t)
                       (np_clip (inject_Z v / 100) 0 1)%Q).
Proof.
  unfold Track_set_volume, set_volume.
  destruct (py_float (inject_Z v / 100)) as [q|x]; cbn [rbind]; [|discriminate].
  returned. reflexivity.
Qed.

Lemma slider_bound_range (lo hi v : Z) :
  (lo <= hi)%Z -> (lo <= slider_bound lo hi v <= hi)%Z.
Proof. unfold slider_bound. lia. Qed.

(** C5, as the code has it: [set_volume(v)] succeeds for every integer [v]
    whose quotient by 100 is inside the range of a float, and the volume
    read back afterwards is [clamp(v,0,100)/100], a scalar between 0 and 1:
    such values outside [0,100] are clamped, not rejected, and nothing but
    the volume changes.  For every other integer the division raises
    [OverflowError]. *)
Theorem set_volume_clamps (self : TrackPlayer) (v : Z) :
  ((Qabs (inject_Z v / 100) < float_overflow)%Q ->
   exists self',
     set_volume self v = Ok self' /\
     (volume self' == inject_Z (clamp v 0 100) / 100)%Q /\
     (0 <= volume self' <= 1)%Q /\
     sf self' = sf self /\ stream self' = stream self /\
     paused self' = paused self /\
     current_frame self' = current_frame self /\
     finished_callback self' = finished_callback self) /\
  ((float_overflow <= Qabs (inject_Z v / 100))%Q ->
   set_volume self v = Raise OverflowError).
Proof.
  split.
  - intros H. rewrite (set_volume_in_range self v H).
    eexists. split; [reflexivity|]. cbn [volume set_volume_field].
    destruct (np_clip_percent v) as [E B].
    split; [exact E|]. split; [exact B|]. repeat split.
  - intros H. unfold set_volume. rewrite (py_float_out_of_range _ H).
    reflexivity.
Qed.

Lemma set_volume_clamps_witness :
  exists self',
    set_volume example_player 250 = Ok self' /\ (volume self' == 1)%Q.
Proof.
  destruct (proj1 (set_volume_clamps example_player 250))
    as (self' & H & E & _).
  - vm_compute. reflexivity.
  - exists self'. split; [exact H | rewrite E; reflexivity].
Defined.

(** C5 as claimed fails: an integer is not always accepted.  For the
    integer [10 ^ 400] the division [value / 100] of [set_volume] raises
    [OverflowError]. *)
Lemma set_volume_rejects_huge_integer :
  set_volume example_player (10 ^ 400) = Raise OverflowError.
Proof. vm_compute. reflexivity. Qed.

(** ** The real-time callback *)

Lemma callback_paused (self : TrackPlayer) (outdata : block) (frames : nat) :
  paused self = true ->
  callback self outdata frames =
    {| cb_player := self; cb_outdata := np_fill0 outdata;
       cb_started := []; cb_raised := None |}.
Proof. intros H. unfold callback. rewrite H. reflexivity. Qed.

Lemma callback_short_read (self : TrackPlayer) (outdata data : block)
    (frames : nat) (f : SoundFile) :
  paused self = false ->
  sf_read frames (sf self) = Ok (data, f) ->
  length data < frames ->
  callback self outdata frames =
    {| cb_player := set_sf self f;
       cb_outdata := np_scale data (volume self)
                     ++ np_fill0 (drop (length data) outdata);
       cb_started := match finished_callback self with
                     | Some c => [c]
                     | None => []
                     end;
       cb_raised := Some CallbackStop |}.
Proof.
  intros Hp Hr Hlt. unfold callback. rewrite Hp, Hr.
  apply Nat.ltb_lt in Hlt. rewrite Hlt. simpl.
  rewrite <- (np_scale_length data (volume self)) at 1 2.
  rewrite short_block_written, np_scale_length. reflexivity.
Qed.

Lemma callback_full_read (self : TrackPlayer) (outdata data : block)
    (frames : nat) (f : SoundFile) :
  paused self = false ->
  sf_read frames (sf self) = Ok (data, f) ->
  frames <= length data ->
  length outdata = frames ->
  callback self outdata frames =
    {| cb_player := set_current_frame (set_sf self f) (sf_pos f);
       cb_outdata := np_scale data (volume self);
       cb_started := [];
       cb_raised := None |}.
Proof.
  intros Hp Hr Hge Hout. unfold callback. rewrite Hp, Hr.
  assert ((length data <? frames) = false) as -> by (apply Nat.ltb_ge; exact Hge).
  destruct (sf_read_length _ _ _ _ Hr) as (Hlen & _ & _ & Hopen & _).
  simpl. unfold sf_tell. rewrite Hopen.
  rewrite full_block_written; [reflexivity|].
  rewrite np_scale_length. lia.
Qed.

(** While the player is paused the audio subsystem gets silence and the
    player does not change, whatever the number of requests. *)
Lemma callbacks_paused (self : TrackPlayer) (reqs : list (block * nat)) :
  paused self = true ->
  fst (callbacks self reqs) = self /\
  snd (callbacks self reqs) = map (fun rq => np_fill0 (fst rq)) reqs.
Proof.
  intros Hp. induction reqs as [|[outdata frames] reqs [IH1 IH2]]; simpl.
  - split; reflexivity.
  - rewrite (callback_paused _ _ _ Hp). simpl.
    rewrite IH1, IH2. split; reflexivity.
Qed.

Lemma resume_pause (self : TrackPlayer) : resume (pause self) = resume self.
Proof. reflexivity. Qed.

Lemma pause_resume_pairs_state (self : TrackPlayer)
    (phases : list (list (block * nat))) :
  fst (pause_resume_pairs self phases)
  = match phases with [] => self | _ :: _ => resume self end /\
  Forall silent (snd (pause_resume_pairs self phases)).
Proof.
  revert self. induction phases as [|reqs phases IH]; intros self; simpl.
  - split; [reflexivity | constructor].
  - destruct (callbacks_paused (pause self) reqs eq_refl) as [E1 E2].
    rewrite E1, E2, resume_pause.
    destruct (IH (resume self)) as [IH1 IH2]. rewrite IH1. split.
    + destruct phases; reflexivity.
    + apply Forall_app. split; [|exact IH2].
      apply Forall_map. apply Forall_forall. intros rq _. simpl.
      apply np_fill0_silent.
Qed.

(** C3: whenever the paused flag is set, one invocation of the callback
    returns normally with the output block filled with silence (of the
    shape of the block), having neither read from the source nor changed
    the read cursor (the player is returned as it was, nothing is started);
    so any number of callbacks while paused leaves the player as it was,
    and after any number of pause()/resume() pairs the reader and the read
    cursor are exactly where they were: playback resumes from there. *)
Theorem paused_callback_freezes_cursor (self : TrackPlayer) (outdata : block)
    (frames : nat) (other : TrackPlayer) (phases : list (list (block * nat))) :
  paused self = true ->
  (callback self outdata frames =
     {| cb_player := self; cb_outdata := np_fill0 outdata;
        cb_started := []; cb_raised := None |} /\
   silent (np_fill0 outdata) /\ same_shape (np_fill0 outdata) outdata) /\
  (forall reqs,
     fst (callbacks self reqs) = self /\
     Forall silent (snd (callbacks self reqs)) /\
     length (snd (callbacks self reqs)) = length reqs) /\
  (sf (fst (pause_resume_pairs other phases)) = sf other /\
   current_frame (fst (pause_resume_pairs other phases)) = current_frame other /\
   Forall silent (snd (pause_resume_pairs other phases)) /\
   forall out n,
     callback (fst (pause_resume_pairs other phases)) out n
     = callback (match phases with [] => other | _ :: _ => resume other end) out n).
Proof.
  intros Hp. split; [|split].
  - split; [apply callback_paused; exact Hp|].
    split; [apply np_fill0_silent | apply np_fill0_same_shape].
  - intros reqs. destruct (callbacks_paused self reqs Hp) as [E1 E2].
    rewrite E1, E2. split; [reflexivity|]. split.
    + apply Forall_map. apply Forall_forall. intros rq _. apply np_fill0_silent.
    + apply length_map.
  - destruct (pause_resume_pairs_state other phases) as [E S].
    rewrite E. repeat split; try exact S; destruct phases; reflexivity.
Qed.

Lemma paused_callback_freezes_cursor_witness :
  paused (pause example_player) = true /\
  sf (fst (pause_resume_pairs example_player
             [[(example_block, blocksize)]; []; [(example_block, blocksize)]]))
  = sf example_player.
Proof.
  split; [reflexivity|].
  apply (paused_callback_freezes_cursor (pause example_player) example_block
           blocksize example_player
           [[(example_block, blocksize)]; []; [(example_block, blocksize)]]).
  reflexivity.
Defined.

(** A full block moves the read cursor to the reader's new position. *)
Lemma callback_full_read_cursor (self : TrackPlayer) (outdata data : block)
    (frames : nat) (f : SoundFile) :
  paused self = false ->
  sf_read frames (sf self) = Ok (data, f) ->
  frames <= length data ->
  length outdata = frames ->
  sf_tell (sf (cb_player (callback self outdata frames)))
  = Ok (current_frame (cb_player (callback self outdata frames))).
Proof.
  intros Hp Hr Hge Hout.
  rewrite (callback_full_read _ _ _ _ _ Hp Hr Hge Hout). simpl.
  destruct (sf_read_length _ _ _ _ Hr) as (_ & _ & _ & Hopen & _).
  unfold sf_tell. rewrite Hopen. reflexivity.
Qed.

(** A short block leaves the read cursor where it was, while the reader
    has moved to the end of what it supplied. *)
Lemma callback_short_read_cursor (self : TrackPlayer) (outdata data : block)
    (frames : nat) (f : SoundFile) :
  paused self = false ->
  sf_read frames (sf self) = Ok (data, f) ->
  length data < frames ->
  current_frame (cb_player (callback self outdata frames)) = current_frame self /\
  sf_tell (sf (cb_player (callback self outdata frames)))
  = Ok (sf_pos (sf self) + length data).
Proof.
  intros Hp Hr Hlt. rewrite (callback_short_read _ _ _ _ _ Hp Hr Hlt). simpl.
  destruct (sf_read_length _ _ _ _ Hr) as (_ & Hpos & _ & Hopen & _).
  unfold sf_tell. rewrite Hopen, Hpos. split; reflexivity.
Qed.

(** The callback never moves the read cursor backwards, as long as the
    cursor is not ahead of the reader. *)
Lemma callback_cursor_monotone (self : TrackPlayer) (outdata : block) (frames : nat) :
  current_frame self <= sf_pos (sf self) ->
  current_frame self <= current_frame (cb_player (callback self outdata frames)) /\
  current_frame (cb_player (callback self outdata frames))
  <= sf_pos (sf (cb_player (callback self outdata frames))).
Proof.
  intros Hinv. unfold callback.
  destruct (paused self); simpl; [lia|].
  destruct (sf_read frames (sf self)) as [[data f]|e] eqn:Hr; simpl; [|lia].
  destruct (sf_read_length _ _ _ _ Hr) as (_ & Hpos & _ & Hopen & _).
  destruct (length data <? frames); simpl; [lia|].
  unfold sf_tell. rewrite Hopen. simpl. lia.
Qed.

(** C2: the read cursor after a non-paused callback, against the reader's
    position.  On a three-frame file read from the start with the block
    size of the program (2048), the reader supplies three frames and is
    left at frame 3, the callback leaves with [CallbackStop], and the read
    cursor is still 0: the assignment [self.current_frame = self.sf.tell()]
    is not reached on the short-read path. *)
Theorem callback_short_read_cursor_stale :
  let r := callback example_player example_block blocksize in
  paused example_player = false /\
  cb_raised r = Some CallbackStop /\
  sf_tell (sf (cb_player r)) = Ok 3 /\
  current_frame (cb_player r) = 0.
Proof. vm_compute. repeat split. Qed.

(** ** Stop and seek on a player with an open reader *)

Lemma sf_seek_in_range (frame : Z) (f : SoundFile) :
  sf_closed f = false ->
  (0 <= frame <= Z.of_nat (sf_len f))%Z ->
  sf_seek frame f = Ok (sf_set_pos f (Z.to_nat frame)).
Proof.
  intros Hc [H0 H1]. unfold sf_seek. rewrite Hc.
  assert ((frame <? 0)%Z = false) as -> by (apply Z.ltb_ge; exact H0).
  assert ((Z.of_nat (sf_len f) <? frame)%Z = false) as ->
    by (apply Z.ltb_ge; exact H1).
  reflexivity.
Qed.

Lemma stop_open (self : TrackPlayer) :
  sf_closed (sf self) = false ->
  stop self =
    Ok {| sf := sf_set_pos (sf self) 0; samplerate := samplerate self;
          channels := channels self; stream := None; volume := volume self;
          paused := paused self; current_frame := 0;
          finished_callback := finished_callback self |}.
Proof.
  intros Hc. unfold stop.
  assert (sf_seek 0 (sf self) = Ok (sf_set_pos (sf self) 0)) as Hs.
  { apply (sf_seek_in_range 0); [exact Hc | lia]. }
  destruct (stream self) eqn:Hst; simpl; rewrite Hs; simpl;
    unfold set_current_frame, set_sf, set_stream; simpl;
    rewrite ?Hst; reflexivity.
Qed.

Lemma np_clip_int_range (x hi : Z) :
  (0 <= hi)%Z -> (0 <= np_clip_int x 0 hi <= hi)%Z.
Proof. unfold np_clip_int. lia. Qed.

(** On an open reader [seek] fails only where [int(seconds * samplerate)]
    does; otherwise reader and cursor go to the clamped frame. *)
Lemma seek_open (self : TrackPlayer) (seconds : float64) :
  sf_closed (sf self) = false ->
  seek self seconds =
    let! frame0 := seek_frame self seconds in
    let frame := np_clip_int frame0 0 (Z.of_nat (sf_len (sf self))) in
    Ok {| sf := sf_set_pos (sf self) (Z.to_nat frame);
          samplerate := samplerate self; channels := channels self;
          stream := stream self; volume := volume self;
          paused := paused self; current_frame := Z.to_nat frame;
          finished_callback := finished_callback self |}.
Proof.
  intros Hc. unfold seek.
  destruct (seek_frame self seconds) as [frame0|e]; cbn [rbind]; [|reflexivity].
  rewrite (sf_seek_in_range _ (sf self) Hc)
    by (apply np_clip_int_range; lia).
  simpl. unfold sf_tell. simpl. rewrite Hc. reflexivity.
Qed.

(** ** Well-formed sessions *)

Lemma track_ok_set_player (t : Track) (pl : TrackPlayer) :
  track_ok t ->
  sf_closed (sf pl) = false ->
  samplerate pl = samplerate (player t) ->
  finished_callback pl = finished_callback (player t) ->
  current_frame pl <= sf_pos (sf pl) ->
  track_ok (set_player t pl).
Proof.
  intros (H1 & H2 & H3 & _) Hc Hs Hf Hcur. unfold track_ok. simpl.
  rewrite Hs, Hf. auto.
Qed.

Lemma callback_keeps_player (self : TrackPlayer) (outdata : block) (frames : nat) :
  sf_closed (sf self) = false ->
  sf_closed (sf (cb_player (callback self outdata frames))) = false /\
  samplerate (cb_player (callback self outdata frames)) = samplerate self /\
  finished_callback (cb_player (callback self outdata frames))
  = finished_callback self /\
  stream (cb_player (callback self outdata frames)) = stream self.
Proof.
  intros Hc. unfold callback.
  destruct (paused self); simpl; [auto|].
  destruct (sf_read frames (sf self)) as [[data f]|e] eqn:Hr; simpl; [|auto].
  destruct (sf_read_length _ _ _ _ Hr) as (_ & _ & _ & Hopen & _).
  destruct (length data <? frames); simpl; [auto|].
  unfold sf_tell. rewrite Hopen. simpl. auto.
Qed.

Lemma Track_init_ok (fs : gmap string AudioFile) (p : string) (t : Track) :
  Track_init fs p = Ok t ->
  path t = p /\
  sf_closed (sf (player t)) = false /\
  samplerate (player t) <> 0%Z /\
  stream (player t) = None /\
  paused (player t) = false /\
  current_frame (player t) = 0 /\
  sf_pos (sf (player t)) = 0 /\
  (duration_seconds t
   = inject_Z (Z.of_nat (sf_len (sf (player t)))) / inject_Z (samplerate (player t)))%Q.
Proof.
  unfold Track_init, TrackPlayer_init, SoundFile_open, py_truediv.
  destruct (fs !! p) as [af|]; simpl; [|discriminate].
  unfold sf_len. simpl.
  destruct (Z.eqb (af_samplerate af) 0) eqn:E; simpl; [discriminate|].
  intros H. injection H as <-. simpl.
  apply Z.eqb_neq in E. repeat split; auto.
Qed.

Lemma wf_set_object (self : MusicPlayer) (id : nat) (t : Track) :
  wf self -> track_ok t -> wf (set_object self id t).
Proof.
  intros (Hcur & Hall & Hvol) Hok. split; [|split]; simpl.
  - intros i Hi. rewrite length_insert. apply Hcur. exact Hi.
  - apply Forall_insert; assumption.
  - exact Hvol.
Qed.

Lemma wf_set_current_track_None (self : MusicPlayer) :
  wf self -> wf (set_current_track self None).
Proof. intros [_ Hall]. split; simpl; [discriminate | exact Hall]. Qed.

Lemma wf_volume (self : MusicPlayer) :
  wf self -> (0 <= current_volume self <= 100)%Z.
Proof. intros (_ & _ & Hvol). exact Hvol. Qed.

Lemma wf_lookup (self : MusicPlayer) (id : nat) (t : Track) :
  wf self -> objects self !! id = Some t -> track_ok t.
Proof.
  intros (_ & Hall & _) Hl. rewrite Forall_lookup in Hall. exact (Hall id t Hl).
Qed.

#[local] Hint Resolve wf_set_object wf_set_current_track_None wf_lookup : session.

Lemma Track_stop_ok (t : Track) :
  track_ok t ->
  exists t', Track_stop t = Ok t' /\ track_ok t' /\
             path t' = path t /\
             stream (player t') = None /\
             sf_pos (sf (player t')) = 0 /\
             current_frame (player t') = 0 /\
             sf_closed (sf (player t')) = false /\
             Track_stop t' = Ok t'.
Proof.
  intros Hok. pose proof Hok as (Hc & Hs & Hf & _).
  unfold Track_stop. rewrite (stop_open _ Hc). simpl.
  eexists. split; [reflexivity|].
  split; [apply track_ok_set_player; auto|].
  repeat split; auto.
  rewrite stop_open by exact Hc. reflexivity.
Qed.

Lemma stop_current_ok (self : MusicPlayer) :
  wf self ->
  exists self', stop_current self = Ok self' /\ wf self' /\
    current_track self' = None /\
    threads self' = threads self /\ stdout self' = stdout self /\
    music_dir self' = music_dir self /\ current_volume self' = current_volume self /\
    length (objects self') = length (objects self) /\
    (forall id t, current_track self = Some id -> objects self !! id = Some t ->
       exists t', Track_stop t = Ok t' /\ objects self' = <[id := t']> (objects self)) /\
    (current_track self = None -> self' = self).
Proof.
  intros Hwf. unfold stop_current.
  destruct (current_track self) as [id|] eqn:Hcur.
  - destruct (objects self !! id) as [t|] eqn:Hl.
    + destruct (Track_stop_ok t (wf_lookup _ _ _ Hwf Hl)) as (t' & Hs & Hok' & _).
      rewrite Hs. simpl. eexists. split; [reflexivity|].
      split; [apply wf_set_current_track_None, wf_set_object; assumption|].
      simpl. rewrite length_insert. repeat split; auto; try discriminate.
      intros id0 t0 Heq Hl0. injection Heq as <-. rewrite Hl in Hl0.
      injection Hl0 as <-. exists t'. auto.
    + destruct Hwf as [Hlt _]. specialize (Hlt id Hcur).
      apply lookup_ge_None in Hl. lia.
  - exists self. split; [reflexivity|]. split; [exact Hwf|].
    repeat split; auto; discriminate.
Qed.

(** ** Starting a track *)

Lemma start_track_spec (self : MusicPlayer) (p : string) :
  (0 <= current_volume self <= 100)%Z ->
  match Track_init (music_dir self) p with
  | Raise e => start_track self p = Raise e
  | Ok t0 =>
      exists t,
        start_track self p =
          Ok (set_current_track
                (start_thread (set_objects self (objects self ++ [t]))
                              (target_play (length (objects self))))
                (Some (length (objects self)))) /\
        track_ok t /\ path t = p /\
        stream (player t) = None /\
        paused (player t) = false /\
        current_frame (player t) = 0 /\
        volume (player t)
        = np_clip (inject_Z (current_volume self) / 100) 0 1 /\
        finished_callback (player t) = Some (on_finished p)
  end.
Proof.
  intros Hvol. unfold start_track.
  destruct (Track_init (music_dir self) p) as [t0|e] eqn:Hi; simpl; [|reflexivity].
  destruct (Track_init_ok _ _ _ Hi) as (Hp & Hc & Hs & Hst & Hpa & Hcf & _).
  rewrite (Track_set_volume_slider _ _ Hvol). cbn [rbind].
  eexists. split; [reflexivity|].
  unfold track_ok. simpl. rewrite Hp, Hcf. repeat split; auto. lia.
Qed.

Lemma play_track_spec (self : MusicPlayer) (p : string) :
  wf self ->
  exists self1,
    stop_current self = Ok self1 /\
    play_track self p =
      Ok (match start_track self1 p with
          | Ok self2 => self2
          | Raise e => print self1 (failed_to_play p e)
          end) /\
    wf (match start_track self1 p with
        | Ok self2 => self2
        | Raise e => print self1 (failed_to_play p e)
        end).
Proof.
  intros Hwf.
  destruct (stop_current_ok self Hwf) as (self1 & Hs & Hwf1 & _).
  exists self1. split; [exact Hs|]. unfold play_track. rewrite Hs. simpl.
  split; [destruct (start_track self1 p); reflexivity|].
  pose proof (start_track_spec self1 p (wf_volume _ Hwf1)) as Hst.
  destruct (Track_init (music_dir self1) p) as [t0|e].
  - destruct Hst as (t & -> & Hok & _). destruct Hwf1 as (_ & Hall & Hvol).
    split; [|split]; simpl.
    + intros id Hid. injection Hid as <-. rewrite length_app. simpl. lia.
    + apply Forall_app. split; [exact Hall | constructor; [exact Hok | constructor]].
    + exact Hvol.
  - rewrite Hst. destruct Hwf1 as (Hcur & Hall & Hvol).
    split; [|split]; simpl; assumption.
Qed.

Lemma play_track_total (self : MusicPlayer) (p : string) :
  wf self -> exists self', play_track self p = Ok self' /\ wf self'.
Proof.
  intros Hwf. destruct (play_track_spec self p Hwf) as (self1 & _ & Hp & Hwf').
  eexists. split; [exact Hp | exact Hwf'].
Qed.

(** ** The completion handler *)

Lemma on_track_finished_absent (self : MusicPlayer) (p : string) :
  loop_mode self = "list" -> p ∉ track_list self ->
  on_track_finished self p = Ok self.
Proof.
  intros Hm Hn. unfold on_track_finished. rewrite Hm. simpl.
  rewrite (py_index_absent _ _ Hn). reflexivity.
Qed.

Lemma py_mod_next (idx len : nat) :
  idx < len ->
  py_mod (idx + 1) len = Ok (if idx + 1 <? len then idx + 1 else 0).
Proof.
  intros Hlt. unfold py_mod. destruct len as [|n]; [lia|]. f_equal.
  destruct (idx + 1 <? S n) eqn:E.
  - apply Nat.ltb_lt in E. apply Nat.mod_small. exact E.
  - apply Nat.ltb_ge in E. assert (idx + 1 = S n) as -> by lia.
    apply Nat.Div0.mod_same.
Qed.

Lemma next_index_in_range (idx len : nat) :
  idx < len -> (if idx + 1 <? len then idx + 1 else 0) < len.
Proof.
  intros Hlt. destruct (idx + 1 <? len) eqn:E; [|lia].
  apply Nat.ltb_lt in E. exact E.
Qed.

Lemma try_except_play_track (self : MusicPlayer) (p : string) (h : result MusicPlayer) :
  wf self -> try_except (play_track self p) ValueError h = play_track self p.
Proof.
  intros Hwf. destruct (play_track_total self p Hwf) as (self' & -> & _).
  reflexivity.
Qed.

Lemma on_track_finished_present (self : MusicPlayer) (p : string) (idx : nat) :
  wf self -> loop_mode self = "list" ->
  py_index (track_list self) p = Ok idx ->
  exists next,
    track_list self !! (if idx + 1 <? length (track_list self) then idx + 1 else 0)
    = Some next /\
    on_track_finished self p = play_track self next.
Proof.
  intros Hwf Hm Hi. unfold on_track_finished. rewrite Hm, Hi. simpl.
  destruct (py_index_lookup _ _ _ Hi) as [Hl _].
  pose proof (lookup_lt_Some _ _ _ Hl) as Hlt.
  rewrite (py_mod_next _ _ Hlt). simpl.
  destruct (lookup_lt_is_Some_2 _ _ (next_index_in_range _ _ Hlt)) as [next Hnext].
  exists next. split; [exact Hnext|].
  unfold py_getitem. rewrite Hnext. simpl.
  apply try_except_play_track. exact Hwf.
Qed.

Lemma py_index_raises (l : list string) (x : string) (e : exn) :
  py_index l x = Raise e -> e = ValueError.
Proof.
  revert e. induction l as [|y l IH]; simpl; intros e Hi.
  - congruence.
  - destruct (String.eqb y x); [discriminate|].
    destruct (py_index l x) as [k|e']; simpl in Hi; [discriminate|].
    injection Hi as <-. apply IH. reflexivity.
Qed.

Lemma on_track_finished_total (self : MusicPlayer) (p : string) :
  wf self -> exists self', on_track_finished self p = Ok self' /\ wf self'.
Proof.
  intros Hwf.
  destruct (String.eqb (loop_mode self) "song") eqn:E1.
  - unfold on_track_finished. rewrite E1. apply play_track_total. exact Hwf.
  - destruct (String.eqb (loop_mode self) "list") eqn:E2.
    + pose proof E2 as Hm. apply String.eqb_eq in Hm.
      destruct (py_index (track_list self) p) as [idx|e] eqn:Hi.
      * destruct (on_track_finished_present self p idx Hwf Hm Hi)
          as (next & _ & ->).
        apply play_track_total. exact Hwf.
      * unfold on_track_finished. rewrite E1, E2, Hi.
        rewrite (py_index_raises _ _ _ Hi). simpl.
        exists self. split; [reflexivity | exact Hwf].
    + unfold on_track_finished. rewrite E1, E2.
      eexists. split; [reflexivity|]. auto with session.
Qed.

(** ** Every reachable session is well formed *)

Lemma wf_ext (self self' : MusicPlayer) :
  current_track self' = current_track self ->
  objects self' = objects self ->
  current_volume self' = current_volume self ->
  wf self -> wf self'.
Proof.
  intros Hc Ho Hv (H1 & H2 & H3).
  split; [|split]; rewrite ?Hc, ?Ho, ?Hv; assumption.
Qed.

Lemma track_ok_same_reader (t : Track) (pl : TrackPlayer) :
  track_ok t ->
  sf pl = sf (player t) ->
  samplerate pl = samplerate (player t) ->
  finished_callback pl = finished_callback (player t) ->
  current_frame pl = current_frame (player t) ->
  track_ok (set_player t pl).
Proof.
  intros Hok Hsf Hs Hf Hcur. apply track_ok_set_player; auto.
  - rewrite Hsf. apply Hok.
  - rewrite Hsf, Hcur. apply Hok.
Qed.

Lemma Track_seek_ok (t t' : Track) (seconds : float64) :
  track_ok t -> Track_seek t seconds = Ok t' -> track_ok t'.
Proof.
  intros Hok. pose proof Hok as (Hc & _). unfold Track_seek.
  rewrite (seek_open _ seconds Hc).
  destruct (seek_frame (player t) seconds) as [frame0|e]; cbn [rbind];
    [|discriminate].
  returned. apply track_ok_set_player; auto.
Qed.

Lemma toggle_play_wf (self : MusicPlayer) (p : string) (self' : MusicPlayer) :
  wf self -> toggle_play self p = Ok self' -> wf self'.
Proof.
  intros Hwf. unfold toggle_play.
  assert (forall r, play_track self p = Ok r -> wf r) as Hplay.
  { intros r Hr. destruct (play_track_total self p Hwf) as (r' & Hr' & Hw).
    congruence. }
  destruct (current_track self) as [id|]; [|apply Hplay].
  destruct (objects self !! id) as [t|] eqn:Hl; [|apply Hplay].
  destruct (String.eqb (path t) p); [|apply Hplay].
  pose proof (wf_lookup _ _ _ Hwf Hl) as Hok.
  destruct (paused (player t)); returned;
    apply wf_set_object; auto; apply track_ok_same_reader; auto.
Qed.

(** A move of the volume slider never raises. *)
Lemma on_volume_change_wf (self : MusicPlayer) (v : Z) :
  wf self -> (0 <= v <= 100)%Z ->
  exists self', on_volume_change self v = Ok self' /\ wf self'.
Proof.
  intros Hwf Hv. unfold on_volume_change. simpl.
  assert (wf (set_current_volume self v)) as Hwf1.
  { destruct Hwf as (H1 & H2 & _). split; [|split]; simpl; assumption. }
  destruct (current_track self) as [id|]; [|eauto].
  destruct (objects self !! id) as [t|] eqn:Hl; [|eauto].
  rewrite (Track_set_volume_slider _ _ Hv). cbn [rbind].
  eexists. split; [reflexivity|].
  apply wf_set_object; [exact Hwf1|].
  apply track_ok_same_reader; eauto with session.
Qed.

Lemma seek_track_wf (self : MusicPlayer) (v : Z) (self' : MusicPlayer) :
  wf self -> seek_track self v = Ok self' -> wf self'.
Proof.
  intros Hwf. unfold seek_track.
  destruct (current_track self) as [id|]; [|returned; exact Hwf].
  destruct (objects self !! id) as [t|] eqn:Hl; [|returned; exact Hwf].
  destruct (py_float (inject_Z v / 1000)) as [fraction|x]; cbn [rbind];
    [|discriminate].
  destruct (Track_seek t _) as [t'|x] eqn:Hs; cbn [rbind]; [|discriminate].
  returned. apply wf_set_object; [exact Hwf|].
  exact (Track_seek_ok _ _ _ (wf_lookup _ _ _ Hwf Hl) Hs).
Qed.

Lemma run_thread_wf (self : MusicPlayer) (k : nat) :
  wf self -> exists self', run_thread self k = Ok self' /\ wf self'.
Proof.
  intros Hwf. unfold run_thread.
  destruct (threads self !! k) as [tg|]; [|eauto].
  assert (wf (set_threads self (delete k (threads self)))) as Hwf1
    by (apply (wf_ext self); auto).
  destruct tg as [id|[p]]; simpl.
  - destruct (objects self !! id) as [t|] eqn:Hl; [|eauto].
    eexists. split; [reflexivity|]. apply wf_set_object; [exact Hwf1|].
    apply track_ok_same_reader; eauto with session.
  - apply on_track_finished_total. exact Hwf1.
Qed.

Lemma audio_callback_wf (self : MusicPlayer) (id : nat) (outdata : block)
    (frames : nat) :
  wf self -> wf (fst (audio_callback self id outdata frames)).
Proof.
  intros Hwf. unfold audio_callback.
  destruct (objects self !! id) as [t|] eqn:Hl; [|exact Hwf].
  destruct (stream (player t)) as [[|]|]; try exact Hwf. simpl.
  pose proof (wf_lookup _ _ _ Hwf Hl) as Hok.
  pose proof Hok as (Hc & _ & _ & Hcur).
  destruct (callback_keeps_player (player t) outdata frames Hc)
    as (Hc' & Hs' & Hf' & _).
  destruct (callback_cursor_monotone (player t) outdata frames Hcur) as [_ Hcur'].
  eapply wf_ext; [| | |apply (wf_set_object self id); [exact Hwf|]];
    [reflexivity | reflexivity | reflexivity |].
  apply track_ok_set_player; auto;
    destruct (cb_raised (callback (player t) outdata frames)); auto.
Qed.

Lemma step_wf (self : MusicPlayer) (e : Event) (self' : MusicPlayer) :
  wf self -> step self e = Ok self' -> wf self'.
Proof.
  intros Hwf. destruct e as [p|v|v|m|scan|fs|k|id outdata frames]; simpl.
  - apply toggle_play_wf. exact Hwf.
  - destruct (on_volume_change_wf self (slider_bound 0 100 v) Hwf
                (slider_bound_range 0 100 v ltac:(lia))) as (r & -> & Hr).
    returned. exact Hr.
  - apply seek_track_wf. exact Hwf.
  - returned. apply (wf_ext self); auto.
  - returned. apply (wf_ext self); auto.
  - returned. apply (wf_ext self); auto.
  - destruct (run_thread_wf self k Hwf) as (r & -> & Hr). returned. exact Hr.
  - returned. apply audio_callback_wf. exact Hwf.
Qed.

Lemma reachable_wf (self : MusicPlayer) : reachable self -> wf self.
Proof.
  induction 1 as [fs scan|self e self' _ IH Hstep].
  - split; [|split]; simpl; [discriminate | constructor | lia].
  - exact (step_wf _ _ _ IH Hstep).
Qed.

Lemma reachable_run_events (self : MusicPlayer) (es : list Event) (self' : MusicPlayer) :
  reachable self -> run_events self es = Ok self' -> reachable self'.
Proof.
  revert self. induction es as [|e es IH]; intros self Hr; simpl.
  - intros H. injection H as <-. exact Hr.
  - destruct (step self e) as [self1|x] eqn:Hs; simpl; [|discriminate].
    apply IH. exact (reach_step _ _ _ Hr Hs).
Qed.

Lemma session_after_reachable (es : list Event) : reachable (session_after es).
Proof.
  unfold session_after.
  destruct (run_events (MusicPlayer_init example_dir ["A"; "B"; "C"]) es)
    as [self|x] eqn:H.
  - exact (reachable_run_events _ _ _ (reach_init _ _) H).
  - apply reach_init.
Qed.

(** In a session no request of the audio subsystem moves a read cursor
    backwards. *)
Lemma audio_callback_cursor_monotone (self : MusicPlayer) (id : nat)
    (outdata : block) (frames : nat) (j : nat) (t t' : Track) :
  reachable self ->
  objects self !! j = Some t ->
  objects (fst (audio_callback self id outdata frames)) !! j = Some t' ->
  current_frame (player t) <= current_frame (player t').
Proof.
  intros Hreach Hj. pose proof (reachable_wf _ Hreach) as Hwf.
  pose proof (wf_lookup _ _ _ Hwf Hj) as (_ & _ & _ & Hcur).
  unfold audio_callback.
  destruct (objects self !! id) as [ti|] eqn:Hl;
    [|simpl; rewrite Hj; returned; lia].
  destruct (stream (player ti)) as [[|]|];
    try (simpl; rewrite Hj; returned; lia).
  simpl. destruct (decide (id = j)) as [->|Hne].
  - rewrite list_lookup_insert_eq by exact (lookup_lt_Some _ _ _ Hj).
    rewrite Hj in Hl. injection Hl as <-. returned. simpl.
    destruct (callback_cursor_monotone (player t) outdata frames Hcur) as [Hmono _].
    destruct (cb_raised (callback (player t) outdata frames)); exact Hmono.
  - rewrite list_lookup_insert_ne by exact Hne. rewrite Hj. returned. lia.
Qed.

(** ** End of stream *)

(** C1: in a session, when the running, non-paused engine of a track asks
    its reader for a block and gets fewer frames than requested, the block
    handed to the device starts with the frames read, each sample scaled by
    the volume, and is zero from there to its end; the completion
    notification of the track is started as a thread, exactly one, and is
    not run by the callback (the session's current track, its output and
    its other objects are as before); the callback leaves with
    [CallbackStop], the stream is finished, and no later request reaches
    the callback of this stream, so the notification is not repeated. *)
Theorem end_of_stream_callback (self : MusicPlayer) (id : nat) (t : Track)
    (outdata data : block) (frames : nat) (f : SoundFile) :
  reachable self ->
  objects self !! id = Some t ->
  stream (player t) = Some Active ->
  paused (player t) = false ->
  sf_read frames (sf (player t)) = Ok (data, f) ->
  length data < frames ->
  length outdata = frames ->
  let r := callback (player t) outdata frames in
  let self' := fst (audio_callback self id outdata frames) in
  (snd (audio_callback self id outdata frames) = cb_outdata r /\
   length (cb_outdata r) = frames /\
   (forall i row, data !! i = Some row ->
      cb_outdata r !! i = Some (map (fun x => (x * volume (player t))%Q) row)) /\
   (forall i, length data <= i -> i < frames ->
      exists old, outdata !! i = Some old /\
                  cb_outdata r !! i = Some (map (fun _ => 0%Q) old))) /\
  (cb_started r = [on_finished (path t)] /\
   threads self' = threads self ++ [target_call (on_finished (path t))] /\
   current_track self' = current_track self /\
   stdout self' = stdout self /\
   length (objects self') = length (objects self) /\
   (forall j, j <> id -> objects self' !! j = objects self !! j)) /\
  (cb_raised r = Some CallbackStop /\
   (exists t', objects self' !! id = Some t' /\
               stream (player t') = Some Finished /\
               sf (player t') = f) /\
   (forall out n, audio_callback self' id out n = (self', out))).
Proof.
  intros Hreach Hl Hst Hp Hr Hlt Hout r self'.
  pose proof (wf_lookup _ _ _ (reachable_wf _ Hreach) Hl) as (_ & _ & Hf & _).
  pose proof (lookup_lt_Some _ _ _ Hl) as Hid.
  assert (r = {| cb_player := set_sf (player t) f;
                 cb_outdata := np_scale data (volume (player t))
                               ++ np_fill0 (drop (length data) outdata);
                 cb_started := [on_finished (path t)];
                 cb_raised := Some CallbackStop |}) as Er.
  { unfold r. rewrite (callback_short_read _ _ _ _ _ Hp Hr Hlt), Hf. reflexivity. }
  assert (audio_callback self id outdata frames
          = (set_threads
               (set_object self id
                  (set_player t (set_stream (set_sf (player t) f) (Some Finished))))
               (threads self ++ [target_call (on_finished (path t))]),
             cb_outdata r)) as Ea.
  { unfold audio_callback. rewrite Hl, Hst. fold r. rewrite Er. reflexivity. }
  unfold self'. rewrite Ea. clear self' Ea. rewrite Er.
  cbn [fst snd cb_outdata cb_started cb_raised].
  split; [|split].
  - split; [reflexivity|]. split; [|split].
    + rewrite length_app, np_scale_length, np_fill0_length, length_drop. lia.
    + intros i row Hi. rewrite lookup_app_l.
      * rewrite np_scale_lookup, Hi. reflexivity.
      * rewrite np_scale_length. exact (lookup_lt_Some _ _ _ Hi).
    + intros i Hge Hi.
      assert (i < length outdata) as Hio by lia.
      destruct (lookup_lt_is_Some_2 _ _ Hio) as [old Hold].
      exists old. split; [exact Hold|].
      rewrite lookup_app_r by (rewrite np_scale_length; exact Hge).
      rewrite np_scale_length, np_fill0_lookup, lookup_drop.
      replace (length data + (i - length data)) with i by lia.
      rewrite Hold. reflexivity.
  - repeat split; auto.
    + simpl. apply length_insert.
    + intros j Hj. simpl. apply list_lookup_insert_ne. congruence.
  - split; [reflexivity|]. split.
    + eexists. split; [simpl; apply list_lookup_insert_eq; exact Hid|].
      split; reflexivity.
    + intros out n. unfold audio_callback.
      cbn [objects set_threads set_object set_objects].
      rewrite list_lookup_insert_eq by exact Hid. reflexivity.
Qed.

Lemma end_of_stream_callback_witness :
  threads (fst (audio_callback example_session 0 example_block blocksize))
  = threads example_session ++ [target_call (on_finished "C")].
Proof.
  refine (proj1 (proj2 (proj1 (proj2
    (end_of_stream_callback example_session 0 example_track example_block
       three_frames blocksize
       (sf_set_pos (sf (player example_track)) 3) _ _ _ _ _ _ _))))).
  - apply session_after_reachable.
  - vm_compute. reflexivity.
  - reflexivity.
  - reflexivity.
  - vm_compute. reflexivity.
  - vm_compute. lia.
  - vm_compute. reflexivity.
Defined.

(** ** Seek *)

Lemma inject_Z_le_inv (a b : Z) : (inject_Z a <= inject_Z b)%Q -> (a <= b)%Z.
Proof. rewrite <- Zle_Qle. auto. Qed.

(** C4 as claimed fails: [seek] can raise.  On a track of 44100 frames a
    second, for [seconds = 2 ^ 1010] (the float [2.0 ** 1010], about
    [1.1e304]) the float product [seconds * self.samplerate] is infinite
    and [int] of it raises [OverflowError]. *)
Lemma seek_raises_on_overflow :
  round64 (2 ^ 1010) = Finite (2 ^ 1010)%Q /\
  py_fmul (Finite (2 ^ 1010)) (Finite 44100) = Infinite false /\
  Track_seek example_track (Finite (2 ^ 1010)) = Raise OverflowError.
Proof. vm_compute. repeat split. Qed.

(** The product of [seek] for a sample rate that is a float. *)
Lemma seek_frame_product (self : TrackPlayer) (seconds : Q) :
  (Z.abs (samplerate self) < 2 ^ 53)%Z ->
  exists rate,
    (rate == inject_Z (samplerate self))%Q /\
    seek_frame self (Finite seconds) = py_int_float (round64 (seconds * rate)).
Proof.
  intros Hsr. unfold seek_frame, py_float.
  destruct (round64_integer _ Hsr) as (rate & -> & Erate).
  exists rate. split; [exact Erate | reflexivity].
Qed.

Lemma seek_frame_finite (self : TrackPlayer) (seconds : Q) :
  (Z.abs (samplerate self) < 2 ^ 53)%Z ->
  (Qabs (seconds * inject_Z (samplerate self)) < float_overflow)%Q ->
  exists frame, seek_frame self (Finite seconds) = Ok frame.
Proof.
  intros Hsr Hx. destruct (seek_frame_product self seconds Hsr) as (rate & E & ->).
  rewrite <- E in Hx. destruct (round64_finite _ Hx) as [r ->].
  eexists. reflexivity.
Qed.

Lemma seek_frame_overflow (self : TrackPlayer) (seconds : Q) :
  (Z.abs (samplerate self) < 2 ^ 53)%Z ->
  (float_overflow <= Qabs (seconds * inject_Z (samplerate self)))%Q ->
  seek_frame self (Finite seconds) = Raise OverflowError.
Proof.
  intros Hsr Hx. destruct (seek_frame_product self seconds Hsr) as (rate & E & ->).
  rewrite <- E in Hx. rewrite (round64_overflow _ Hx). reflexivity.
Qed.

(** Below [2 ^ 53] the frame of [seek] is less than a frame and a half
    away from the exact product. *)
Lemma seek_frame_near (self : TrackPlayer) (seconds : Q) :
  (Z.abs (samplerate self) < 2 ^ 53)%Z ->
  (Qabs (seconds * inject_Z (samplerate self)) < 2 ^ 53)%Q ->
  exists frame,
    seek_frame self (Finite seconds) = Ok frame /\
    (Qabs (inject_Z frame - seconds * inject_Z (samplerate self)) < 3 # 2)%Q.
Proof.
  intros Hsr Hx. destruct (seek_frame_product self seconds Hsr) as (rate & E & ->).
  assert (seconds * rate == seconds * inject_Z (samplerate self))%Q as Ex
    by (rewrite E; reflexivity).
  rewrite <- Ex in Hx.
  destruct (round64_near _ Hx) as (r & -> & Hr).
  exists (py_int r). split; [reflexivity|].
  pose proof (py_int_near r) as Hi.
  apply Qabs_Qle_condition in Hr. apply Qabs_Qlt_condition in Hi.
  apply (proj2 (Qabs_Qlt_condition _ _)).
  set (x := (seconds * rate)%Q) in *.
  set (y := (seconds * inject_Z (samplerate self))%Q) in *. lra.
Qed.

(** Clamping to an interval that holds [x] brings a frame no further from
    [x]. *)
Lemma np_clip_int_near (frame total : Z) (x b : Q) :
  (0 <= x)%Q -> (x <= inject_Z total)%Q ->
  (Qabs (inject_Z frame - x) < b)%Q ->
  (Qabs (inject_Z (np_clip_int frame 0 total) - x) < b)%Q.
Proof.
  intros H0 H1 Hb. apply Qabs_Qlt_condition in Hb.
  apply (proj2 (Qabs_Qlt_condition _ _)).
  assert (0 <= total)%Z as Htot.
  { apply inject_Z_le_inv. eapply Qle_trans; [exact H0 | exact H1]. }
  unfold np_clip_int.
  destruct (Z.le_gt_cases frame 0) as [Hneg|Hpos].
  - rewrite Z.max_r by lia. rewrite Z.min_l by lia.
    assert (inject_Z frame <= 0)%Q by (unfold Qle; simpl; lia).
    change (inject_Z 0) with 0%Q. lra.
  - rewrite Z.max_l by lia.
    destruct (Z.le_gt_cases frame total) as [Hin|Hout].
    + rewrite Z.min_l by lia. exact Hb.
    + rewrite Z.min_r by lia.
      assert (inject_Z total < inject_Z frame)%Q by (rewrite <- Zlt_Qlt; exact Hout).
      lra.
Qed.

(** C4, as the code has it.  For a track object of a session whose sample
    rate is below [2 ^ 53] and a real number of seconds, the frame offset
    of [seek(seconds)] is [int] of the float product of [seconds] and the
    sample rate.  [seek] returns normally exactly when that product is
    inside the range of a float: then the offset is clamped to
    [0, total_frames] (a negative target becomes 0, a target past the end
    becomes the total) and the reader and the read cursor are both put
    there; the offset is less than a frame and a half away from the exact
    product when that is below [2 ^ 53].  When the product is out of range
    [seek] raises [OverflowError].  For a positive sample rate, fewer than
    [2 ^ 53] frames and [seconds] in [0, duration], [seek] returns and
    [get_position()] right after it is less than a frame time and a half,
    hence less than one callback block time, away from [seconds]. *)
Theorem seek_clamps_within_float_range (self : MusicPlayer) (id : nat) (t : Track)
    (seconds : Q) :
  reachable self ->
  objects self !! id = Some t ->
  let sr := samplerate (player t) in
  let total := Z.of_nat (sf_len (sf (player t))) in
  (Z.abs sr < 2 ^ 53)%Z ->
  ((Qabs (seconds * inject_Z sr) < float_overflow)%Q ->
   exists frame t',
     seek_frame (player t) (Finite seconds) = Ok frame /\
     Track_seek t (Finite seconds) = Ok t' /\
     Z.of_nat (sf_pos (sf (player t'))) = clamp frame 0 total /\
     current_frame (player t') = sf_pos (sf (player t')) /\
     sf_pos (sf (player t')) <= sf_len (sf (player t')) /\
     ((frame < 0)%Z -> sf_pos (sf (player t')) = 0) /\
     ((total < frame)%Z -> sf_pos (sf (player t')) = sf_len (sf (player t))) /\
     ((Qabs (seconds * inject_Z sr) < 2 ^ 53)%Q ->
      (Qabs (inject_Z frame - seconds * inject_Z sr) < 3 # 2)%Q)) /\
  ((float_overflow <= Qabs (seconds * inject_Z sr))%Q ->
   Track_seek t (Finite seconds) = Raise OverflowError) /\
  ((0 < sr)%Z -> (total < 2 ^ 53)%Z ->
   (0 <= seconds)%Q -> (seconds <= inject_Z total / inject_Z sr)%Q ->
   exists t' pos,
     Track_seek t (Finite seconds) = Ok t' /\
     get_position t' = Ok pos /\
     (Qabs (pos - seconds) < (3 # 2) / inject_Z sr)%Q /\
     (Qabs (pos - seconds) <= inject_Z (Z.of_nat blocksize) / inject_Z sr)%Q).
Proof.
  intros Hreach Hl sr total Hsr.
  pose proof (wf_lookup _ _ _ (reachable_wf _ Hreach) Hl) as (Hc & _ & _).
  assert (0 <= total)%Z as Htot by (unfold total; lia).
  split; [|split].
  - intros Hx.
    destruct (seek_frame_finite (player t) seconds Hsr Hx) as [frame Hf].
    exists frame. unfold Track_seek. rewrite (seek_open _ _ Hc), Hf. cbn [rbind].
    eexists. split; [reflexivity|]. split; [reflexivity|].
    cbn [player set_player sf sf_pos sf_set_pos current_frame].
    change (sf_len (sf_set_pos (sf (player t)) ?p)) with (sf_len (sf (player t))).
    unfold np_clip_int, clamp, total.
    split; [lia|]. split; [reflexivity|]. split; [lia|].
    split; [lia|]. split; [lia|].
    intros Hsmall.
    destruct (seek_frame_near (player t) seconds Hsr Hsmall) as (frame' & Hf' & Hn).
    rewrite Hf in Hf'. injection Hf' as <-. exact Hn.
  - intros Hx. unfold Track_seek. rewrite (seek_open _ _ Hc).
    rewrite (seek_frame_overflow (player t) seconds Hsr Hx). reflexivity.
  - intros Hpos Hfew H0 Hdur.
    assert (0 < inject_Z sr)%Q as HsrQ by (unfold Qlt; simpl; lia).
    assert (0 <= seconds * inject_Z sr)%Q as Hx0.
    { apply Qmult_le_0_compat; [exact H0 | apply Qlt_le_weak; exact HsrQ]. }
    assert (seconds * inject_Z sr <= inject_Z total)%Q as Hx1.
    { apply (Qmult_le_compat_r _ _ (inject_Z sr)) in Hdur;
        [|apply Qlt_le_weak; exact HsrQ].
      eapply Qle_trans; [exact Hdur|].
      apply Qle_lteq. right. field. lra. }
    assert (Qabs (seconds * inject_Z sr) < 2 ^ 53)%Q as Hsmall.
    { rewrite Qabs_pos by exact Hx0. eapply Qle_lt_trans; [exact Hx1|].
      rewrite <- (Zpower_Qpower 2 53) by lia. rewrite <- Zlt_Qlt. exact Hfew. }
    destruct (seek_frame_near (player t) seconds Hsr Hsmall) as (frame & Hf & Hn).
    pose proof (np_clip_int_near frame total _ _ Hx0 Hx1 Hn) as Hn'.
    pose proof (np_clip_int_range frame total Htot) as Hrange.
    unfold Track_seek. rewrite (seek_open _ _ Hc), Hf. cbn [rbind].
    fold total. set (frame' := np_clip_int frame 0 total) in *.
    eexists. eexists. split; [reflexivity|].
    unfold get_position, py_truediv.
    cbn [player set_player samplerate current_frame]. fold sr.
    assert ((sr =? 0)%Z = false) as -> by (apply Z.eqb_neq; lia).
    rewrite Z2Nat.id by lia.
    split; [reflexivity|].
    set (x := (seconds * inject_Z sr)%Q) in *.
    assert (0 < / inject_Z sr)%Q as Hinv by (apply Qinv_lt_0_compat; exact HsrQ).
    assert (inject_Z frame' / inject_Z sr - seconds
            == (inject_Z frame' - x) * / inject_Z sr)%Q as ->
      by (unfold x; field; lra).
    apply Qabs_Qlt_condition in Hn'.
    set (u := (/ inject_Z sr)%Q) in *. set (d := (inject_Z frame' - x)%Q) in *.
    unfold Qdiv. fold u.
    assert (inject_Z (Z.of_nat blocksize) == 2048)%Q as -> by reflexivity.
    split.
    + apply (proj2 (Qabs_Qlt_condition _ _)). nra.
    + apply (proj2 (Qabs_Qle_condition _ _)). nra.
Qed.

Lemma seek_clamps_within_float_range_witness :
  exists t' pos,
    Track_seek example_track (Finite (1 # 44100)) = Ok t' /\
    get_position t' = Ok pos /\
    (Qabs (pos - (1 # 44100)) < (3 # 2) / 44100)%Q.
Proof.
  destruct (seek_clamps_within_float_range example_session 0 example_track
              (1 # 44100) (session_after_reachable _)
              ltac:(vm_compute; reflexivity) ltac:(vm_compute; reflexivity))
    as (_ & _ & Hpos).
  destruct Hpos as (t' & pos & Hs & Hg & Hn & _).
  - vm_compute. reflexivity.
  - vm_compute. reflexivity.
  - vm_compute. discriminate.
  - vm_compute. discriminate.
  - exists t', pos. split; [exact Hs|]. split; [exact Hg | exact Hn].
Defined.

(** ** Stop *)

(** C6, the part that fails: after [stop()] on a running player the stream
    is gone and the reader is rewound, but the reader is not closed: it
    still answers a read, which a closed reader refuses. *)
Lemma stop_does_not_close_reader :
  match stop example_player with
  | Ok p' => stream p' = None /\ sf_closed (sf p') = false /\
             sf_read 1 (sf p') = Ok ([[1 # 2]%Q], sf_set_pos (sf p') 1) /\
             sf_read 1 (sf_close (sf p')) = Raise SoundFileError
  | Raise _ => False
  end.
Proof. vm_compute. repeat split. Qed.

(** C6, as the code has it: for every track object of a session, [stop()]
    returns normally; afterwards the player has no stream (no request of
    the audio subsystem reaches its callback any more), the reader is
    rewound to frame 0 and is still open, and the read cursor is 0, so that
    [get_position()] returns 0; [stop()] is idempotent: a second call, or a
    call on a player that has no stream, returns normally and changes
    nothing; and a session with no current track has nothing to stop. *)
Theorem stop_rewinds_and_is_idempotent (self : MusicPlayer) (id : nat) (t : Track) :
  reachable self ->
  objects self !! id = Some t ->
  exists t',
    Track_stop t = Ok t' /\
    (stream (player t') = None /\
     sf_closed (sf (player t')) = false /\
     sf_pos (sf (player t')) = 0 /\
     current_frame (player t') = 0) /\
    (exists pos, get_position t' = Ok pos /\ (pos == 0)%Q) /\
    (forall out n,
       audio_callback (set_object self id t') id out n = (set_object self id t', out)) /\
    Track_stop t' = Ok t' /\
    (stream (player t) = None -> sf_pos (sf (player t)) = 0 ->
     current_frame (player t) = 0 -> t' = t) /\
    (current_track self = None -> stop_current self = Ok self).
Proof.
  intros Hreach Hl.
  pose proof (wf_lookup _ _ _ (reachable_wf _ Hreach) Hl) as Hok.
  pose proof Hok as (Hc & Hsr & _).
  destruct (Track_stop_ok t Hok) as (t' & Hs & Hok' & _ & Hst & Hpos & Hcf & Hc' & Hidem).
  exists t'. split; [exact Hs|]. split; [auto|]. split; [|split; [|split; [|split]]].
  - unfold get_position, py_truediv. rewrite Hcf.
    destruct Hok' as (_ & Hsr' & _).
    assert ((samplerate (player t') =? 0)%Z = false) as ->
      by (apply Z.eqb_neq; exact Hsr').
    eexists. split; [reflexivity|]. unfold Qeq. simpl. lia.
  - intros out n. unfold audio_callback. simpl.
    rewrite list_lookup_insert_eq by exact (lookup_lt_Some _ _ _ Hl).
    rewrite Hst. reflexivity.
  - exact Hidem.
  - intros H1 H2 H3. unfold Track_stop in Hs.
    rewrite (stop_open _ Hc) in Hs. simpl in Hs. injection Hs as <-.
    destruct t as [pa [[a b c d e] sr ch st v pz cf fc] du].
    simpl in *. subst. reflexivity.
  - intros Hnone. unfold stop_current. rewrite Hnone. reflexivity.
Qed.

Lemma stop_rewinds_and_is_idempotent_witness :
  exists t', Track_stop example_track = Ok t' /\ Track_stop t' = Ok t'.
Proof.
  destruct (stop_rewinds_and_is_idempotent example_session 0 example_track
              (session_after_reachable _) ltac:(vm_compute; reflexivity))
    as (t' & Hs & _ & _ & _ & Hidem & _).
  exists t'. split; assumption.
Defined.

(** ** Switching tracks *)

Lemma stop_current_stops (self self1 : MusicPlayer) :
  wf self -> stop_current self = Ok self1 ->
  (forall id t, current_track self = Some id -> objects self !! id = Some t ->
     exists t', Track_stop t = Ok t' /\ objects self1 !! id = Some t' /\
                stream (player t') = None /\ sf_pos (sf (player t')) = 0 /\
                current_frame (player t') = 0) /\
  (forall j, current_track self <> Some j -> objects self1 !! j = objects self !! j).
Proof.
  intros Hwf Hs.
  destruct (stop_current_ok self Hwf) as (s & Hs' & _ & _ & _ & _ & _ & _ & _ & Hobj & Hnone).
  rewrite Hs in Hs'. injection Hs' as <-. split.
  - intros id t Hcur Hl. destruct (Hobj id t Hcur Hl) as (t' & Ht' & Ho).
    destruct (Track_stop_ok t (wf_lookup _ _ _ Hwf Hl))
      as (t2 & Ht2 & _ & _ & Hst & Hpos & Hcf & _).
    assert (t2 = t') as -> by congruence.
    exists t'. rewrite Ho.
    rewrite list_lookup_insert_eq by exact (lookup_lt_Some _ _ _ Hl). auto.
  - intros j Hj. destruct (current_track self) as [id|] eqn:Hcur.
    + destruct (objects self !! id) as [t|] eqn:Hl.
      * destruct (Hobj id t eq_refl Hl) as (t' & _ & ->).
        apply list_lookup_insert_ne. congruence.
      * destruct Hwf as [Hlt _]. specialize (Hlt id Hcur).
        apply lookup_ge_None in Hl. lia.
    + rewrite (Hnone eq_refl). reflexivity.
Qed.

Lemma stop_current_no_engine (self self1 : MusicPlayer) :
  wf self -> exclusive self -> stop_current self = Ok self1 ->
  forall j tj, objects self1 !! j = Some tj -> ~ running tj.
Proof.
  intros Hwf Hex Hs j tj Hj Hrun.
  destruct (stop_current_stops self self1 Hwf Hs) as [Hprev Hother].
  destruct (decide (current_track self = Some j)) as [Hcur|Hcur].
  - destruct Hwf as [Hlt Hall]. specialize (Hlt j Hcur).
    destruct (lookup_lt_is_Some_2 _ _ Hlt) as [t Hl].
    destruct (Hprev j t Hcur Hl) as (t' & _ & Hl' & Hst & _).
    rewrite Hj in Hl'. injection Hl' as ->.
    unfold running in Hrun. congruence.
  - rewrite (Hother j Hcur) in Hj. apply Hcur. exact (Hex j tj Hj Hrun).
Qed.

Lemma play_track_started (self : MusicPlayer) (p : string) :
  wf self ->
  exists self',
    play_track self p = Ok self' /\
    forall t0, Track_init (music_dir self) p = Ok t0 ->
      exists t,
        current_track self' = Some (length (objects self)) /\
        objects self' !! length (objects self) = Some t /\
        path t = p /\
        threads self' = threads self ++ [target_play (length (objects self))].
Proof.
  intros Hwf.
  destruct (stop_current_ok self Hwf)
    as (self1 & Hs & Hwf1 & _ & Hth1 & _ & Hdir1 & _ & Hlen1 & _).
  pose proof (start_track_spec self1 p (wf_volume _ Hwf1)) as Hst.
  rewrite Hdir1 in Hst.
  unfold play_track. rewrite Hs. simpl.
  destruct (Track_init (music_dir self) p) as [t0|e].
  - destruct Hst as (t & -> & _ & Hpath & _).
    eexists. split; [reflexivity|]. intros t0' _. exists t. simpl.
    rewrite Hth1, Hlen1. rewrite list_lookup_middle by lia. auto.
  - rewrite Hst. eexists. split; [reflexivity|]. intros t0 Ht0. discriminate.
Qed.

(** In a session, [play_track(path)] returns normally.  The track that
    was current is stopped (no stream, reader rewound) and is no longer
    current, before anything is done for the new one; the other objects are
    untouched.  If creating the new [Track] raises, no track is current,
    exactly one failure report is printed, no thread is started and no
    object is created.  If it succeeds, the new object is current, carries
    the session volume and its completion callback, has no stream yet, and
    exactly one thread, the one that will start it, is started.  When at
    most the current track had a running engine, none runs when
    [play_track] returns, and once the thread started by this call has run
    (no older start being pending) again at most the current track has a
    running engine. *)
Lemma play_track_in_session (self : MusicPlayer) (p : string) :
  reachable self ->
  exists self',
    play_track self p = Ok self' /\
    (forall id t, current_track self = Some id -> objects self !! id = Some t ->
       exists t', Track_stop t = Ok t' /\ objects self' !! id = Some t' /\
                  stream (player t') = None /\ current_track self' <> Some id) /\
    (forall j, j < length (objects self) -> current_track self <> Some j ->
       objects self' !! j = objects self !! j) /\
    (forall e, Track_init (music_dir self) p = Raise e ->
       current_track self' = None /\
       stdout self' = stdout self ++ [failed_to_play p e] /\
       threads self' = threads self /\
       length (objects self') = length (objects self)) /\
    (forall t0, Track_init (music_dir self) p = Ok t0 ->
       exists t,
         current_track self' = Some (length (objects self)) /\
         objects self' !! length (objects self) = Some t /\
         length (objects self') = S (length (objects self)) /\
         path t = p /\ stream (player t) = None /\
         volume (player t)
         = np_clip (inject_Z (current_volume self) / 100) 0 1 /\
         finished_callback (player t) = Some (on_finished p) /\
         threads self' = threads self ++ [target_play (length (objects self))] /\
         stdout self' = stdout self) /\
    (exclusive self ->
       (forall j tj, objects self' !! j = Some tj -> ~ running tj) /\
       (no_play_pending self ->
        forall self'', run_thread self' (length (threads self)) = Ok self'' ->
                       exclusive self'' /\ no_play_pending self'')).
Proof.
  intros Hreach. pose proof (reachable_wf _ Hreach) as Hwf.
  destruct (stop_current_ok self Hwf)
    as (self1 & Hs & Hwf1 & Hcur1 & Hth1 & Hout1 & Hdir1 & Hvol1 & Hlen1 & _).
  destruct (stop_current_stops self self1 Hwf Hs) as [Hprev Hother].
  pose proof (start_track_spec self1 p (wf_volume _ Hwf1)) as Hst.
  rewrite Hdir1 in Hst.
  unfold play_track. rewrite Hs. simpl.
  destruct (Track_init (music_dir self) p) as [t0|e] eqn:Hinit.
  - destruct Hst as (t & -> & Hok & Hpath & Hstream & _ & _ & Hv & Hfc).
    eexists. split; [reflexivity|]. simpl. rewrite Hlen1, Hth1, Hout1, Hvol1 in *.
    assert (exclusive self ->
            forall j tj, (objects self1 ++ [t]) !! j = Some tj -> ~ running tj)
      as Hquiet_of.
    { intros Hex j tj Hj.
      apply lookup_app_Some in Hj as [Hj|[Hge Hj]].
      - exact (stop_current_no_engine self self1 Hwf Hex Hs j tj Hj).
      - apply list_lookup_singleton_Some in Hj as [_ <-].
        unfold running. congruence. }
    split; [|split; [|split; [|split]]].
    + intros id t1 Hc Hl. destruct (Hprev id t1 Hc Hl) as (t' & H1 & H2 & H3 & _).
      exists t'. split; [exact H1|]. split; [|split; [exact H3|]].
      * rewrite lookup_app_l; [exact H2 | exact (lookup_lt_Some _ _ _ H2)].
      * pose proof (lookup_lt_Some _ _ _ Hl). intros E. injection E. lia.
    + intros j Hj Hne. rewrite lookup_app_l by lia. apply Hother. exact Hne.
    + intros e He. discriminate.
    + intros t0' Ht0'. injection Ht0' as <-. exists t.
      rewrite list_lookup_middle by lia.
      rewrite length_app. simpl. repeat split; auto. lia.
    + intros Hex. split; [exact (Hquiet_of Hex)|].
      intros Hnp self'' Hrun. unfold run_thread in Hrun. simpl in Hrun.
      rewrite Hth1 in Hrun.
      rewrite list_lookup_middle in Hrun by reflexivity.
      rewrite delete_middle, app_nil_r in Hrun. simpl in Hrun.
      rewrite list_lookup_middle in Hrun by lia.
      injection Hrun as <-. split.
      * intros j tj Hj Hrunning. simpl in *.
        destruct (decide (j = length (objects self))) as [->|Hne]; [reflexivity|].
        rewrite list_lookup_insert_ne in Hj by congruence.
        exfalso. exact (Hquiet_of Hex j tj Hj Hrunning).
      * exact Hnp.
  - rewrite Hst. eexists. split; [reflexivity|]. simpl.
    split; [|split; [|split; [|split]]].
    + intros id t1 Hc Hl. destruct (Hprev id t1 Hc Hl) as (t' & H1 & H2 & H3 & _).
      exists t'. rewrite Hcur1. repeat split; auto.
    + intros j _ Hne. apply Hother. exact Hne.
    + intros e' He'. injection He' as <-. rewrite Hcur1, Hout1, Hth1, Hlen1. auto.
    + intros t0 Ht0. discriminate.
    + intros Hex. split; [exact (stop_current_no_engine self self1 Hwf Hex Hs)|].
      intros Hnp self'' Hrun. unfold run_thread in Hrun. simpl in Hrun.
      rewrite Hth1 in Hrun.
      rewrite (proj2 (lookup_ge_None (threads self) (length (threads self))))
        in Hrun by lia.
      injection Hrun as <-. split.
      * intros j tj Hj Hrunning. simpl in *.
        exfalso. exact (stop_current_no_engine self self1 Hwf Hex Hs j tj Hj Hrunning).
      * unfold no_play_pending. simpl. rewrite Hth1. exact Hnp.
Qed.

Example play_track_reports_missing_file :
  exists self',
    play_track example_session "missing.wav" = Ok self' /\
    current_track self' = None /\
    stdout self' = [failed_to_play "missing.wav" SoundFileError] /\
    threads self' = [].
Proof.
  destruct (play_track_in_session example_session
              "missing.wav" (session_after_reachable _))
    as (self' & Hp & _ & _ & Hfail & _).
  destruct (Hfail SoundFileError ltac:(vm_compute; reflexivity))
    as (Hc & Ho & Ht & _).
  exists self'. repeat split; assumption.
Qed.

(** C7, where the code departs from it: two engines run at the same time.
    The engine of a track is started by a thread of its own
    ([threading.Thread(target=track.play)] in [play_track]).  The play
    button of "A" and then that of "B" are pressed before the thread that
    starts the engine of "A" has run: [play_track("B")] stops "A" while it
    has no stream, so nothing is halted, and "B" becomes the current track
    with both start threads waiting.  Once the two threads have run, still
    in a state a session can reach, the engines of "A" and of "B" both
    run, and only "B" is current. *)
Theorem engines_overlap_when_start_is_pending :
  let pressed := session_after [ev_toggle_play "A"; ev_toggle_play "B"] in
  (current_track pressed = Some 1 /\
   (path <$> objects pressed) = ["A"; "B"] /\
   (stream ∘ player <$> objects pressed) = [None; None] /\
   threads pressed = [target_play 0; target_play 1]) /\
  hasty_session = session_after [ev_toggle_play "A"; ev_toggle_play "B";
                                 ev_thread 0; ev_thread 0] /\
  reachable hasty_session /\
  current_track hasty_session = Some 1 /\
  (path <$> objects hasty_session) = ["A"; "B"] /\
  (stream ∘ player <$> objects hasty_session) = [Some Active; Some Active] /\
  threads hasty_session = [] /\
  (exists ta tb, objects hasty_session !! 0 = Some ta /\ running ta /\
                 objects hasty_session !! 1 = Some tb /\ running tb) /\
  ~ exclusive hasty_session.
Proof.
  split; [vm_compute; repeat split|]. split; [reflexivity|].
  split; [apply session_after_reachable|].
  split; [vm_compute; reflexivity|]. split; [vm_compute; reflexivity|].
  split; [vm_compute; reflexivity|]. split; [vm_compute; reflexivity|].
  assert (exists ta, objects hasty_session !! 0 = Some ta /\ running ta)
    as (ta & Ha & Hra) by (vm_compute; eexists; split; reflexivity).
  assert (exists tb, objects hasty_session !! 1 = Some tb /\ running tb)
    as (tb & Hb & Hrb) by (vm_compute; eexists; split; reflexivity).
  split; [exists ta, tb; auto|].
  intros Hex. pose proof (Hex 0 ta Ha Hra) as Hcur.
  vm_compute in Hcur. discriminate.
Qed.

(** ** Playlist advance *)

(** The thread started by [play_track] starts the engine of its track. *)
Lemma run_start_thread (self : MusicPlayer) (ths : list Target) (n : nat)
    (t : Track) :
  threads self = ths ++ [target_play n] ->
  objects self !! n = Some t ->
  exists self',
    run_thread self (length ths) = Ok self' /\
    objects self' !! n = Some (Track_play t) /\
    running (Track_play t) /\
    current_track self' = current_track self /\
    threads self' = ths.
Proof.
  intros Hth Hl. unfold run_thread. rewrite Hth.
  rewrite list_lookup_middle by reflexivity.
  rewrite delete_middle, app_nil_r.
  cbn [run_target objects set_threads]. rewrite Hl.
  eexists. split; [reflexivity|].
  cbn [objects set_object set_objects set_threads current_track threads].
  split; [apply list_lookup_insert_eq; exact (lookup_lt_Some _ _ _ Hl)|].
  repeat split.
Qed.

(** C8: in a session in loop mode list, a completion notification for a
    path [p] that is in the current track list returns normally and plays
    [next], the entry right after the (first) position of [p] in the list,
    or the first entry when [p] is at the last position: it does what
    [play_track(next)] does.  The track that was current is stopped and is
    no longer current; when the file of [next] can be opened, a new object
    for [next] is current and exactly one thread is started, which starts
    the engine of that object when it runs; when the file cannot be opened,
    the failure is printed and no track is current.  A notification for a
    path that is not in the list leaves the session exactly as it was:
    nothing is played. *)
Theorem completion_advances_in_scan_order (self : MusicPlayer) (p : string) :
  reachable self ->
  loop_mode self = "list" ->
  (p ∉ track_list self -> on_track_finished self p = Ok self) /\
  (forall i,
     track_list self !! i = Some p ->
     (forall j, j < i -> track_list self !! j <> Some p) ->
     exists next self',
       track_list self !! (if i + 1 <? length (track_list self) then i + 1 else 0)
       = Some next /\
       on_track_finished self p = Ok self' /\
       play_track self next = Ok self' /\
       (forall id t, current_track self = Some id -> objects self !! id = Some t ->
          exists t', objects self' !! id = Some t' /\
                     stream (player t') = None /\ current_track self' <> Some id) /\
       (forall t0, Track_init (music_dir self) next = Ok t0 ->
          exists t self'',
            current_track self' = Some (length (objects self)) /\
            objects self' !! length (objects self) = Some t /\
            path t = next /\
            stream (player t) = None /\
            threads self' = threads self ++ [target_play (length (objects self))] /\
            run_thread self' (length (threads self)) = Ok self'' /\
            objects self'' !! length (objects self) = Some (Track_play t) /\
            running (Track_play t) /\
            current_track self'' = Some (length (objects self))) /\
       (forall e, Track_init (music_dir self) next = Raise e ->
          current_track self' = None /\
          stdout self' = stdout self ++ [failed_to_play next e] /\
          threads self' = threads self /\
          length (objects self') = length (objects self))).
Proof.
  intros Hreach Hm. pose proof (reachable_wf _ Hreach) as Hwf. split.
  - apply on_track_finished_absent. exact Hm.
  - intros i Hi Hfirst.
    pose proof (py_index_first _ _ _ Hi Hfirst) as Hidx.
    destruct (on_track_finished_present self p i Hwf Hm Hidx) as (next & Hn & Heq).
    destruct (play_track_in_session self next Hreach)
      as (self' & Hp & Hprev & _ & Hfail & Hstart & _).
    exists next, self'. split; [exact Hn|]. split; [congruence|].
    split; [exact Hp|]. split; [|split].
    + intros id t Hcur Hl. destruct (Hprev id t Hcur Hl) as (t' & _ & H2 & H3 & H4).
      exists t'. auto.
    + intros t0 Ht0.
      destruct (Hstart t0 Ht0) as (t & Hc & Hl & _ & Hpath & Hst & _ & _ & Hth & _).
      destruct (run_start_thread self' (threads self) _ t Hth Hl)
        as (self'' & Hrun & Hl'' & Hr & Hc'' & _).
      exists t, self''. rewrite Hc'', Hc. repeat split; auto.
    + exact Hfail.
Qed.

Lemma completion_advances_in_scan_order_witness :
  exists self',
    on_track_finished example_session "C" = Ok self' /\
    play_track example_session "A" = Ok self' /\
    current_track self' = Some 1 /\
    threads self' = [target_play 1].
Proof.
  destruct (completion_advances_in_scan_order example_session "C"
              (session_after_reachable _) ltac:(vm_compute; reflexivity))
    as [_ Hadv].
  destruct (Hadv 2 ltac:(vm_compute; reflexivity))
    as (next & self' & Hn & Hfin & Hplay & _ & Hstart & _).
  - intros [|[|j]] Hj; vm_compute; [discriminate | discriminate | lia].
  - vm_compute in Hn. injection Hn as <-.
    destruct (Track_init (music_dir example_session) "A") as [t0|e] eqn:Hinit;
      [|vm_compute in Hinit; discriminate].
    destruct (Hstart t0 eq_refl) as (t & self'' & Hc & _ & _ & _ & Hth & _).
    exists self'. split; [exact Hfin|]. split; [exact Hplay|].
    split; [exact Hc | exact Hth].
Defined.

(** C9, the part that fails: the list has been rescanned to [A, C] while C
    was playing, and the completion for C is not a no-op: it is handled as
    [play_track(A)], which makes a new object for A current and starts the
    thread that starts its engine. *)
Lemma completion_after_rescan_is_not_a_noop :
  track_list rescanned_session = ["A"; "C"] /\
  loop_mode rescanned_session = "list" /\
  on_track_finished rescanned_session "C" = play_track rescanned_session "A" /\
  on_track_finished rescanned_session "C" <> Ok rescanned_session /\
  match on_track_finished rescanned_session "C" with
  | Ok s => current_track s = Some 1 /\
            path <$> objects s !! 1 = Some "A" /\
            threads s = [target_play 1]
  | Raise _ => False
  end.
Proof.
  split; [vm_compute; reflexivity|]. split; [vm_compute; reflexivity|].
  split; [vm_compute; reflexivity|]. split.
  - vm_compute. intros H. discriminate H.
  - vm_compute. repeat split.
Qed.

(** C9, as the code has it: in loop mode list, with C different from A and
    B, the completion for C on the list [A, B, C] is handled as
    [play_track(A)]; on the rescanned list [A, C] it is handled as
    [play_track(A)] as well, C being the last entry; it is a no-op when C
    itself is gone, as on [A, B]; and when A can be opened,
    [play_track(A)] makes a new object for A current and starts the thread
    that starts its engine. *)
Theorem completion_wraps_to_first (self : MusicPlayer) (A B C : string) :
  reachable self ->
  loop_mode self = "list" ->
  A <> C -> B <> C ->
  (track_list self = [A; B; C] -> on_track_finished self C = play_track self A) /\
  (track_list self = [A; C] -> on_track_finished self C = play_track self A) /\
  (track_list self = [A; B] -> on_track_finished self C = Ok self) /\
  (forall t0, Track_init (music_dir self) A = Ok t0 ->
     exists self' t,
       play_track self A = Ok self' /\
       current_track self' = Some (length (objects self)) /\
       objects self' !! length (objects self) = Some t /\ path t = A /\
       threads self' = threads self ++ [target_play (length (objects self))]).
Proof.
  intros Hreach Hm HAC HBC. pose proof (reachable_wf _ Hreach) as Hwf.
  apply String.eqb_neq in HAC as HAC'. apply String.eqb_neq in HBC as HBC'.
  split; [|split; [|split]].
  - intros Hl.
    assert (py_index (track_list self) C = Ok 2) as Hi.
    { rewrite Hl. simpl. rewrite HAC', HBC', String.eqb_refl. reflexivity. }
    destruct (on_track_finished_present self C 2 Hwf Hm Hi) as (next & Hn & ->).
    rewrite Hl in Hn. simpl in Hn. injection Hn as <-. reflexivity.
  - intros Hl.
    assert (py_index (track_list self) C = Ok 1) as Hi.
    { rewrite Hl. simpl. rewrite HAC', String.eqb_refl. reflexivity. }
    destruct (on_track_finished_present self C 1 Hwf Hm Hi) as (next & Hn & ->).
    rewrite Hl in Hn. simpl in Hn. injection Hn as <-. reflexivity.
  - intros Hl. apply on_track_finished_absent; [exact Hm|].
    rewrite Hl. intros Hin.
    apply elem_of_cons in Hin as [->|Hin]; [congruence|].
    apply elem_of_cons in Hin as [->|Hin]; [congruence|].
    apply elem_of_nil in Hin. exact Hin.
  - intros t0 Ht0.
    destruct (play_track_started self A Hwf) as (self' & Hp & Hok).
    destruct (Hok t0 Ht0) as (t & H1 & H2 & H3 & H4).
    exists self', t. auto.
Qed.

Lemma completion_wraps_to_first_witness :
  on_track_finished rescanned_session "C" = play_track rescanned_session "A".
Proof.
  destruct (completion_wraps_to_first rescanned_session "A" "B" "C"
              (session_after_reachable _)
              ltac:(vm_compute; reflexivity)
              ltac:(discriminate) ltac:(discriminate))
    as (_ & Hrescan & _).
  apply Hrescan. vm_compute. reflexivity.
Defined.

(** C10: in a session the completion handler returns normally for every
    path and every track list.  In the loop-mode-list branch the remainder
    [(idx + 1) % len(track_list)] is taken only after [index] has found the
    path, so the list is not empty, the divisor is not zero and the result
    is a valid index; for an empty list the lookup raises [ValueError]
    first; and that exception is caught, so a list that does not contain
    the path, the empty one included, leaves the session as it was. *)
Theorem completion_handler_never_raises (self : MusicPlayer) (p : string) :
  reachable self ->
  (exists self', on_track_finished self p = Ok self') /\
  (forall idx, py_index (track_list self) p = Ok idx ->
     exists n next,
       py_mod (idx + 1) (length (track_list self)) = Ok n /\
       n < length (track_list self) /\
       py_getitem (track_list self) n = Ok next) /\
  (track_list self = [] -> py_index (track_list self) p = Raise ValueError) /\
  (loop_mode self = "list" ->
   (track_list self = [] -> on_track_finished self p = Ok self) /\
   (p ∉ track_list self -> on_track_finished self p = Ok self)).
Proof.
  intros Hreach. pose proof (reachable_wf _ Hreach) as Hwf.
  split; [|split; [|split]].
  - destruct (on_track_finished_total self p Hwf) as (self' & H & _).
    exists self'. exact H.
  - intros idx Hi. destruct (py_index_lookup _ _ _ Hi) as [Hl _].
    pose proof (lookup_lt_Some _ _ _ Hl) as Hlt.
    rewrite (py_mod_next _ _ Hlt).
    pose proof (next_index_in_range _ _ Hlt) as Hn.
    destruct (lookup_lt_is_Some_2 _ _ Hn) as [next Hnext].
    eexists _, next. split; [reflexivity|]. split; [exact Hn|].
    unfold py_getitem. rewrite Hnext. reflexivity.
  - intros ->. reflexivity.
  - intros Hm. split.
    + intros Hnil. apply on_track_finished_absent; [exact Hm|].
      rewrite Hnil. apply not_elem_of_nil.
    + apply on_track_finished_absent. exact Hm.
Qed.

Lemma completion_handler_never_raises_witness :
  exists self', on_track_finished example_session "gone.flac" = Ok self'.
Proof.
  exact (proj1 (completion_handler_never_raises example_session "gone.flac"
                  (session_after_reachable _))).
Defined.

(** ** Sessions whose threads run at once *)

Lemma no_engine_exclusive (self : MusicPlayer) : no_engine self -> exclusive self.
Proof. intros Hq id t Hl Hrun. destruct (Hq id t Hl Hrun). Qed.

Lemma exclusive_set_object (self : MusicPlayer) (id : nat) (t t' : Track) :
  exclusive self -> objects self !! id = Some t ->
  stream (player t') = stream (player t) ->
  exclusive (set_object self id t').
Proof.
  intros Hex Hl Hst j tj Hj Hrun. simpl in *.
  destruct (decide (id = j)) as [->|Hne].
  - rewrite list_lookup_insert_eq in Hj by exact (lookup_lt_Some _ _ _ Hl).
    injection Hj as <-. apply (Hex j t Hl). unfold running in *. congruence.
  - rewrite list_lookup_insert_ne in Hj by exact Hne. exact (Hex j tj Hj Hrun).
Qed.

Lemma play_track_quiet (self : MusicPlayer) (p : string) (self' : MusicPlayer) :
  wf self -> exclusive self -> play_track self p = Ok self' ->
  no_engine self' /\
  ((current_track self' = None /\ threads self' = threads self) \/
   (exists t, current_track self' = Some (length (objects self)) /\
              objects self' !! length (objects self) = Some t /\
              threads self' = threads self ++ [target_play (length (objects self))])).
Proof.
  intros Hwf Hex. unfold play_track.
  destruct (stop_current_ok self Hwf)
    as (self1 & Hs & Hwf1 & Hcur1 & Hth1 & _ & _ & _ & Hlen1 & _).
  rewrite Hs. simpl.
  pose proof (stop_current_no_engine self self1 Hwf Hex Hs) as Hq1.
  pose proof (start_track_spec self1 p (wf_volume _ Hwf1)) as Hst.
  destruct (Track_init (music_dir self1) p) as [t0|e].
  - destruct Hst as (t & -> & _ & _ & Hstream & _). returned. simpl. split.
    + intros j tj Hj. apply lookup_app_Some in Hj as [Hj|[_ Hj]].
      * exact (Hq1 j tj Hj).
      * apply list_lookup_singleton_Some in Hj as [_ <-].
        unfold running. congruence.
    + right. exists t. rewrite Hlen1, Hth1.
      rewrite list_lookup_middle by lia. auto.
  - rewrite Hst. returned. simpl. split; [exact Hq1|]. left. auto.
Qed.

(** After [play_track], running the thread it started leaves a session
    with no started thread in which at most the current track runs. *)
Lemma play_track_settles (self : MusicPlayer) (p : string) (self1 : MusicPlayer)
    (fuel : nat) :
  wf self -> exclusive self -> threads self = [] ->
  play_track self p = Ok self1 ->
  exists self2, run_started (S fuel) self1 = Ok self2 /\
                exclusive self2 /\ threads self2 = [].
Proof.
  intros Hwf Hex Hth Hp.
  destruct (play_track_quiet self p self1 Hwf Hex Hp) as [Hq Hcases].
  rewrite Hth in Hcases. simpl in Hcases.
  destruct Hcases as [[_ Ht]|(t & Hc & Ho & Ht)]; simpl; rewrite Ht.
  - exists self1. split; [reflexivity|].
    split; [apply no_engine_exclusive; exact Hq | exact Ht].
  - unfold run_thread. rewrite Ht. simpl. rewrite Ho. simpl.
    eexists. split; [destruct fuel; reflexivity|]. split; [|reflexivity].
    intros j tj Hj Hrun. simpl in *.
    destruct (decide (j = length (objects self))) as [->|Hne]; [exact Hc|].
    rewrite list_lookup_insert_ne in Hj by congruence.
    destruct (Hq j tj Hj Hrun).
Qed.

Lemma on_track_finished_settles (self : MusicPlayer) (p : string)
    (self1 : MusicPlayer) :
  wf self -> no_engine self -> threads self = [] ->
  on_track_finished self p = Ok self1 ->
  exists self2, run_started 1 self1 = Ok self2 /\
                exclusive self2 /\ threads self2 = [].
Proof.
  intros Hwf Hq Hth. pose proof (no_engine_exclusive _ Hq) as Hex.
  assert (forall q, play_track self q = Ok self1 ->
            exists self2, run_started 1 self1 = Ok self2 /\
                          exclusive self2 /\ threads self2 = []) as Hplay.
  { intros q. apply play_track_settles; assumption. }
  destruct (String.eqb (loop_mode self) "song") eqn:E1.
  - unfold on_track_finished. rewrite E1. apply Hplay.
  - destruct (String.eqb (loop_mode self) "list") eqn:E2.
    + pose proof E2 as Hm. apply String.eqb_eq in Hm.
      destruct (py_index (track_list self) p) as [idx|e] eqn:Hi.
      * destruct (on_track_finished_present self p idx Hwf Hm Hi)
          as (next & _ & ->).
        apply Hplay.
      * unfold on_track_finished. rewrite E1, E2, Hi.
        rewrite (py_index_raises _ _ _ Hi). simpl. returned.
        exists self. simpl. rewrite Hth. auto.
    + unfold on_track_finished. rewrite E1, E2. returned.
      eexists. simpl. rewrite Hth. split; [reflexivity|].
      split; [|exact Hth]. apply no_engine_exclusive. exact Hq.
Qed.

Lemma audio_callback_settles (self : MusicPlayer) (id : nat) (outdata : block)
    (frames : nat) :
  wf self -> exclusive self -> threads self = [] ->
  exists self2,
    run_started 2 (fst (audio_callback self id outdata frames)) = Ok self2 /\
    exclusive self2 /\ threads self2 = [].
Proof.
  intros Hwf Hex Hth.
  pose proof (audio_callback_wf self id outdata frames Hwf) as Hwf1.
  assert (exists self2, run_started 2 self = Ok self2 /\
                        exclusive self2 /\ threads self2 = []) as Hsame.
  { exists self. simpl. rewrite Hth. auto. }
  unfold audio_callback in *.
  destruct (objects self !! id) as [t|] eqn:Hl; [|exact Hsame].
  destruct (stream (player t)) as [[|]|] eqn:Hst; try exact Hsame.
  simpl in *. clear Hsame.
  pose proof (wf_lookup _ _ _ Hwf Hl) as (Hc & _ & Hf & _).
  destruct (callback_keeps_player (player t) outdata frames Hc)
    as (_ & _ & _ & Hst').
  set (r := callback (player t) outdata frames) in *.
  destruct (cb_raised r) as [e|] eqn:Hraised.
  - (* the stream ends: no engine is left *)
    assert (no_engine (set_object self id
              (set_player t (set_stream (cb_player r) (Some Finished))))) as Hq.
    { intros j tj Hj Hrun. simpl in Hj.
      destruct (decide (id = j)) as [->|Hne].
      - rewrite list_lookup_insert_eq in Hj by exact (lookup_lt_Some _ _ _ Hl).
        injection Hj as <-. discriminate Hrun.
      - rewrite list_lookup_insert_ne in Hj by exact Hne.
        pose proof (Hex j tj Hj Hrun) as Hcj.
        pose proof (Hex id t Hl Hst) as Hci. congruence. }
    assert (cb_started r = [] \/ cb_started r = [on_finished (path t)]) as Hstarted.
    { unfold r, callback. destruct (paused (player t)); [left; reflexivity|].
      destruct (sf_read frames (sf (player t))) as [[data f]|x];
        [|left; reflexivity].
      destruct (length data <? frames); simpl.
      - rewrite Hf. right. reflexivity.
      - destruct (sf_tell f); left; reflexivity. }
    rewrite Hth. simpl.
    destruct Hstarted as [->| ->]; simpl.
    + eexists. split; [reflexivity|]. split; [|reflexivity].
      apply no_engine_exclusive. exact Hq.
    + unfold run_thread. simpl.
      match goal with
      | |- context [on_track_finished ?s ?q] =>
          destruct (on_track_finished_total s q) as (self1 & Hfin & _);
          [eapply wf_ext; [| | |exact Hwf1]; reflexivity|];
          rewrite Hfin; simpl;
          apply (on_track_finished_settles s q self1);
          [eapply wf_ext; [| | |exact Hwf1]; reflexivity
          | exact Hq | reflexivity | exact Hfin]
      end.
  - (* the stream goes on *)
    assert (cb_started r = []) as ->.
    { revert Hraised. unfold r, callback.
      destruct (paused (player t)); [reflexivity|].
      destruct (sf_read frames (sf (player t))) as [[data f]|x];
        [|reflexivity].
      destruct (length data <? frames); simpl; [discriminate|].
      destruct (sf_tell f); reflexivity. }
    rewrite Hth. simpl. eexists. split; [reflexivity|]. split; [|reflexivity].
    pose proof (exclusive_set_object self id t (set_player t (cb_player r))
                  Hex Hl Hst') as Hex'.
    intros j tj Hj Hrun. exact (Hex' j tj Hj Hrun).
Qed.

Lemma run_started_idle (fuel : nat) (self : MusicPlayer) :
  threads self = [] -> run_started fuel self = Ok self.
Proof. intros Hth. destruct fuel; simpl; [|rewrite Hth]; reflexivity. Qed.

Lemma run_started_wf (fuel : nat) (self self' : MusicPlayer) :
  wf self -> run_started fuel self = Ok self' -> wf self'.
Proof.
  revert self. induction fuel as [|fuel IH]; intros self Hwf; simpl.
  - returned. exact Hwf.
  - destruct (threads self); [returned; exact Hwf|].
    destruct (run_thread_wf self 0 Hwf) as (self1 & -> & Hwf1). simpl.
    apply IH. exact Hwf1.
Qed.

Lemma run_started_reachable (fuel : nat) (self self' : MusicPlayer) :
  reachable self -> run_started fuel self = Ok self' -> reachable self'.
Proof.
  revert self. induction fuel as [|fuel IH]; intros self Hr; simpl.
  - returned. exact Hr.
  - destruct (threads self); [returned; exact Hr|].
    destruct (run_thread self 0) as [self1|x] eqn:Hrun; simpl; [|discriminate].
    apply IH. exact (reach_step self (ev_thread 0) self1 Hr Hrun).
Qed.

Lemma exclusive_ext (self self' : MusicPlayer) :
  current_track self' = current_track self ->
  objects self' = objects self ->
  exclusive self -> exclusive self'.
Proof.
  intros Hc Ho Hex id t Hl Hrun. rewrite Hc. rewrite Ho in Hl.
  exact (Hex id t Hl Hrun).
Qed.

Lemma Track_seek_stream (t t' : Track) (seconds : float64) :
  Track_seek t seconds = Ok t' -> stream (player t') = stream (player t).
Proof.
  unfold Track_seek, seek.
  destruct (seek_frame (player t) seconds) as [frame|x]; cbn [rbind];
    [|discriminate].
  destruct (sf_seek _ (sf (player t))) as [f|x]; simpl; [|discriminate].
  destruct (sf_tell f) as [n|x]; simpl; [|discriminate].
  returned. reflexivity.
Qed.

(** The invariant of the sessions whose threads run at once. *)
Lemma prompt_step_settled (self : MusicPlayer) (e : Event) (self' : MusicPlayer) :
  wf self -> exclusive self -> threads self = [] ->
  prompt_step self e = Ok self' ->
  wf self' /\ exclusive self' /\ threads self' = [].
Proof.
  intros Hwf Hex Hth Hstep. split.
  { unfold prompt_step in Hstep.
    destruct (step self e) as [self1|x] eqn:Hs; simpl in Hstep; [|discriminate].
    exact (run_started_wf 2 self1 self' (step_wf _ _ _ Hwf Hs) Hstep). }
  revert Hstep. unfold prompt_step.
  assert (forall self1, threads self1 = [] -> exclusive self1 ->
            run_started 2 self1 = Ok self' ->
            exclusive self' /\ threads self' = []) as Hidle.
  { intros self1 Ht He. rewrite (run_started_idle 2 self1 Ht). returned. auto. }
  assert (forall q self1, play_track self q = Ok self1 ->
            run_started 2 self1 = Ok self' ->
            exclusive self' /\ threads self' = []) as Hplay.
  { intros q self1 Hp.
    destruct (play_track_settles self q self1 1 Hwf Hex Hth Hp) as (s2 & -> & H).
    returned. exact H. }
  destruct e as [p|v|v|m|scan|fs|k|id outdata frames]; cbn [step rbind].
  - unfold toggle_play.
    destruct (current_track self) as [id|] eqn:Hcur;
      [|destruct (play_track self p) eqn:Hp; cbn [rbind]; [eauto|discriminate]].
    destruct (objects self !! id) as [t|] eqn:Hl;
      [|destruct (play_track self p) eqn:Hp; cbn [rbind]; [eauto|discriminate]].
    destruct (String.eqb (path t) p);
      [|destruct (play_track self p) eqn:Hp; cbn [rbind]; [eauto|discriminate]].
    destruct (paused (player t)); cbn [rbind];
      (apply Hidle; [exact Hth | apply (exclusive_set_object self id t); auto]).
  - pose proof (slider_bound_range 0 100 v ltac:(lia)) as Hv.
    set (v' := slider_bound 0 100 v) in *.
    assert (exclusive (set_current_volume self v')) as Hex1
      by (apply (exclusive_ext self); auto).
    unfold on_volume_change. cbn [current_track objects set_current_volume].
    destruct (current_track self) as [id|];
      [|cbn [rbind]; apply Hidle; auto].
    destruct (objects self !! id) as [t|] eqn:Hl;
      [|cbn [rbind]; apply Hidle; auto].
    rewrite (Track_set_volume_slider _ _ Hv). cbn [rbind].
    apply Hidle; [exact Hth|].
    apply (exclusive_set_object _ id t); auto.
  - unfold seek_track.
    destruct (current_track self) as [id|]; [|cbn [rbind]; apply Hidle; auto].
    destruct (objects self !! id) as [t|] eqn:Hl; [|cbn [rbind]; apply Hidle; auto].
    destruct (py_float (inject_Z v / 1000)) as [fraction|x]; cbn [rbind];
      [|discriminate].
    destruct (Track_seek t _) as [t'|x] eqn:Hseek; cbn [rbind]; [|discriminate].
    apply Hidle; [exact Hth|].
    apply (exclusive_set_object self id t); auto.
    exact (Track_seek_stream _ _ _ Hseek).
  - apply Hidle; [exact Hth | apply (exclusive_ext self); auto].
  - apply Hidle; [exact Hth | apply (exclusive_ext self); auto].
  - apply Hidle; [exact Hth | apply (exclusive_ext self); auto].
  - unfold run_thread. rewrite Hth. cbn [lookup list_lookup rbind].
    apply Hidle; assumption.
  - destruct (audio_callback_settles self id outdata frames Hwf Hex Hth)
      as (s2 & -> & H).
    returned. exact H.
Qed.

(** A session whose threads run at once is a session. *)
Lemma prompt_reachable_reachable (self : MusicPlayer) :
  prompt_reachable self -> reachable self.
Proof.
  induction 1 as [fs scan|self e self' _ IH Hstep]; [apply reach_init|].
  unfold prompt_step in Hstep.
  destruct (step self e) as [self1|x] eqn:Hs; simpl in Hstep; [|discriminate].
  exact (run_started_reachable 2 self1 self' (reach_step _ _ _ IH Hs) Hstep).
Qed.

(** In a session whose threads run at once no two engines ever run: only
    the current track can have a running engine, and no thread is left
    waiting between two events. *)
Lemma prompt_sessions_exclusive (self : MusicPlayer) :
  prompt_reachable self -> exclusive self /\ threads self = [].
Proof.
  intros Hp.
  enough (wf self /\ exclusive self /\ threads self = []) as (_ & H); [exact H|].
  induction Hp as [fs scan|self e self' _ (Hwf & Hex & Hth) Hstep].
  - split; [split; [|split]; simpl; [discriminate | constructor | lia]|].
    split; [|reflexivity]. intros id t Hl. discriminate Hl.
  - exact (prompt_step_settled self e self' Hwf Hex Hth Hstep).
Qed.

(** Two running engines are two engines of the same object. *)
Lemma prompt_sessions_one_engine (self : MusicPlayer) (i j : nat) (ti tj : Track) :
  prompt_reachable self ->
  objects self !! i = Some ti -> running ti ->
  objects self !! j = Some tj -> running tj ->
  i = j.
Proof.
  intros Hp Hi Ri Hj Rj. destruct (prompt_sessions_exclusive self Hp) as [Hex _].
  pose proof (Hex i ti Hi Ri). pose proof (Hex j tj Hj Rj). congruence.
Qed.

(** * Further properties of the engine *)

Lemma sf_read_open (frames : nat) (f : SoundFile) :
  sf_closed f = false ->
  sf_read frames f
  = Ok (take frames (drop (sf_pos f) (sf_frames f)),
        sf_set_pos f (sf_pos f + length (take frames (drop (sf_pos f) (sf_frames f))))).
Proof. intros Hc. unfold sf_read. rewrite Hc. reflexivity. Qed.

Lemma callbacks_cons (self : TrackPlayer) (outdata : block) (frames : nat)
    (reqs : list (block * nat)) :
  callbacks self ((outdata, frames) :: reqs)
  = match cb_raised (callback self outdata frames) with
    | None =>
        (fst (callbacks (cb_player (callback self outdata frames)) reqs),
         cb_outdata (callback self outdata frames)
         :: snd (callbacks (cb_player (callback self outdata frames)) reqs))
    | Some _ =>
        (cb_player (callback self outdata frames),
         [cb_outdata (callback self outdata frames)])
    end.
Proof. reflexivity. Qed.

Lemma np_scale_app (a b : block) (v : Q) :
  np_scale (a ++ b) v = np_scale a v ++ np_scale b v.
Proof. unfold np_scale. apply map_app. Qed.

(** Whatever the branch, row [i] of the block is the frame [i] places after
    the read pointer, scaled. *)
Lemma callback_rows (self : TrackPlayer) (outdata : block) (frames i : nat)
    (row : list Q) :
  paused self = false ->
  sf_closed (sf self) = false ->
  length outdata = frames ->
  i < frames ->
  sf_frames (sf self) !! (sf_pos (sf self) + i) = Some row ->
  cb_outdata (callback self outdata frames) !! i
  = Some (map (fun x => (x * volume self)%Q) row).
Proof.
  intros Hp Hc Hout Hi Hrow.
  pose proof (sf_read_open frames (sf self) Hc) as Hr.
  set (data := take frames (drop (sf_pos (sf self)) (sf_frames (sf self)))) in *.
  assert (data !! i = Some row) as Hdata.
  { unfold data. rewrite lookup_take_lt by exact Hi. rewrite lookup_drop. exact Hrow. }
  assert (np_scale data (volume self) !! i
          = Some (map (fun x => (x * volume self)%Q) row)) as Hscaled.
  { rewrite np_scale_lookup, Hdata. reflexivity. }
  destruct (Nat.lt_ge_cases (length data) frames) as [Hlt|Hge].
  - rewrite (callback_short_read _ _ _ _ _ Hp Hr Hlt). simpl.
    rewrite lookup_app_l; [exact Hscaled|].
    rewrite np_scale_length. exact (lookup_lt_Some _ _ _ Hdata).
  - rewrite (callback_full_read _ _ _ _ _ Hp Hr Hge Hout). simpl. exact Hscaled.
Qed.

(** X1: when the reader of a running, non-paused player still holds at
    least [frames] frames, one callback hands over exactly these frames,
    each sample scaled by the volume, in a block of [frames] rows; it
    starts no thread and raises nothing; the reader and the read cursor
    both end [frames] further, and volume and pause flag are untouched. *)
Theorem callback_full_block (self : TrackPlayer) (outdata : block) (frames : nat) :
  paused self = false ->
  sf_closed (sf self) = false ->
  length outdata = frames ->
  sf_pos (sf self) + frames <= sf_len (sf self) ->
  let r := callback self outdata frames in
  cb_outdata r
  = np_scale (take frames (drop (sf_pos (sf self)) (sf_frames (sf self)))) (volume self) /\
  length (cb_outdata r) = frames /\
  cb_started r = [] /\ cb_raised r = None /\
  sf_pos (sf (cb_player r)) = sf_pos (sf self) + frames /\
  current_frame (cb_player r) = sf_pos (sf self) + frames /\
  volume (cb_player r) = volume self /\ paused (cb_player r) = false /\
  stream (cb_player r) = stream self.
Proof.
  intros Hp Hc Hout Hroom r.
  pose proof (sf_read_open frames (sf self) Hc) as Hr.
  assert (length (take frames (drop (sf_pos (sf self)) (sf_frames (sf self))))
          = frames) as Hlen.
  { rewrite length_take, length_drop. unfold sf_len in Hroom. lia. }
  unfold r. rewrite (callback_full_read _ _ _ _ _ Hp Hr ltac:(lia) Hout).
  simpl. rewrite np_scale_length, Hlen. repeat split; auto.
Qed.

Lemma callback_full_block_witness :
  cb_outdata (callback example_player small_block 2) = [[1 # 4]; [1 # 8]]%Q.
Proof.
  refine (eq_trans (proj1 (callback_full_block example_player small_block 2
                             _ _ _ _)) _).
  - reflexivity.
  - reflexivity.
  - reflexivity.
  - vm_compute. lia.
  - vm_compute. reflexivity.
Defined.

Lemma playback_from (b : nat) (buf : block) (q : nat) :
  0 < b -> length buf = b ->
  forall (self : TrackPlayer) (extra : nat),
    paused self = false ->
    sf_closed (sf self) = false ->
    sf_pos (sf self) <= sf_len (sf self) ->
    (sf_len (sf self) - sf_pos (sf self)) / b = q ->
    let run := callbacks self (repeat (buf, b) (q + 1 + extra)) in
    length (snd run) = q + 1 /\
    concat (snd run)
    = np_scale (drop (sf_pos (sf self)) (sf_frames (sf self))) (volume self)
      ++ np_fill0 (drop ((sf_len (sf self) - sf_pos (sf self)) mod b) buf) /\
    sf_pos (sf (fst run)) = sf_len (sf self) /\
    sf_frames (sf (fst run)) = sf_frames (sf self) /\
    volume (fst run) = volume self.
Proof.
  intros Hb Hbuf. induction q as [|q IH]; intros self extra Hp Hc Hpos Hq.
  - apply Nat.div_small_iff in Hq; [|lia].
    change (0 + 1 + extra) with (S extra). cbn [repeat].
    cbv zeta. rewrite callbacks_cons.
    pose proof (sf_read_open b (sf self) Hc) as Hr.
    assert (take b (drop (sf_pos (sf self)) (sf_frames (sf self)))
            = drop (sf_pos (sf self)) (sf_frames (sf self))) as Htake.
    { apply take_ge. rewrite length_drop. unfold sf_len in Hq. lia. }
    rewrite Htake in Hr.
    assert (length (drop (sf_pos (sf self)) (sf_frames (sf self)))
            = sf_len (sf self) - sf_pos (sf self)) as Hlen
      by (rewrite length_drop; reflexivity).
    rewrite (callback_short_read _ _ _ _ _ Hp Hr ltac:(lia)). cbn [cb_raised cb_outdata cb_player fst snd].
    rewrite Hlen, (Nat.mod_small _ _ Hq). simpl.
    rewrite app_nil_r. repeat split; auto. lia.
  - assert (b <= sf_len (sf self) - sf_pos (sf self)) as Hroom.
    { destruct (Nat.lt_ge_cases (sf_len (sf self) - sf_pos (sf self)) b) as [Hlt|Hge];
        [|exact Hge].
      rewrite (Nat.div_small _ _ Hlt) in Hq. discriminate. }
    change (S q + 1 + extra) with (S (q + 1 + extra)). cbn [repeat].
    cbv zeta. rewrite callbacks_cons.
    pose proof (sf_read_open b (sf self) Hc) as Hr.
    assert (length (take b (drop (sf_pos (sf self)) (sf_frames (sf self)))) = b)
      as Hlen.
    { rewrite length_take, length_drop. unfold sf_len in Hroom. lia. }
    rewrite Hlen in Hr.
    rewrite (callback_full_read _ _ _ _ _ Hp Hr ltac:(lia) Hbuf).
    cbn [cb_raised cb_outdata cb_player].
    set (next := set_current_frame _ _).
    assert ((sf_len (sf next) - sf_pos (sf next)) / b = q) as Hq'.
    { unfold next, sf_len. simpl. unfold sf_len in Hq, Hroom.
      replace (length (sf_frames (sf self)) - sf_pos (sf self))
        with (length (sf_frames (sf self)) - (sf_pos (sf self) + b) + 1 * b)
        in Hq by lia.
      rewrite Nat.div_add in Hq by lia. lia. }
    destruct (IH next extra) as (H1 & H2 & H3 & H4 & H5);
      [exact Hp | exact Hc | unfold next, sf_len in *; simpl; lia | exact Hq' |].
    cbn [fst snd]. cbn [length concat]. rewrite H1, H2, H3, H4, H5.
    unfold next, sf_len. simpl. fold (sf_len (sf self)).
    split; [lia|]. split; [|auto].
    rewrite app_assoc, <- np_scale_app.
    rewrite <- drop_drop, take_drop. f_equal. f_equal. f_equal.
    unfold sf_len in Hroom |- *. symmetry.
    replace (length (sf_frames (sf self)) - sf_pos (sf self))
      with (length (sf_frames (sf self)) - (sf_pos (sf self) + b) + 1 * b) by lia.
    apply Nat.Div0.mod_add.
Qed.

(** X2: a running, non-paused player asked for blocks of [b] frames plays
    its file to the end: the blocks handed to the device, one after the
    other, are the frames from the read pointer to the end of the file, in
    order and each exactly once, scaled by the volume, followed by silence
    up to the end of the last block; the stream ends with the block
    number [rest / b + 1], however many more are requested, and leaves the
    reader at the end of the file. *)
Theorem playback_emits_whole_file (self : TrackPlayer) (buf : block) (b extra : nat) :
  paused self = false ->
  sf_closed (sf self) = false ->
  0 < b -> length buf = b ->
  sf_pos (sf self) <= sf_len (sf self) ->
  let rest := sf_len (sf self) - sf_pos (sf self) in
  let run := callbacks self (repeat (buf, b) (rest / b + 1 + extra)) in
  length (snd run) = rest / b + 1 /\
  concat (snd run)
  = np_scale (drop (sf_pos (sf self)) (sf_frames (sf self))) (volume self)
    ++ np_fill0 (drop (rest mod b) buf) /\
  sf_pos (sf (fst run)) = sf_len (sf self).
Proof.
  intros Hp Hc Hb Hbuf Hpos rest run.
  destruct (playback_from b buf (rest / b) Hb Hbuf self extra Hp Hc Hpos eq_refl)
    as (H1 & H2 & H3 & _).
  auto.
Qed.

Lemma playback_emits_whole_file_witness :
  concat (snd (callbacks example_player (repeat (small_block, 2) 5)))
  = [[1 # 4]; [1 # 8]; [-1 # 4]; [0]]%Q.
Proof.
  refine (eq_trans (proj1 (proj2 (playback_emits_whole_file example_player
                                    small_block 2 3 _ _ _ _ _))) _).
  - reflexivity.
  - reflexivity.
  - lia.
  - reflexivity.
  - vm_compute. lia.
  - vm_compute. reflexivity.
Defined.

(** The float nearest to 3/44100 times 44100 is 3: [seek] goes to frame 3,
    where the exact product of that float and the rate is below 3. *)
Example seek_frame_rounds_product :
  round64 (3 # 44100) = Finite (5019522196927769 # 73786976294838206464) /\
  seek_frame example_player (Finite (5019522196927769 # 73786976294838206464))
  = Ok 3%Z /\
  py_int ((5019522196927769 # 73786976294838206464) * 44100) = 2%Z.
Proof. vm_compute. repeat split. Qed.

(** X3: after [seek(seconds)] on a non-paused player, the next callback
    plays from the target of the seek: with [frame] the value of
    [int(seconds * samplerate)], the product taken in float arithmetic,
    row [i] of the block is the frame [i] places after [frame] clamped to
    the file, scaled by the volume. *)
Theorem seek_then_callback_reads_from_target (self : TrackPlayer)
    (seconds : float64) (frame : Z) (outdata : block) (frames i : nat)
    (row : list Q) :
  paused self = false ->
  sf_closed (sf self) = false ->
  length outdata = frames ->
  i < frames ->
  seek_frame self seconds = Ok frame ->
  sf_frames (sf self)
    !! (Z.to_nat (clamp frame 0 (Z.of_nat (sf_len (sf self)))) + i) = Some row ->
  exists self',
    seek self seconds = Ok self' /\
    sf_pos (sf self') = Z.to_nat (clamp frame 0 (Z.of_nat (sf_len (sf self)))) /\
    cb_outdata (callback self' outdata frames) !! i
    = Some (map (fun x => (x * volume self)%Q) row).
Proof.
  intros Hp Hc Hout Hi Hf Hrow.
  assert (np_clip_int frame 0 (Z.of_nat (sf_len (sf self)))
          = clamp frame 0 (Z.of_nat (sf_len (sf self)))) as Hclip
    by (unfold np_clip_int, clamp; lia).
  rewrite (seek_open self seconds Hc), Hf. cbn [rbind]. rewrite Hclip.
  eexists. split; [reflexivity|]. split; [reflexivity|].
  match goal with
  | |- cb_outdata (callback ?s _ _) !! _ = _ =>
      change (volume self) with (volume s);
      apply (callback_rows s outdata frames i row); auto
  end.
Qed.

Lemma seek_then_callback_reads_from_target_witness :
  exists self',
    seek example_player (Finite (6692696262570359 # 147573952589676412928))
    = Ok self' /\
    cb_outdata (callback self' small_block 2) !! 0 = Some [-1 # 4]%Q.
Proof.
  destruct (seek_then_callback_reads_from_target example_player
              (Finite (6692696262570359 # 147573952589676412928)) 2
              small_block 2 0 [-1 # 2]%Q) as (self' & Hs & _ & Hrow).
  - reflexivity.
  - reflexivity.
  - reflexivity.
  - lia.
  - vm_compute. reflexivity.
  - vm_compute. reflexivity.
  - exists self'. split; [exact Hs|]. rewrite Hrow. vm_compute. reflexivity.
Defined.

(** * Further properties of a session *)

(** ** What every object of a session keeps

    A property of [Track] objects that holds of a freshly prepared track
    and that every method keeps holds of every object of every session. *)
Section ObjectInvariant.

Variable P : Track -> Prop.

Hypothesis P_new : forall fs p t0 v t1,
  Track_init fs p = Ok t0 ->
  Track_set_volume t0 v = Ok t1 ->
  P (set_player t1 (set_finished_callback (player t1) (Some (on_finished p)))).
Hypothesis P_pause : forall t, P t -> P (Track_pause t).
Hypothesis P_resume : forall t, P t -> P (Track_resume t).
Hypothesis P_play : forall t, P t -> P (Track_play t).
Hypothesis P_set_volume : forall t v t',
  P t -> Track_set_volume t v = Ok t' -> P t'.
Hypothesis P_seek : forall t s t', P t -> Track_seek t s = Ok t' -> P t'.
Hypothesis P_stop : forall t t', P t -> Track_stop t = Ok t' -> P t'.
Hypothesis P_callback : forall t outdata frames,
  P t ->
  P (set_player t (cb_player (callback (player t) outdata frames))) /\
  P (set_player t (set_stream (cb_player (callback (player t) outdata frames))
                              (Some Finished))).

Lemma all_set_object (self : MusicPlayer) (id : nat) (t : Track) :
  Forall P (objects self) -> P t -> Forall P (objects (set_object self id t)).
Proof. intros Hall Ht. apply Forall_insert; assumption. Qed.

Lemma all_lookup (self : MusicPlayer) (id : nat) (t : Track) :
  Forall P (objects self) -> objects self !! id = Some t -> P t.
Proof. intros Hall Hl. exact (proj1 (Forall_lookup P _) Hall id t Hl). Qed.

Lemma stop_current_all (self self1 : MusicPlayer) :
  Forall P (objects self) -> stop_current self = Ok self1 -> Forall P (objects self1).
Proof.
  intros Hall. unfold stop_current.
  destruct (current_track self) as [id|]; [|returned; exact Hall].
  destruct (objects self !! id) as [t|] eqn:Hl; [|returned; exact Hall].
  destruct (Track_stop t) as [t'|x] eqn:Hs; cbn [rbind]; [|discriminate].
  returned. apply all_set_object; [exact Hall|].
  exact (P_stop t t' (all_lookup _ _ _ Hall Hl) Hs).
Qed.

Lemma play_track_all (self : MusicPlayer) (p : string) (self' : MusicPlayer) :
  Forall P (objects self) -> play_track self p = Ok self' -> Forall P (objects self').
Proof.
  intros Hall. unfold play_track.
  destruct (stop_current self) as [self1|x] eqn:Hs; cbn [rbind]; [|discriminate].
  pose proof (stop_current_all _ _ Hall Hs) as Hall1.
  unfold start_track.
  destruct (Track_init (music_dir self1) p) as [t0|x] eqn:Hi; cbn [rbind];
    [|returned; exact Hall1].
  destruct (Track_set_volume t0 (current_volume self1)) as [t1|x] eqn:Hv;
    cbn [rbind]; [|returned; exact Hall1].
  returned. simpl. apply Forall_app. split; [exact Hall1|].
  constructor; [|constructor]. exact (P_new _ _ _ _ _ Hi Hv).
Qed.

Lemma on_track_finished_all (self : MusicPlayer) (p : string) (self' : MusicPlayer) :
  Forall P (objects self) -> on_track_finished self p = Ok self' -> Forall P (objects self').
Proof.
  intros Hall. unfold on_track_finished.
  destruct (String.eqb (loop_mode self) "song"); [apply play_track_all; exact Hall|].
  destruct (String.eqb (loop_mode self) "list"); [|returned; exact Hall].
  destruct (py_index (track_list self) p) as [idx|x] eqn:Hi; cbn [rbind].
  - destruct (py_mod (idx + 1) (length (track_list self))) as [n|x];
      cbn [rbind]; [|destruct x; cbn; try discriminate; returned; exact Hall].
    destruct (py_getitem (track_list self) n) as [next|x];
      cbn [rbind]; [|destruct x; cbn; try discriminate; returned; exact Hall].
    destruct (play_track self next) as [s|x] eqn:Hp;
      [|destruct x; cbn; try discriminate; returned; exact Hall].
    cbn. returned. exact (play_track_all _ _ _ Hall Hp).
  - destruct x; cbn; try discriminate. returned. exact Hall.
Qed.

Lemma step_all (self : MusicPlayer) (e : Event) (self' : MusicPlayer) :
  Forall P (objects self) -> step self e = Ok self' -> Forall P (objects self').
Proof.
  intros Hall. destruct e as [p|v|v|m|scan|fs|k|id outdata frames]; cbn [step].
  - unfold toggle_play.
    destruct (current_track self) as [id|]; [|apply play_track_all; exact Hall].
    destruct (objects self !! id) as [t|] eqn:Hl; [|apply play_track_all; exact Hall].
    destruct (String.eqb (path t) p); [|apply play_track_all; exact Hall].
    pose proof (all_lookup _ _ _ Hall Hl) as Ht.
    destruct (paused (player t)); returned; apply all_set_object; auto.
  - unfold on_volume_change. cbn [current_track objects set_current_volume].
    destruct (current_track self) as [id|]; [|returned; exact Hall].
    destruct (objects self !! id) as [t|] eqn:Hl; [|returned; exact Hall].
    destruct (Track_set_volume t _) as [t'|x] eqn:Hv; cbn [rbind];
      [|discriminate].
    returned. apply (all_set_object (set_current_volume self _)); [exact Hall|].
    exact (P_set_volume _ _ _ (all_lookup _ _ _ Hall Hl) Hv).
  - unfold seek_track.
    destruct (current_track self) as [id|]; [|returned; exact Hall].
    destruct (objects self !! id) as [t|] eqn:Hl; [|returned; exact Hall].
    destruct (py_float (inject_Z v / 1000)) as [fraction|x]; cbn [rbind];
      [|discriminate].
    destruct (Track_seek t _) as [t'|x] eqn:Hs; cbn [rbind]; [|discriminate].
    returned. apply all_set_object; [exact Hall|].
    exact (P_seek _ _ _ (all_lookup _ _ _ Hall Hl) Hs).
  - returned. exact Hall.
  - returned. exact Hall.
  - returned. exact Hall.
  - unfold run_thread.
    destruct (threads self !! k) as [[id|[p]]|]; [| |returned; exact Hall].
    + simpl. destruct (objects self !! id) as [t|] eqn:Hl; [|returned; exact Hall].
      returned. apply (all_set_object (set_threads self _)); [exact Hall|].
      apply P_play. exact (all_lookup _ _ _ Hall Hl).
    + apply (on_track_finished_all (set_threads self _)). exact Hall.
  - returned. unfold audio_callback.
    destruct (objects self !! id) as [t|] eqn:Hl; [|exact Hall].
    destruct (stream (player t)) as [[|]|]; try exact Hall.
    destruct (P_callback t outdata frames (all_lookup _ _ _ Hall Hl)) as [H1 H2].
    cbn [fst]. apply (all_set_object self id); [exact Hall|].
    destruct (cb_raised (callback (player t) outdata frames)); assumption.
Qed.

Lemma reachable_all (self : MusicPlayer) : reachable self -> Forall P (objects self).
Proof.
  induction 1 as [fs scan|self e self' _ IH Hstep].
  - constructor.
  - exact (step_all _ _ _ IH Hstep).
Qed.

End ObjectInvariant.

(** ** Readers stay inside their files *)

Lemma callback_keeps_file (self : TrackPlayer) (outdata : block) (frames : nat) :
  sf_frames (sf (cb_player (callback self outdata frames))) = sf_frames (sf self) /\
  samplerate (cb_player (callback self outdata frames)) = samplerate self /\
  volume (cb_player (callback self outdata frames)) = volume self /\
  paused (cb_player (callback self outdata frames)) = paused self /\
  (sf_pos (sf self) <= sf_len (sf self) ->
   sf_pos (sf (cb_player (callback self outdata frames)))
   <= sf_len (sf (cb_player (callback self outdata frames)))).
Proof.
  unfold callback. destruct (paused self) eqn:Hp; simpl; [auto|].
  destruct (sf_read frames (sf self)) as [[data f]|x] eqn:Hr; simpl; [|auto].
  destruct (sf_read_length _ _ _ _ Hr) as (Hlen & Hpos & Hfr & Hopen & _).
  assert (sf_pos (sf self) <= sf_len (sf self) -> sf_pos f <= sf_len f) as Hin.
  { unfold sf_len in *. rewrite Hfr, Hpos, Hlen. lia. }
  destruct (length data <? frames); simpl; [auto|].
  unfold sf_tell. rewrite Hopen. simpl. auto.
Qed.

Lemma Track_seek_keeps (t t' : Track) (seconds : float64) :
  Track_seek t seconds = Ok t' ->
  sf_frames (sf (player t')) = sf_frames (sf (player t)) /\
  samplerate (player t') = samplerate (player t) /\
  duration_seconds t' = duration_seconds t /\
  volume (player t') = volume (player t) /\
  paused (player t') = paused (player t) /\
  sf_pos (sf (player t')) <= sf_len (sf (player t')).
Proof.
  unfold Track_seek, seek, sf_seek, sf_tell.
  destruct (seek_frame (player t) seconds) as [frame0|x]; cbn [rbind];
    [|discriminate].
  destruct (sf_closed (sf (player t))) eqn:Hc; simpl; [discriminate|].
  set (frame := np_clip_int _ _ _).
  destruct ((frame <? 0)%Z || (Z.of_nat (sf_len (sf (player t))) <? frame)%Z) eqn:Hb;
    simpl; [discriminate|].
  rewrite Hc. simpl. returned. simpl.
  apply orb_false_elim in Hb as [H0 H1].
  apply Z.ltb_ge in H0. apply Z.ltb_ge in H1.
  repeat split; auto. unfold sf_len in *. simpl. lia.
Qed.

Lemma Track_stop_keeps (t t' : Track) :
  Track_stop t = Ok t' ->
  sf_frames (sf (player t')) = sf_frames (sf (player t)) /\
  samplerate (player t') = samplerate (player t) /\
  duration_seconds t' = duration_seconds t /\
  volume (player t') = volume (player t) /\
  paused (player t') = paused (player t) /\
  sf_pos (sf (player t')) = 0.
Proof.
  unfold Track_stop. destruct (sf_closed (sf (player t))) eqn:Hc.
  - unfold stop, sf_seek.
    destruct (stream (player t)); simpl; rewrite Hc; discriminate.
  - rewrite (stop_open _ Hc). simpl. returned. simpl. repeat split; auto.
Qed.

Lemma reachable_steady (self : MusicPlayer) :
  reachable self -> Forall track_steady (objects self).
Proof.
  apply reachable_all.
  - intros fs p t0 v t1 Hi Hv.
    destruct (Track_init_ok _ _ _ Hi) as (_ & _ & _ & _ & _ & _ & Hpos & Hd).
    rewrite (Track_set_volume_inv _ _ _ Hv).
    split; simpl; [rewrite Hpos; lia | exact Hd].
  - intros t H. exact H.
  - intros t H. exact H.
  - intros t H. exact H.
  - intros t v t' H Hv. rewrite (Track_set_volume_inv _ _ _ Hv). exact H.
  - intros t s t' [H1 H2] Hs.
    destruct (Track_seek_keeps _ _ _ Hs) as (Hf & Hsr & Hd & _ & _ & Hin).
    split; [exact Hin|]. unfold sf_len in *. rewrite Hd, Hf, Hsr. exact H2.
  - intros t t' [H1 H2] Hs.
    destruct (Track_stop_keeps _ _ Hs) as (Hf & Hsr & Hd & _ & _ & Hpos).
    split; [rewrite Hpos; lia|]. unfold sf_len in *. rewrite Hd, Hf, Hsr. exact H2.
  - intros t outdata frames [H1 H2].
    destruct (callback_keeps_file (player t) outdata frames)
      as (Hf & Hsr & _ & _ & Hin).
    unfold track_steady, sf_len in *. simpl. rewrite Hf in *. rewrite Hsr.
    repeat split; auto.
Qed.

(** X4: in a session the position shown for a track never leaves the
    track: for every object, the read cursor is at most the reader's
    position, which is at most the number of frames of the file; and with a
    positive sample rate [get_position()] returns a time between 0 and the
    duration of the track. *)
Theorem position_within_duration (self : MusicPlayer) (id : nat) (t : Track) :
  reachable self ->
  objects self !! id = Some t ->
  current_frame (player t) <= sf_pos (sf (player t)) /\
  sf_pos (sf (player t)) <= sf_len (sf (player t)) /\
  ((0 < samplerate (player t))%Z ->
   exists pos, get_position t = Ok pos /\
               (0 <= pos)%Q /\ (pos <= duration_seconds t)%Q).
Proof.
  intros Hreach Hl.
  pose proof (wf_lookup _ _ _ (reachable_wf _ Hreach) Hl) as (_ & _ & _ & Hcur).
  pose proof (proj1 (Forall_lookup _ _) (reachable_steady _ Hreach) id t Hl)
    as [Hin Hd].
  split; [exact Hcur|]. split; [exact Hin|]. intros Hsr.
  unfold get_position, py_truediv.
  assert ((samplerate (player t) =? 0)%Z = false) as -> by (apply Z.eqb_neq; lia).
  eexists. split; [reflexivity|]. rewrite Hd.
  assert (0 < inject_Z (samplerate (player t)))%Q as HsrQ
    by (unfold Qlt; simpl; lia).
  split.
  - apply Qle_shift_div_l; [exact HsrQ|]. unfold Qle. simpl. lia.
  - apply Qle_shift_div_r; [exact HsrQ|].
    unfold Qdiv. rewrite <- Qmult_assoc, (Qmult_comm (/ _)), Qmult_inv_r, Qmult_1_r.
    + unfold Qle. simpl. lia.
    + intros E. rewrite E in HsrQ. exact (Qlt_irrefl _ HsrQ).
Qed.

Lemma position_within_duration_witness :
  current_frame (player example_track) <= sf_pos (sf (player example_track)).
Proof.
  exact (proj1 (position_within_duration example_session 0 example_track
                  (session_after_reachable _) ltac:(vm_compute; reflexivity))).
Defined.

(** ** The handlers of a session return *)




(** Outside the range of the slider [seek_track] can raise: the division
    [value / 1000] overflows. *)
Example seek_track_overflow :
  seek_track example_session (10 ^ 400) = Raise OverflowError.
Proof. vm_compute. reflexivity. Qed.

(** ** The gain follows the volume setting *)

Lemma volume_synced_set_object (self : MusicPlayer) (id : nat) (t' : Track) :
  volume_synced self ->
  (forall t, objects self !! id = Some t -> volume (player t') = volume (player t)) ->
  volume_synced (set_object self id t').
Proof.
  intros Hsync Hvol j tj Hcur Hj. simpl in *.
  destruct (decide (id = j)) as [->|Hne].
  - destruct (objects self !! j) as [t|] eqn:Hl.
    + rewrite list_lookup_insert_eq in Hj by exact (lookup_lt_Some _ _ _ Hl).
      injection Hj as <-. rewrite (Hvol t eq_refl). exact (Hsync j t Hcur Hl).
    + rewrite list_insert_ge in Hj by (apply lookup_ge_None; exact Hl).
      congruence.
  - rewrite list_lookup_insert_ne in Hj by exact Hne. exact (Hsync j tj Hcur Hj).
Qed.

Lemma stop_current_clears (self self1 : MusicPlayer) :
  stop_current self = Ok self1 ->
  current_track self1 = None /\ current_volume self1 = current_volume self.
Proof.
  unfold stop_current. destruct (current_track self) as [id|] eqn:Hcur.
  - destruct (objects self !! id) as [t|].
    + destruct (Track_stop t); cbn [rbind]; [|discriminate].
      returned. split; reflexivity.
    + returned. split; reflexivity.
  - returned. split; [exact Hcur | reflexivity].
Qed.

Lemma play_track_volume_synced (self : MusicPlayer) (p : string) (self' : MusicPlayer) :
  play_track self p = Ok self' -> volume_synced self'.
Proof.
  unfold play_track.
  destruct (stop_current self) as [self1|x] eqn:Hs; cbn [rbind]; [|discriminate].
  destruct (stop_current_clears _ _ Hs) as [Hnone _].
  unfold start_track.
  assert (volume_synced (print self1 (failed_to_play p SoundFileError)) /\
          forall e, volume_synced (print self1 (failed_to_play p e)))
    as [_ Hfailed].
  { split; [|intros e]; intros id t Hcur; simpl in Hcur; congruence. }
  destruct (Track_init (music_dir self1) p) as [t0|x]; cbn [rbind];
    [|returned; apply Hfailed].
  destruct (Track_set_volume t0 (current_volume self1)) as [t1|x] eqn:Hv;
    cbn [rbind]; [|returned; apply Hfailed].
  returned. intros id t Hcur Hl. simpl in *. injection Hcur as <-.
  rewrite list_lookup_middle in Hl by reflexivity. injection Hl as <-.
  rewrite (Track_set_volume_inv _ _ _ Hv). reflexivity.
Qed.

Lemma on_track_finished_volume_synced (self : MusicPlayer) (p : string)
    (self' : MusicPlayer) :
  volume_synced self -> on_track_finished self p = Ok self' -> volume_synced self'.
Proof.
  intros Hsync. unfold on_track_finished.
  destruct (String.eqb (loop_mode self) "song");
    [apply play_track_volume_synced|].
  destruct (String.eqb (loop_mode self) "list").
  - destruct (py_index (track_list self) p) as [idx|x]; cbn [rbind];
      [|destruct x; cbn; try discriminate; returned; exact Hsync].
    destruct (py_mod (idx + 1) (length (track_list self))) as [n|x];
      cbn [rbind]; [|destruct x; cbn; try discriminate; returned; exact Hsync].
    destruct (py_getitem (track_list self) n) as [next|x];
      cbn [rbind]; [|destruct x; cbn; try discriminate; returned; exact Hsync].
    destruct (play_track self next) as [s|x] eqn:Hp;
      [|destruct x; cbn; try discriminate; returned; exact Hsync].
    cbn. returned. exact (play_track_volume_synced _ _ _ Hp).
  - returned. intros id t Hcur. simpl in Hcur. discriminate.
Qed.

Lemma step_volume_synced (self : MusicPlayer) (e : Event) (self' : MusicPlayer) :
  volume_synced self -> step self e = Ok self' -> volume_synced self'.
Proof.
  intros Hsync. destruct e as [p|v|v|m|scan|fs|k|id outdata frames]; cbn [step].
  - unfold toggle_play.
    destruct (current_track self) as [id|]; [|apply play_track_volume_synced].
    destruct (objects self !! id) as [t|] eqn:Hl; [|apply play_track_volume_synced].
    destruct (String.eqb (path t) p); [|apply play_track_volume_synced].
    destruct (paused (player t)); returned;
      apply volume_synced_set_object; auto; intros t1 Ht1;
      rewrite Hl in Ht1; injection Ht1 as <-; reflexivity.
  - unfold on_volume_change. cbn [current_track objects set_current_volume].
    destruct (current_track self) as [id|] eqn:Hcur.
    + destruct (objects self !! id) as [t|] eqn:Hl.
      * destruct (Track_set_volume t _) as [t'|x] eqn:Hv; cbn [rbind];
          [|discriminate].
        returned. intros j tj Hj Hlj. simpl in *.
        rewrite Hcur in Hj. injection Hj as <-.
        rewrite list_lookup_insert_eq in Hlj by exact (lookup_lt_Some _ _ _ Hl).
        injection Hlj as <-. rewrite (Track_set_volume_inv _ _ _ Hv). reflexivity.
      * returned. intros j tj Hj Hlj. simpl in *. congruence.
    + returned. intros j tj Hj. simpl in Hj. congruence.
  - unfold seek_track.
    destruct (current_track self) as [id|]; [|returned; exact Hsync].
    destruct (objects self !! id) as [t|] eqn:Hl; [|returned; exact Hsync].
    destruct (py_float (inject_Z v / 1000)) as [fraction|x]; cbn [rbind];
      [|discriminate].
    destruct (Track_seek t _) as [t'|x] eqn:Hs; cbn [rbind]; [|discriminate].
    returned. apply volume_synced_set_object; [exact Hsync|].
    intros t1 Ht1. rewrite Hl in Ht1. injection Ht1 as <-.
    destruct (Track_seek_keeps _ _ _ Hs) as (_ & _ & _ & Hv & _). exact Hv.
  - returned. exact Hsync.
  - returned. exact Hsync.
  - returned. exact Hsync.
  - unfold run_thread.
    destruct (threads self !! k) as [[id|[p]]|]; [| |returned; exact Hsync].
    + simpl. destruct (objects self !! id) as [t|] eqn:Hl; [|returned; exact Hsync].
      returned. apply (volume_synced_set_object (set_threads self _)); [exact Hsync|].
      simpl. intros t1 Ht1. rewrite Hl in Ht1. injection Ht1 as <-. reflexivity.
    + apply (on_track_finished_volume_synced (set_threads self _)). exact Hsync.
  - returned. unfold audio_callback.
    destruct (objects self !! id) as [t|] eqn:Hl; [|exact Hsync].
    destruct (stream (player t)) as [[|]|]; try exact Hsync.
    cbn [fst]. intros j tj Hcur Hj.
    refine (volume_synced_set_object self id _ Hsync _ j tj Hcur Hj).
    intros t1 Ht1. rewrite Hl in Ht1. injection Ht1 as <-.
    destruct (callback_keeps_file (player t) outdata frames) as (_ & _ & Hv & _).
    destruct (cb_raised (callback (player t) outdata frames)); exact Hv.
Qed.

Lemma reachable_volume_synced (self : MusicPlayer) :
  reachable self -> volume_synced self.
Proof.
  induction 1 as [fs scan|self e self' _ IH Hstep].
  - intros id t Hcur. discriminate.
  - exact (step_volume_synced _ _ _ IH Hstep).
Qed.

(** X6: in a session the gain of the current track is always the one the
    volume setting asks for, [clamp(current_volume, 0, 100) / 100], a
    number between 0 and 1: a volume change reaches the track that plays,
    a track started later starts at the volume set before, and no seek,
    pause, callback or thread changes it. *)
Theorem gain_follows_volume_setting (self : MusicPlayer) (id : nat) (t : Track) :
  reachable self ->
  current_track self = Some id ->
  objects self !! id = Some t ->
  (volume (player t) == inject_Z (clamp (current_volume self) 0 100) / 100)%Q /\
  (0 <= volume (player t) <= 1)%Q.
Proof.
  intros Hreach Hcur Hl.
  rewrite (reachable_volume_synced self Hreach id t Hcur Hl).
  apply np_clip_percent.
Qed.

Lemma gain_follows_volume_setting_witness :
  (0 <= volume (player example_track) <= 1)%Q.
Proof.
  exact (proj2 (gain_follows_volume_setting example_session 0 example_track
                  (session_after_reachable _)
                  ltac:(vm_compute; reflexivity) ltac:(vm_compute; reflexivity))).
Defined.

(** ** The play button of the current row *)

Lemma set_objects_same (self : MusicPlayer) : set_objects self (objects self) = self.
Proof. destruct self; reflexivity. Qed.

Lemma set_paused_same (pl : TrackPlayer) : set_paused pl (paused pl) = pl.
Proof. destruct pl; reflexivity. Qed.

Lemma set_player_same (t : Track) : set_player t (player t) = t.
Proof. destruct t; reflexivity. Qed.

Lemma set_object_twice (self : MusicPlayer) (id : nat) (t1 t2 : Track) :
  set_object (set_object self id t1) id t2 = set_object self id t2.
Proof. unfold set_object. simpl. rewrite list_insert_insert_eq. reflexivity. Qed.

Lemma set_object_same (self : MusicPlayer) (id : nat) (t : Track) :
  objects self !! id = Some t -> set_object self id t = self.
Proof.
  intros Hl. unfold set_object. rewrite (list_insert_id _ _ _ Hl).
  apply set_objects_same.
Qed.

Lemma pause_resume_back (t : Track) :
  paused (player t) = true -> Track_pause (Track_resume t) = t.
Proof.
  destruct t as [pa pl du]. destruct pl. simpl. intros ->. reflexivity.
Qed.

Lemma resume_pause_back (t : Track) :
  paused (player t) = false -> Track_resume (Track_pause t) = t.
Proof.
  destruct t as [pa pl du]. destruct pl. simpl. intros ->. reflexivity.
Qed.

(** X7: the play button of the row of the current track only toggles the
    pause flag: pressing it neither restarts the track nor moves the
    reader, the read cursor, the stream or the volume, it creates no object
    and starts no thread; and pressing it a second time gives back the
    session as it was before the first press. *)
Theorem toggle_play_twice (self : MusicPlayer) (id : nat) (t : Track) (p : string) :
  current_track self = Some id ->
  objects self !! id = Some t ->
  path t = p ->
  exists self1 t1,
    toggle_play self p = Ok self1 /\
    objects self1 !! id = Some t1 /\
    paused (player t1) = negb (paused (player t)) /\
    (sf (player t1) = sf (player t) /\
     current_frame (player t1) = current_frame (player t) /\
     stream (player t1) = stream (player t) /\
     volume (player t1) = volume (player t)) /\
    (current_track self1 = Some id /\
     length (objects self1) = length (objects self) /\
     threads self1 = threads self /\ stdout self1 = stdout self) /\
    toggle_play self1 p = Ok self.
Proof.
  intros Hcur Hl Hp.
  pose proof (lookup_lt_Some _ _ _ Hl) as Hid.
  assert (String.eqb (path t) p = true) as He by (apply String.eqb_eq; exact Hp).
  assert (forall t1, path t1 = path t ->
            toggle_play (set_object self id t1) p
            = Ok (set_object self id
                    (if paused (player t1) then Track_resume t1 else Track_pause t1)))
    as Hagain.
  { intros t1 Hp1. unfold toggle_play.
    cbn [current_track set_object set_objects objects]. rewrite Hcur.
    rewrite list_lookup_insert_eq by exact Hid. rewrite Hp1, He.
    destruct (paused (player t1)); f_equal; apply (set_object_twice self id). }
  unfold toggle_play at 1. rewrite Hcur, Hl, He.
  destruct (paused (player t)) eqn:Hpa.
  - exists (set_object self id (Track_resume t)), (Track_resume t).
    split; [reflexivity|].
    split; [simpl; apply list_lookup_insert_eq; exact Hid|].
    split; [reflexivity|]. split; [auto|].
    split; [simpl; rewrite length_insert; auto|].
    rewrite (Hagain (Track_resume t) eq_refl). cbn [paused player Track_resume set_player resume set_paused].
    rewrite (pause_resume_back t Hpa). f_equal. exact (set_object_same self id t Hl).
  - exists (set_object self id (Track_pause t)), (Track_pause t).
    split; [reflexivity|].
    split; [simpl; apply list_lookup_insert_eq; exact Hid|].
    split; [reflexivity|]. split; [auto|].
    split; [simpl; rewrite length_insert; auto|].
    rewrite (Hagain (Track_pause t) eq_refl). cbn [paused player Track_pause set_player pause set_paused].
    rewrite (resume_pause_back t Hpa). f_equal. exact (set_object_same self id t Hl).
Qed.

Lemma toggle_play_twice_witness :
  exists self1,
    toggle_play example_session "C" = Ok self1 /\
    toggle_play self1 "C" = Ok example_session.
Proof.
  destruct (toggle_play_twice example_session 0 example_track "C")
    as (self1 & t1 & H1 & _ & _ & _ & _ & H2).
  - vm_compute. reflexivity.
  - vm_compute. reflexivity.
  - reflexivity.
  - exists self1. split; assumption.
Defined.

(** ** Loop modes song and none *)

(** X8: in loop mode song the completion of a track whose file can still
    be opened replays it from the start: the handler makes a new object
    for the same path current, with reader and read cursor at frame 0, not
    paused and without a stream yet, starts the one thread that will start
    its engine, and leaves the object that was current without a
    stream. *)
Theorem loop_song_restarts_track (self : MusicPlayer) (p : string) (t0 : Track) :
  reachable self ->
  loop_mode self = "song" ->
  Track_init (music_dir self) p = Ok t0 ->
  exists self' t,
    on_track_finished self p = Ok self' /\
    current_track self' = Some (length (objects self)) /\
    objects self' !! length (objects self) = Some t /\
    path t = p /\
    (sf_pos (sf (player t)) = 0 /\ current_frame (player t) = 0 /\
     paused (player t) = false /\ stream (player t) = None) /\
    threads self' = threads self ++ [target_play (length (objects self))] /\
    stdout self' = stdout self /\
    (forall id told,
       current_track self = Some id -> objects self !! id = Some told ->
       exists t', objects self' !! id = Some t' /\ stream (player t') = None).
Proof.
  intros Hreach Hm Hinit. pose proof (reachable_wf _ Hreach) as Hwf.
  destruct (stop_current_ok self Hwf)
    as (self1 & Hs & Hwf1 & _ & Hth1 & Hout1 & Hdir1 & _ & Hlen1 & _).
  destruct (stop_current_stops self self1 Hwf Hs) as [Hprev _].
  destruct (Track_init_ok _ _ _ Hinit) as (Hp & _ & _ & Hst & Hpa & Hcf & Hpos & _).
  unfold on_track_finished. rewrite Hm. simpl.
  unfold play_track. rewrite Hs. cbn [rbind].
  unfold start_track. rewrite Hdir1, Hinit. cbn [rbind].
  rewrite (Track_set_volume_slider _ _ (wf_volume _ Hwf1)). cbn [rbind].
  eexists _, _. split; [reflexivity|]. simpl. rewrite Hlen1, Hth1, Hout1.
  split; [reflexivity|].
  split; [apply list_lookup_middle; lia|].
  split; [exact Hp|]. split; [auto|]. split; [reflexivity|]. split; [reflexivity|].
  intros id told Hc Hl. destruct (Hprev id told Hc Hl) as (t' & _ & Hl' & Hs' & _).
  exists t'. split; [|exact Hs'].
  rewrite lookup_app_l; [exact Hl' | exact (lookup_lt_Some _ _ _ Hl')].
Qed.

Lemma loop_song_restarts_track_witness :
  exists self',
    on_track_finished (set_loop_mode example_session "song") "C" = Ok self' /\
    current_track self' = Some 1.
Proof.
  destruct (loop_song_restarts_track (set_loop_mode example_session "song") "C"
              {| path := "C";
                 player := {| sf := sf (player example_track);
                              samplerate := 44100; channels := 1;
                              stream := None; volume := 1; paused := false;
                              current_frame := 0; finished_callback := None |};
                 duration_seconds := 3 # 44100 |})
    as (self' & t & H1 & H2 & _).
  - exact (reach_step example_session (ev_loop_mode "song") _
             (session_after_reachable _) eq_refl).
  - reflexivity.
  - vm_compute. reflexivity.
  - exists self'. split; [exact H1 | exact H2].
Defined.

(** X9: in a session whose threads run at once and whose loop mode is
    neither song nor list, when the running, non-paused engine reaches the
    end of its file, playback is over once the event is handled: no track
    is current, no engine runs, no thread is waiting, no object was
    created and nothing was printed. *)
Theorem loop_none_ends_playback (self : MusicPlayer) (id : nat) (t : Track)
    (outdata : block) (frames : nat) :
  prompt_reachable self ->
  loop_mode self <> "song" -> loop_mode self <> "list" ->
  objects self !! id = Some t ->
  running t ->
  paused (player t) = false ->
  sf_len (sf (player t)) - sf_pos (sf (player t)) < frames ->
  exists self',
    prompt_step self (ev_audio id outdata frames) = Ok self' /\
    current_track self' = None /\
    no_engine self' /\
    threads self' = [] /\
    length (objects self') = length (objects self) /\
    stdout self' = stdout self.
Proof.
  intros Hprompt Hsong Hlist Hl Hrun Hp Hshort.
  destruct (prompt_sessions_exclusive self Hprompt) as [Hex Hth].
  pose proof (reachable_wf _ (prompt_reachable_reachable _ Hprompt)) as Hwf.
  pose proof (wf_lookup _ _ _ Hwf Hl) as (Hc & _ & Hf & _).
  pose proof (lookup_lt_Some _ _ _ Hl) as Hid.
  apply String.eqb_neq in Hsong. apply String.eqb_neq in Hlist.
  pose proof (sf_read_open frames (sf (player t)) Hc) as Hr.
  assert (length (take frames (drop (sf_pos (sf (player t))) (sf_frames (sf (player t)))))
          < frames) as Hlt.
  { rewrite length_take, length_drop. unfold sf_len in Hshort. lia. }
  unfold prompt_step. cbn [step rbind]. unfold audio_callback.
  rewrite Hl, Hrun. rewrite (callback_short_read _ _ _ _ _ Hp Hr Hlt), Hf.
  cbn [cb_raised cb_player cb_started fst map threads set_object set_objects].
  rewrite Hth.
  cbn [app run_started threads set_threads].
  unfold run_thread. cbn [threads set_threads lookup list_lookup delete list_delete].
  cbn [run_target]. unfold on_track_finished.
  cbn [loop_mode set_threads set_object set_objects]. rewrite Hsong, Hlist.
  cbn [rbind run_started threads set_current_track set_threads].
  eexists. split; [reflexivity|].
  split; [reflexivity|]. split; [|split; [reflexivity|split]].
  - intros j tj Hj Hrj. simpl in Hj.
    destruct (decide (id = j)) as [->|Hne].
    + rewrite list_lookup_insert_eq in Hj by exact Hid.
      injection Hj as <-. discriminate Hrj.
    + rewrite list_lookup_insert_ne in Hj by exact Hne.
      pose proof (Hex j tj Hj Hrj). pose proof (Hex id t Hl Hrun). congruence.
  - simpl. apply length_insert.
  - reflexivity.
Qed.

(** ** Closing the window *)

(** X10: in a session whose threads run at once, closing the window
    returns normally and silences the program: afterwards no engine runs,
    and no request of the audio subsystem reaches a callback. *)
Theorem close_stops_all_audio (self : MusicPlayer) :
  prompt_reachable self ->
  exists self',
    closeEvent self = Ok self' /\
    no_engine self' /\
    forall id outdata frames,
      audio_callback self' id outdata frames = (self', outdata).
Proof.
  intros Hprompt.
  destruct (prompt_sessions_exclusive self Hprompt) as [Hex _].
  pose proof (reachable_wf _ (prompt_reachable_reachable _ Hprompt)) as Hwf.
  assert (forall s, no_engine s ->
            forall id outdata frames, audio_callback s id outdata frames = (s, outdata))
    as Hsilent.
  { intros s Hq id outdata frames. unfold audio_callback.
    destruct (objects s !! id) as [t|] eqn:Hl; [|reflexivity].
    destruct (stream (player t)) as [[|]|] eqn:Hst; try reflexivity.
    destruct (Hq id t Hl Hst). }
  unfold closeEvent. destruct (current_track self) as [id|] eqn:Hcur.
  - destruct (objects self !! id) as [t|] eqn:Hl.
    + destruct (Track_stop_ok t (wf_lookup _ _ _ Hwf Hl))
        as (t' & -> & _ & _ & Hst & _).
      cbn [rbind]. eexists. split; [reflexivity|].
      assert (no_engine (set_object self id t')) as Hq.
      { intros j tj Hj Hrj. simpl in Hj.
        destruct (decide (id = j)) as [->|Hne].
        - rewrite list_lookup_insert_eq in Hj by exact (lookup_lt_Some _ _ _ Hl).
          injection Hj as <-. unfold running in Hrj. congruence.
        - rewrite list_lookup_insert_ne in Hj by exact Hne.
          pose proof (Hex j tj Hj Hrj). congruence. }
      split; [exact Hq | exact (Hsilent _ Hq)].
    + destruct Hwf as [Hlt _]. specialize (Hlt id Hcur).
      apply lookup_ge_None in Hl. lia.
  - exists self. split; [reflexivity|].
    assert (no_engine self) as Hq.
    { intros j tj Hj Hrj. pose proof (Hex j tj Hj Hrj). congruence. }
    split; [exact Hq | exact (Hsilent _ Hq)].
Qed.

Lemma prompt_session_reachable : prompt_reachable prompt_session.
Proof.
  unfold prompt_session.
  destruct (prompt_step (MusicPlayer_init example_dir ["A"; "B"; "C"])
              (ev_toggle_play "C")) as [s|x] eqn:H.
  - exact (prompt_next _ _ _ (prompt_init _ _) H).
  - apply prompt_init.
Qed.

Lemma loop_none_ends_playback_witness :
  exists self',
    prompt_step prompt_session (ev_audio 0 example_block blocksize) = Ok self' /\
    current_track self' = None.
Proof.
  destruct (loop_none_ends_playback prompt_session 0 example_track
              example_block blocksize) as (self' & H1 & H2 & _).
  - apply prompt_session_reachable.
  - vm_compute. discriminate.
  - vm_compute. discriminate.
  - vm_compute. reflexivity.
  - reflexivity.
  - reflexivity.
  - vm_compute. lia.
  - exists self'. split; assumption.
Defined.

Lemma close_stops_all_audio_witness :
  exists self', closeEvent prompt_session = Ok self' /\ no_engine self'.
Proof.
  destruct (close_stops_all_audio prompt_session prompt_session_reachable)
    as (self' & H1 & H2 & _).
  exists self'. split; assumption.
Defined.

(** * Properties of the window around the engine *)

(** ** Floors *)

Lemma py_int_Qfloor (x : Q) : (0 <= x)%Q -> py_int x = Qfloor x.
Proof.
  destruct x as [n d]. unfold py_int, Qfloor, Qle. simpl. intros Hn.
  apply Z.quot_div_nonneg; lia.
Qed.

Lemma py_int_inject_Z (z : Z) : py_int (inject_Z z) = z.
Proof. unfold py_int, inject_Z. simpl. apply Z.quot_1_r. Qed.

Lemma Qfloor_spec (x : Q) (z : Z) :
  (inject_Z z <= x)%Q -> (x < inject_Z (z + 1))%Q -> Qfloor x = z.
Proof.
  intros Hlo Hhi. apply Z.le_antisymm.
  - pose proof (Qfloor_le x) as Hf.
    pose proof (Qle_lt_trans _ _ _ Hf Hhi) as Hlt.
    rewrite <- Zlt_Qlt in Hlt. lia.
  - rewrite <- (Qfloor_Z z). apply Qfloor_resp_le. exact Hlo.
Qed.

(** ** Time labels *)

(** X11: the minutes and seconds the program shows for a time of [d]
    seconds, [int(d // 60)] and [int(d % 60)], split the whole seconds of
    [d]: for [d] not negative the seconds lie between 0 and 59 and sixty
    times the minutes plus the seconds is [d] rounded down. *)
Theorem time_label_splits_seconds (d : Q) :
  (0 <= d)%Q ->
  (0 <= fst (minutes_seconds d))%Z /\
  (0 <= snd (minutes_seconds d) <= 59)%Z /\
  (60 * fst (minutes_seconds d) + snd (minutes_seconds d))%Z = Qfloor d.
Proof.
  intros Hd. unfold minutes_seconds, py_fmod, py_floordiv. cbn [fst snd].
  rewrite py_int_inject_Z.
  set (m := Qfloor (d / inject_Z 60)).
  pose proof (Qfloor_le (d / inject_Z 60)) as Hm1.
  pose proof (Qlt_floor (d / inject_Z 60)) as Hm2.
  fold m in Hm1, Hm2.
  pose proof (Qfloor_le d) as Hf1. pose proof (Qlt_floor d) as Hf2.
  set (f := Qfloor d) in *.
  assert (60 * m <= f /\ f < 60 * m + 60)%Z as [Hlo Hhi].
  { clearbody m f. destruct d as [n dd].
    revert Hm1 Hm2 Hf1 Hf2.
    unfold Qle, Qlt, Qdiv, Qmult, Qinv, inject_Z. simpl.
    intros Hm1 Hm2 Hf1 Hf2. split; nia. }
  assert (Qfloor (d - inject_Z 60 * inject_Z m) = f - 60 * m)%Z as Hs.
  { apply Qfloor_spec.
    - clearbody m f. destruct d as [n dd].
      revert Hf1. unfold Qle, Qminus, Qplus, Qopp, Qmult, inject_Z. simpl.
      intros Hf1. nia.
    - clearbody m f. destruct d as [n dd].
      revert Hf2. unfold Qlt, Qminus, Qplus, Qopp, Qmult, inject_Z. simpl.
      intros Hf2. nia. }
  assert (0 <= m)%Z as Hm0.
  { unfold m. rewrite <- (Qfloor_Z 0). apply Qfloor_resp_le.
    apply Qle_shift_div_l; [unfold Qlt; simpl; lia|].
    unfold Qle in *. simpl in *. lia. }
  rewrite py_int_Qfloor.
  - rewrite Hs. lia.
  - clearbody m f. destruct d as [n dd].
    revert Hm1. unfold Qle, Qminus, Qplus, Qopp, Qdiv, Qmult, Qinv, inject_Z. simpl.
    intros Hm1. nia.
Qed.

Lemma time_label_splits_seconds_witness :
  (0 <= 1255 # 10)%Q /\
  (60 * fst (minutes_seconds (1255 # 10)) + snd (minutes_seconds (1255 # 10)))%Z
  = Qfloor (1255 # 10).
Proof.
  assert (0 <= 1255 # 10)%Q as H by (vm_compute; discriminate).
  split; [exact H|].
  exact (proj2 (proj2 (time_label_splits_seconds (1255 # 10) H))).
Defined.

(** X12: the duration label of a row tells whether the file can be played:
    the row shows [--:--] exactly when creating a [Track] for the same path
    on the same directory raises, which is when [play_track] reports a
    failure; otherwise the label is the time label of the duration the
    track would have. *)
Theorem row_label_tells_playability (fs : gmap string AudioFile) (p : string) :
  (row_time_label fs p = None <-> exists e, Track_init fs p = Raise e) /\
  (forall label, row_time_label fs p = Some label ->
     exists t0, Track_init fs p = Ok t0 /\
                label = minutes_seconds (duration_seconds t0)).
Proof.
  unfold row_time_label, Track_init, TrackPlayer_init, SoundFile_open, py_truediv.
  destruct (fs !! p) as [af|]; cbn [rbind].
  - unfold sf_len. cbn [sf_frames sf_samplerate].
    destruct (Z.eqb (af_samplerate af) 0); cbn [rbind].
    + split; [split; [eauto | reflexivity]|]. intros label H. discriminate.
    + split.
      * split; [discriminate|]. intros [e He]. discriminate.
      * intros label H. injection H as <-. eexists. split; reflexivity.
  - split; [split; [eauto | reflexivity]|]. intros label H. discriminate.
Qed.

(** ** The progress display *)

Lemma py_float_zero (x : Q) : (x == 0)%Q -> py_float x = Ok 0%Q.
Proof. intros H. unfold py_float. rewrite (round64_zero x H). reflexivity. Qed.

Local Open Scope Q_scope.

(** The arithmetic of [update_progress] on a position [p] and a duration
    [d] that are quotients of integers below [2 ^ 53], [p] at most [d]:
    no step overflows or divides by zero, and the float handed to [int] is
    within a tenth of [1000 * p / d]. *)
Lemma progress_chain (p d : Q) :
  0 <= p -> p <= d -> 2 ^ (-53) <= d -> d < 2 ^ 53 ->
  exists A B R V,
    round64 p = Finite A /\ round64 d = Finite B /\ ~ B == 0 /\
    round64 (A / B) = Finite R /\
    round64 (R * 1000) = Finite V /\
    0 <= V /\ Qabs (V - 1000 * (p / d)) <= 1 # 10.
Proof.
  intros Hp0 Hpd Hd0 Hd1.
  pose proof float_overflow_above as Hbig.
  assert (2 < float_overflow) as Hbig2 by (vm_compute; reflexivity).
  assert (1001 < float_overflow) as Hbig3 by (vm_compute; reflexivity).
  assert (2 ^ (-1075) <= 2 ^ (-53) * (1 # 10000000)) as Heps1
    by (vm_compute; discriminate).
  assert (0 < 2 ^ (-1075)) as Heps0 by apply pow2_pos.
  assert (0 < 2 ^ (-53)) as Hu0 by apply pow2_pos.
  assert (2 ^ (-53) <= 1) as Hu1 by (vm_compute; discriminate).
  destruct (round64_close p Hp0 ltac:(lra)) as (A & EA & HA0 & HA1 & HA2).
  destruct (round64_close d ltac:(lra) ltac:(lra)) as (B & EB & HB0 & HB1 & HB2).
  set (eps := 2 ^ (-1075)) in *. set (u := 2 ^ (-53)) in *. set (T := 2 ^ 53) in *.
  clearbody eps u T.
  assert (0 < d) as Hdpos by lra.
  assert (eps <= d * (1 # 10000000)) as Heps by nra.
  assert (0 < B) as HBpos by lra.
  (* the exact ratio *)
  set (x := p / d).
  assert (p == x * d) as Ep by (unfold x; field; lra).
  assert (0 <= x) as Hx0 by (unfold x; apply Qle_shift_div_l; lra).
  assert (x <= 1) as Hx1 by (unfold x; apply Qle_shift_div_r; lra).
  rewrite Ep in HA1, HA2.
  assert (x * d <= d) as Hxd by nra.
  assert (x * eps <= eps) as Hxe by nra.
  (* the float ratio *)
  assert (A / B <= x + (3 # 100000)) as Hq1.
  { apply Qle_shift_div_r; [exact HBpos|].
    assert (0 <= (x + (3 # 100000)) * (B - (d - (d * (1 # 100000) + eps))))
      as Hprod by (apply Qmult_le_0_compat; lra).
    nra. }
  assert (x - (3 # 100000) <= A / B) as Hq2.
  { apply Qle_shift_div_l; [exact HBpos|].
    destruct (Qlt_le_dec x (3 # 100000)) as [Hsmall|Hlarge].
    - assert ((x - (3 # 100000)) * B <= 0) by nra. lra.
    - assert (0 <= (x - (3 # 100000)) * (d + (d * (1 # 100000) + eps) - B))
        as Hprod by (apply Qmult_le_0_compat; lra).
      nra. }
  assert (0 <= A / B) as Hq0 by (apply Qle_shift_div_l; lra).
  destruct (round64_close (A / B) Hq0 ltac:(lra)) as (R & ER & HR0 & HR1 & HR2).
  assert (0 <= R * 1000) as Hy0 by lra.
  destruct (round64_close (R * 1000) Hy0 ltac:(lra)) as (V & EV & HV0 & HV1 & HV2).
  exists A, B, R, V.
  split; [exact EA|]. split; [exact EB|]. split; [lra|].
  split; [exact ER|]. split; [exact EV|]. split; [exact HV0|].
  fold x. apply Qabs_Qle_condition.
  set (q := A / B) in *. clearbody q x. split; lra.
Qed.

(** The arithmetic of [seek_track] and [seek] on the fraction [x] of the
    slider and a duration [d] of [L] frames at [s] frames a second, [L]
    below [2 ^ 43]: no step overflows, and the float handed to [int] is
    within a hundredth of the frame [x * L]. *)
Lemma seek_chain (x d s L : Q) :
  0 <= x -> x <= 1 -> 1 <= s -> s < 2 ^ 53 ->
  0 <= L -> L < 2 ^ 43 -> d * s == L ->
  exists f B T,
    round64 x = Finite f /\ round64 d = Finite B /\
    round64 (f * B) = Finite T /\
    forall rate, rate == s ->
      exists xh,
        round64 (T * rate) = Finite xh /\ 0 <= xh /\
        Qabs (xh - x * L) <= 1 # 100.
Proof.
  intros Hx0 Hx1 Hs1 Hs2 HL0 HL1 Hds.
  assert (2 ^ 53 == 9007199254740992) as E53 by reflexivity.
  assert (2 ^ 43 == 8796093022208) as E43 by reflexivity.
  rewrite E53 in Hs2. rewrite E43 in HL1.
  assert (9007199254740992 < float_overflow) as Hbig
    by (vm_compute; reflexivity).
  assert (0 <= d) as Hd0.
  { assert (d == L / s) as -> by (rewrite <- Hds; field; lra).
    apply Qle_shift_div_l; lra. }
  assert (d <= L) as HdL.
  { assert (0 <= d * (s - 1)) as H by (apply Qmult_le_0_compat; lra).
    assert (d * (s - 1) == d * s - d) as E by ring. lra. }
  assert (0 <= x * d) as Hxd0 by (apply Qmult_le_0_compat; lra).
  assert (x * d <= d) as Hxd.
  { rewrite <- (Qmult_1_l d) at 2. apply Qmult_le_compat_r; lra. }
  assert (0 <= x * L) as HxL0 by (apply Qmult_le_0_compat; lra).
  assert (x * L <= L) as HxL.
  { rewrite <- (Qmult_1_l L) at 2. apply Qmult_le_compat_r; lra. }
  destruct (round64_tight x Hx0 ltac:(lra)) as (f & Ef & Hf0 & Hf1 & Hf2).
  destruct (round64_tight d Hd0 ltac:(lra)) as (B & EB & HB0 & HB1 & HB2).
  destruct (product_close f x B d ((1 # 9007199254740992) + (1 # 1000000000000000000000000000000000000000000000000000000000000)) (d * (1 # 9007199254740992) + (1 # 1000000000000000000000000000000000000000000000000000000000000)) 1
              (d + (d * (1 # 9007199254740992) + (1 # 1000000000000000000000000000000000000000000000000000000000000)))) as [Ht1 Ht2]; try lra.
  assert (0 <= f * B) as Ht0 by (apply Qmult_le_0_compat; assumption).
  destruct (round64_tight (f * B) Ht0 ltac:(lra)) as (T & ET & HT0 & HT1 & HT2).
  exists f, B, T. split; [exact Ef|]. split; [exact EB|]. split; [exact ET|].
  intros rate Erate.
  (* the target in seconds *)
  assert (x * d - ((1 # 2251799813685248) * d + (1 # 1000000000000000000000000000000000000000000000000000000000000) * 4) <= T) as HTa by lra.
  assert (T <= x * d + ((1 # 2251799813685248) * d + (1 # 1000000000000000000000000000000000000000000000000000000000000) * 4)) as HTb by lra.
  (* in frames *)
  assert (T * rate - x * L == s * (T - x * d)) as Ez.
  { rewrite Erate, <- Hds. ring. }
  assert (0 <= T * rate) as Hz0.
  { rewrite Erate. apply Qmult_le_0_compat; lra. }
  assert (s * (T - x * d) <= s * ((1 # 2251799813685248) * d + (1 # 1000000000000000000000000000000000000000000000000000000000000) * 4)) as Hz1.
  { rewrite !(Qmult_comm s). apply Qmult_le_compat_r; lra. }
  assert (- (s * ((1 # 2251799813685248) * d + (1 # 1000000000000000000000000000000000000000000000000000000000000) * 4)) <= s * (T - x * d)) as Hz2.
  { assert (- (s * ((1 # 2251799813685248) * d + (1 # 1000000000000000000000000000000000000000000000000000000000000) * 4))
            == (- ((1 # 2251799813685248) * d + (1 # 1000000000000000000000000000000000000000000000000000000000000) * 4)) * s) as -> by ring.
    rewrite (Qmult_comm s). apply Qmult_le_compat_r; lra. }
  assert (s * ((1 # 2251799813685248) * d + (1 # 1000000000000000000000000000000000000000000000000000000000000) * 4)
          == (1 # 2251799813685248) * L + (1 # 1000000000000000000000000000000000000000000000000000000000000) * 4 * s) as Esc.
  { rewrite <- Hds. ring. }
  destruct (round64_tight (T * rate) Hz0 ltac:(lra))
    as (xh & Exh & Hxh0 & Hxh1 & Hxh2).
  exists xh. split; [exact Exh|]. split; [exact Hxh0|].
  apply Qabs_Qle_condition. split; lra.
Qed.

Local Close Scope Q_scope.

(** What the timer computes for a current track with frames: the slider
    value is [int] of a float within a tenth of [cursor * 1000 / total]. *)
Lemma timer_value (self : MusicPlayer) (id : nat) (t : Track) :
  current_track self = Some id ->
  objects self !! id = Some t ->
  duration_seconds t
  = (inject_Z (Z.of_nat (sf_len (sf (player t)))) / inject_Z (samplerate (player t)))%Q ->
  current_frame (player t) <= sf_len (sf (player t)) ->
  (0 < samplerate (player t))%Z ->
  (samplerate (player t) < 2 ^ 53)%Z ->
  0 < sf_len (sf (player t)) ->
  (Z.of_nat (sf_len (sf (player t))) < 2 ^ 53)%Z ->
  exists pr V,
    update_progress self false = Ok (Some pr) /\
    slider_value pr = Qfloor V /\
    (0 <= V)%Q /\
    (Qabs (V - inject_Z (Z.of_nat (current_frame (player t)) * 1000)
               / inject_Z (Z.of_nat (sf_len (sf (player t))))) <= 1 # 10)%Q.
Proof.
  intros Hcur Hl Hd Hcf Hsr Hrate HL Hfew.
  set (cf := Z.of_nat (current_frame (player t))) in *.
  set (L := Z.of_nat (sf_len (sf (player t)))) in *.
  set (sr := samplerate (player t)) in *.
  assert (0 <= cf <= L)%Z as Hcfz by (unfold cf, L; lia).
  assert (0 < L)%Z as HLz by (unfold L; lia).
  assert (0 < inject_Z sr)%Q as HsrQ by (unfold Qlt; simpl; lia).
  assert (0 < inject_Z L)%Q as HLQ by (unfold Qlt; simpl; lia).
  assert (0 <= inject_Z cf)%Q as HcQ by (unfold Qle; simpl; lia).
  assert (inject_Z cf <= inject_Z L)%Q as HcL by (rewrite <- Zle_Qle; lia).
  assert (inject_Z L < 2 ^ 53)%Q as HLbig.
  { rewrite <- (Zpower_Qpower 2 53) by lia. rewrite <- Zlt_Qlt. exact Hfew. }
  assert (inject_Z sr < 2 ^ 53)%Q as Hsrbig.
  { rewrite <- (Zpower_Qpower 2 53) by lia. rewrite <- Zlt_Qlt. exact Hrate. }
  assert (2 ^ (-53) * 2 ^ 53 == 1)%Q as Hinv by reflexivity.
  assert (0 < 2 ^ (-53))%Q as Hu0 by apply pow2_pos.
  set (p := (inject_Z cf / inject_Z sr)%Q).
  set (d := (inject_Z L / inject_Z sr)%Q).
  assert (1 <= inject_Z L)%Q as HL1.
  { change 1%Q with (inject_Z 1). rewrite <- Zle_Qle. lia. }
  assert (1 <= inject_Z sr)%Q as Hsr1.
  { change 1%Q with (inject_Z 1). rewrite <- Zle_Qle. lia. }
  assert (inject_Z sr <= inject_Z sr * inject_Z L)%Q as Hmul.
  { rewrite <- (Qmult_1_r (inject_Z sr)) at 1.
    rewrite !(Qmult_comm (inject_Z sr)).
    apply Qmult_le_compat_r; [exact HL1 | apply Qlt_le_weak; exact HsrQ]. }
  destruct (progress_chain p d) as (A & B & R & V & EA & EB & HB & ER & EV & HV0 & HV).
  { unfold p. apply Qle_shift_div_l; [exact HsrQ | lra]. }
  { unfold p, d. apply Qle_shift_div_r; [exact HsrQ|].
    assert (inject_Z L / inject_Z sr * inject_Z sr == inject_Z L)%Q as ->
      by (field; lra).
    exact HcL. }
  { unfold d. apply Qle_shift_div_l; [exact HsrQ|].
    set (u := (2 ^ (-53))%Q) in *. set (T := (2 ^ 53)%Q) in *.
    clearbody u T. nra. }
  { unfold d. apply Qlt_shift_div_r; [exact HsrQ|].
    set (T := (2 ^ 53)%Q) in *. clearbody T. nra. }
  unfold update_progress. rewrite Hcur, Hl.
  unfold get_position, py_truediv. fold sr cf.
  assert ((sr =? 0)%Z = false) as -> by (apply Z.eqb_neq; lia).
  cbn [rbind]. rewrite Hd. fold p d.
  unfold py_float. rewrite EA, EB. cbn [rbind].
  unfold py_fdiv.
  assert (Qeq_bool B 0 = false) as ->.
  { destruct (Qeq_bool B 0) eqn:E; [|reflexivity].
    apply Qeq_bool_iff in E. contradiction. }
  cbn [rbind]. rewrite ER. cbn [py_fmul]. rewrite EV. cbn [py_int_float rbind].
  eexists. exists V. split; [reflexivity|]. cbn [slider_value].
  split; [exact (py_int_Qfloor V HV0)|]. split; [exact HV0|].
  assert (1000 * (p / d) == inject_Z (cf * 1000) / inject_Z L)%Q as EX.
  { unfold p, d. rewrite inject_Z_mult. change (inject_Z 1000) with 1000%Q.
    field. split; lra. }
  rewrite <- EX. exact HV.
Qed.

(** An integer within reach of a float is near its floor. *)
Lemma Qfloor_between (V : Q) (lo hi : Z) :
  (inject_Z lo - 1 < V)%Q -> (V < inject_Z hi + 1)%Q ->
  (lo <= Qfloor V + 1)%Z /\ (Qfloor V <= hi)%Z.
Proof.
  intros Hlo Hhi.
  pose proof (Qfloor_le V) as H1. pose proof (Qlt_floor V) as H2.
  rewrite inject_Z_plus in H2. change (inject_Z 1) with 1%Q in H2.
  set (W := Qfloor V) in *. clearbody W.
  assert (inject_Z lo < inject_Z (W + 2))%Q as Ha.
  { rewrite inject_Z_plus. change (inject_Z 2) with 2%Q. lra. }
  assert (inject_Z W < inject_Z (hi + 1))%Q as Hb.
  { rewrite inject_Z_plus. change (inject_Z 1) with 1%Q. lra. }
  rewrite <- Zlt_Qlt in Ha, Hb. lia.
Qed.

(** X13: what the 50 ms timer does for the current track of a session
    (positive sample rate).  Nothing is updated while the user drags the
    slider.  For a file of zero frames the division of the position by the
    zero duration raises [ZeroDivisionError].  For a file that has frames,
    fewer than [2 ^ 53] of them at a sample rate below [2 ^ 53], the timer
    raises nothing and sets the slider to a value between 0 and 1000 that
    is at most one away from [cursor * 1000 // total_frames]: the float
    arithmetic can land one off the integer quotient. *)
Theorem progress_display (self : MusicPlayer) (id : nat) (t : Track) :
  reachable self ->
  current_track self = Some id ->
  objects self !! id = Some t ->
  (0 < samplerate (player t))%Z ->
  update_progress self true = Ok None /\
  (sf_len (sf (player t)) = 0 ->
   update_progress self false = Raise ZeroDivisionError) /\
  (0 < sf_len (sf (player t)) ->
   (Z.of_nat (sf_len (sf (player t))) < 2 ^ 53)%Z ->
   (samplerate (player t) < 2 ^ 53)%Z ->
   exists pr,
     update_progress self false = Ok (Some pr) /\
     (0 <= slider_value pr <= 1000)%Z /\
     (Z.abs (slider_value pr
             - Z.of_nat (current_frame (player t)) * 1000
               / Z.of_nat (sf_len (sf (player t)))) <= 1)%Z).
Proof.
  intros Hreach Hcur Hl Hsr.
  pose proof (wf_lookup _ _ _ (reachable_wf _ Hreach) Hl) as (_ & _ & _ & Hcf).
  pose proof (proj1 (Forall_lookup _ _) (reachable_steady _ Hreach) id t Hl)
    as [Hin Hd].
  split; [|split].
  - unfold update_progress. rewrite Hcur, Hl. reflexivity.
  - intros H0. unfold update_progress. rewrite Hcur, Hl.
    unfold get_position, py_truediv.
    assert ((samplerate (player t) =? 0)%Z = false) as -> by (apply Z.eqb_neq; lia).
    cbn [rbind].
    assert (current_frame (player t) = 0) as -> by lia.
    rewrite Hd, H0.
    rewrite py_float_zero by (unfold Qeq, Qdiv, Qmult; simpl; lia).
    reflexivity.
  - intros HL Hfew Hrate.
    destruct (timer_value self id t Hcur Hl Hd ltac:(lia) Hsr Hrate HL Hfew)
      as (pr & V & Hu & Hval & HV0 & HV).
    exists pr. split; [exact Hu|]. rewrite Hval.
    set (cf := Z.of_nat (current_frame (player t))) in *.
    set (L := Z.of_nat (sf_len (sf (player t)))) in *.
    assert (0 <= cf <= L)%Z as Hcfz by (unfold cf, L; lia).
    assert (0 < inject_Z L)%Q as HLQ by (unfold Qlt; simpl; lia).
    set (X := (inject_Z (cf * 1000) / inject_Z L)%Q) in *.
    assert ((cf * 1000 / L)%Z = Qfloor X) as EF by apply Zdiv_Qdiv.
    assert (0 <= X)%Q as HX0.
    { unfold X. apply Qle_shift_div_l; [exact HLQ|]. unfold Qle. simpl. lia. }
    assert (X <= 1000)%Q as HX1.
    { unfold X. apply Qle_shift_div_r; [exact HLQ|].
      change 1000%Q with (inject_Z 1000).
      rewrite <- inject_Z_mult, <- Zle_Qle. lia. }
    pose proof (Qfloor_le X) as HF1. pose proof (Qlt_floor X) as HF2.
    rewrite inject_Z_plus in HF2. change (inject_Z 1) with 1%Q in HF2.
    rewrite EF. set (F := Qfloor X) in *.
    apply Qabs_Qle_condition in HV.
    destruct (Qfloor_between V 0 1000) as [_ Hmax];
      [change (inject_Z 0) with 0%Q; lra
      | change (inject_Z 1000) with 1000%Q; lra |].
    assert (0 <= Qfloor V)%Z as Hmin
      by (rewrite <- (Qfloor_Z 0); apply Qfloor_resp_le; exact HV0).
    destruct (Qfloor_between V F (F + 1)) as [Hlo Hhi];
      [lra | rewrite inject_Z_plus; change (inject_Z 1) with 1%Q; lra |].
    lia.
Qed.

Lemma progress_display_witness :
  exists pr, update_progress example_session false = Ok (Some pr) /\
             (0 <= slider_value pr <= 1000)%Z.
Proof.
  destruct (progress_display example_session 0 example_track
              (session_after_reachable _)
              ltac:(vm_compute; reflexivity) ltac:(vm_compute; reflexivity)
              ltac:(vm_compute; reflexivity)) as (_ & _ & Hshow).
  destruct Hshow as (pr & H1 & H2 & _).
  - vm_compute. lia.
  - vm_compute. reflexivity.
  - vm_compute. reflexivity.
  - exists pr. split; assumption.
Defined.

(** The timer on the current track of [empty_file_session]. *)
Example progress_on_empty_file :
  update_progress empty_file_session false = Raise ZeroDivisionError.
Proof. vm_compute. reflexivity. Qed.

(** What the timer shows on two files of a thousand frames: at frame 67
    of a file of 44100 frames a second the slider is set to 66, and after
    [seek_track(102)] on a file of 48000 frames a second the reader is at
    frame 101 and the slider is set to 100. *)
Example progress_rounds_down :
  let track rate cursor :=
    {| path := "A";
       player := {| sf := {| sf_samplerate := rate; sf_channels := 1;
                             sf_frames := repeat [0%Q] 1000; sf_pos := cursor;
                             sf_closed := false |};
                    samplerate := rate; channels := 1; stream := None;
                    volume := 1; paused := false; current_frame := cursor;
                    finished_callback := Some (on_finished "A") |};
       duration_seconds := (1000 / inject_Z rate)%Q |} in
  let session t :=
    {| current_track := Some 0; current_volume := 100; loop_mode := "none";
       track_list := ["A"]; objects := [t]; music_dir := ∅;
       threads := []; stdout := [] |} in
  (slider_value <$>
     match update_progress (session (track 44100%Z 67)) false with
     | Ok pr => pr
     | Raise _ => None
     end) = Some 66%Z /\
  match seek_track (session (track 48000%Z 0)) 102 with
  | Ok self1 =>
      (current_frame ∘ player <$> objects self1) = [101] /\
      (slider_value <$>
         match update_progress self1 false with
         | Ok pr => pr
         | Raise _ => None
         end) = Some 100%Z
  | Raise _ => False
  end.
Proof. vm_compute. repeat split. Qed.

(** Where [seek_track] puts the reader for a value of the slider: on a
    frame less than a frame and a hundredth below, and at most a hundredth
    above, the frame [value * total / 1000]. *)
Lemma seek_track_frame (self : MusicPlayer) (id : nat) (t : Track) (v : Z) :
  reachable self ->
  current_track self = Some id ->
  objects self !! id = Some t ->
  (0 < samplerate (player t))%Z ->
  (samplerate (player t) < 2 ^ 53)%Z ->
  (Z.of_nat (sf_len (sf (player t))) < 2 ^ 43)%Z ->
  (0 <= v <= 1000)%Z ->
  exists F : nat,
    seek_track self v
    = Ok (set_object self id
            (set_player t
               {| sf := sf_set_pos (sf (player t)) F;
                  samplerate := samplerate (player t);
                  channels := channels (player t);
                  stream := stream (player t); volume := volume (player t);
                  paused := paused (player t); current_frame := F;
                  finished_callback := finished_callback (player t) |})) /\
    F <= sf_len (sf (player t)) /\
    (inject_Z v / 1000 * inject_Z (Z.of_nat (sf_len (sf (player t)))) - (101 # 100)
     < inject_Z (Z.of_nat F))%Q /\
    (inject_Z (Z.of_nat F)
     <= inject_Z v / 1000 * inject_Z (Z.of_nat (sf_len (sf (player t)))) + (1 # 100))%Q.
Proof.
  intros Hreach Hcur Hl Hsr Hrate Hfew Hv.
  pose proof (wf_lookup _ _ _ (reachable_wf _ Hreach) Hl) as (Hc & _).
  pose proof (proj1 (Forall_lookup _ _) (reachable_steady _ Hreach) id t Hl)
    as [_ Hd].
  set (L := Z.of_nat (sf_len (sf (player t)))) in *.
  set (sr := samplerate (player t)) in *.
  assert (0 <= L)%Z as HL0 by (unfold L; lia).
  assert (0 <= inject_Z L)%Q as HLQ by (unfold Qle; simpl; lia).
  assert (1 <= inject_Z sr)%Q as Hsr1.
  { change 1%Q with (inject_Z 1). rewrite <- Zle_Qle. lia. }
  assert (0 <= inject_Z v / 1000)%Q as Hx0.
  { apply Qle_shift_div_l; [reflexivity|]. unfold Qle. simpl. lia. }
  assert (inject_Z v / 1000 <= 1)%Q as Hx1.
  { apply Qle_shift_div_r; [reflexivity|]. unfold Qle. simpl. lia. }
  destruct (seek_chain (inject_Z v / 1000) (duration_seconds t)
              (inject_Z sr) (inject_Z L))
    as (f & B & T & Ef & EB & ET & Hframe); try assumption.
  { rewrite <- (Zpower_Qpower 2 53) by lia. rewrite <- Zlt_Qlt. exact Hrate. }
  { rewrite <- (Zpower_Qpower 2 43) by lia. rewrite <- Zlt_Qlt. exact Hfew. }
  { rewrite Hd. field. lra. }
  destruct (round64_integer sr ltac:(lia)) as (rate & Er & Erate).
  destruct (Hframe rate Erate) as (xh & Exh & Hxh0 & Hxh).
  unfold seek_track. rewrite Hcur, Hl.
  unfold py_float. rewrite Ef. cbn [rbind]. rewrite EB. cbn [py_fmul]. rewrite ET.
  unfold Track_seek. rewrite (seek_open _ _ Hc).
  unfold seek_frame, py_float. fold sr. rewrite Er. cbn [rbind py_fmul].
  rewrite Exh. cbn [py_int_float rbind]. fold L.
  rewrite (py_int_Qfloor xh Hxh0).
  pose proof (Qfloor_le xh) as Hf1. pose proof (Qlt_floor xh) as Hf2.
  rewrite inject_Z_plus in Hf2. change (inject_Z 1) with 1%Q in Hf2.
  apply Qabs_Qle_condition in Hxh.
  set (x := (inject_Z v / 1000)%Q) in *.
  assert (x * inject_Z L <= inject_Z L)%Q as HxL.
  { rewrite <- (Qmult_1_l (inject_Z L)) at 2. apply Qmult_le_compat_r; lra. }
  assert (0 <= x * inject_Z L)%Q as HxL0 by (apply Qmult_le_0_compat; lra).
  set (W := Qfloor xh) in *.
  assert (0 <= W <= L)%Z as HW.
  { assert (inject_Z (-1) < inject_Z W)%Q as Ha
      by (change (inject_Z (-1)) with (-1)%Q; lra).
    assert (inject_Z W < inject_Z (L + 1))%Q as Hb.
    { rewrite inject_Z_plus. change (inject_Z 1) with 1%Q. lra. }
    rewrite <- Zlt_Qlt in Ha, Hb. lia. }
  assert (np_clip_int W 0 L = W) as -> by (unfold np_clip_int; lia).
  exists (Z.to_nat W). split; [reflexivity|].
  split; [unfold L in HW; lia|].
  rewrite Z2Nat.id by lia. split; lra.
Qed.

(** X14: the seek bar does not jump forward and falls back by at most
    two.  In a session, after [seek_track(value)], [value] a position of
    the seek slider between 0 and 1000, on a current track of at least a
    thousand and fewer than [2 ^ 43] frames (sample rate positive and below
    [2 ^ 53]), the next [update_progress] raises nothing and sets the
    slider to [value], [value - 1] or [value - 2]. *)
Theorem seek_bar_round_trip (self : MusicPlayer) (id : nat) (t : Track) (v : Z) :
  reachable self ->
  current_track self = Some id ->
  objects self !! id = Some t ->
  (0 < samplerate (player t))%Z ->
  (samplerate (player t) < 2 ^ 53)%Z ->
  1000 <= sf_len (sf (player t)) ->
  (Z.of_nat (sf_len (sf (player t))) < 2 ^ 43)%Z ->
  (0 <= v <= 1000)%Z ->
  exists self1 pr,
    seek_track self v = Ok self1 /\
    update_progress self1 false = Ok (Some pr) /\
    (v - 2 <= slider_value pr <= v)%Z.
Proof.
  intros Hreach Hcur Hl Hsr Hrate HL Hfew Hv.
  pose proof (proj1 (Forall_lookup _ _) (reachable_steady _ Hreach) id t Hl)
    as [_ Hd].
  pose proof (lookup_lt_Some _ _ _ Hl) as Hid.
  destruct (seek_track_frame self id t v Hreach Hcur Hl Hsr Hrate Hfew Hv)
    as (F & Hseek & HF & Hlo & Hhi).
  match type of Hseek with
  | _ = Ok (set_object self id ?t1) =>
      destruct (timer_value (set_object self id t1) id t1)
        as (pr & V & Hu & Hval & HV0 & HV);
      [exact Hcur
      | simpl; apply list_lookup_insert_eq; exact Hid
      | exact Hd | exact HF | exact Hsr | exact Hrate
      | change (0 < sf_len (sf (player t))); lia
      | change (Z.of_nat (sf_len (sf (player t))) < 2 ^ 53)%Z; lia |];
      exists (set_object self id t1), pr
  end.
  split; [exact Hseek|]. split; [exact Hu|]. rewrite Hval.
  cbn [current_frame player set_player sf] in HV.
  change (sf_len (sf_set_pos (sf (player t)) F)) with (sf_len (sf (player t))) in HV.
  set (L := Z.of_nat (sf_len (sf (player t)))) in *.
  assert (1000 <= inject_Z L)%Q as HLQ.
  { change 1000%Q with (inject_Z 1000). rewrite <- Zle_Qle. unfold L. lia. }
  rewrite inject_Z_mult in HV. change (inject_Z 1000) with 1000%Q in HV.
  set (X := (inject_Z (Z.of_nat F) * 1000 / inject_Z L)%Q) in *.
  assert (inject_Z v - (101 # 100) < X)%Q as HX1.
  { unfold X. apply Qlt_shift_div_l; [lra|].
    assert (inject_Z v / 1000 * inject_Z L * 1000 == inject_Z v * inject_Z L)%Q
      as E by (field).
    assert ((inject_Z v - (101 # 100)) * inject_Z L
            == inject_Z v * inject_Z L - (101 # 100) * inject_Z L)%Q as -> by ring.
    lra. }
  assert (X <= inject_Z v + (1 # 100))%Q as HX2.
  { unfold X. apply Qle_shift_div_r; [lra|].
    assert (inject_Z v / 1000 * inject_Z L * 1000 == inject_Z v * inject_Z L)%Q
      as E by (field).
    assert ((inject_Z v + (1 # 100)) * inject_Z L
            == inject_Z v * inject_Z L + (1 # 100) * inject_Z L)%Q as -> by ring.
    lra. }
  apply Qabs_Qle_condition in HV.
  destruct (Qfloor_between V (v - 1) v) as [H1 H2].
  - unfold Z.sub. rewrite inject_Z_plus. change (inject_Z (- (1))) with (-1)%Q. lra.
  - lra.
  - lia.
Qed.

Lemma seek_bar_round_trip_witness :
  exists self1 pr,
    seek_track long_file_session 102 = Ok self1 /\
    update_progress self1 false = Ok (Some pr) /\
    (100 <= slider_value pr <= 102)%Z.
Proof.
  assert (exists t, objects long_file_session !! 0 = Some t /\
                    samplerate (player t) = 48000%Z /\
                    sf_len (sf (player t)) = 1000) as (t & Hl & Hsr & HL)
    by (vm_compute; eexists; repeat split).
  destruct (seek_bar_round_trip long_file_session 0 t 102)
    as (self1 & pr & H1 & H2 & H3).
  - apply session_after_reachable.
  - vm_compute. reflexivity.
  - exact Hl.
  - rewrite Hsr. lia.
  - rewrite Hsr. lia.
  - rewrite HL. lia.
  - rewrite HL. lia.
  - lia.
  - exists self1, pr. split; [exact H1|]. split; [exact H2 | lia].
Defined.

(** ** Clicks on a slider *)



(** ** Switching rows *)

Lemma run_started_single_play (self : MusicPlayer) (n : nat) (t : Track)
    (fuel : nat) :
  threads self = [target_play n] ->
  objects self !! n = Some t ->
  run_started (S fuel) self = Ok (set_object (set_threads self []) n (Track_play t)).
Proof.
  intros Hth Hl. cbn [run_started]. rewrite Hth. unfold run_thread. rewrite Hth.
  cbn [lookup list_lookup delete list_delete run_target].
  cbn [objects set_threads]. rewrite Hl. cbn [rbind].
  destruct fuel; reflexivity.
Qed.

(** X16: in a session whose threads run at once, pressing the play button
    of a row other than the current one, for a file that can be opened,
    switches playback to it: once the event is handled a new object for
    that path is current, its engine runs from frame 0, not paused, no
    other engine runs and no thread is waiting. *)
Theorem play_switches_track (self : MusicPlayer) (p : string) (t0 : Track) :
  prompt_reachable self ->
  Track_init (music_dir self) p = Ok t0 ->
  (forall id t, current_track self = Some id -> objects self !! id = Some t ->
                path t <> p) ->
  exists self' t,
    prompt_step self (ev_toggle_play p) = Ok self' /\
    current_track self' = Some (length (objects self)) /\
    objects self' !! length (objects self) = Some t /\
    path t = p /\ running t /\
    (paused (player t) = false /\ current_frame (player t) = 0 /\
     sf_pos (sf (player t)) = 0) /\
    (forall j tj, objects self' !! j = Some tj -> running tj ->
                  j = length (objects self)) /\
    threads self' = [].
Proof.
  intros Hprompt Hinit Hother.
  destruct (prompt_sessions_exclusive self Hprompt) as [_ Hth].
  pose proof (reachable_wf _ (prompt_reachable_reachable _ Hprompt)) as Hwf.
  destruct (stop_current_ok self Hwf)
    as (self1 & Hs & Hwf1 & _ & Hth1 & _ & Hdir1 & _ & Hlen1 & _).
  destruct (Track_init_ok _ _ _ Hinit) as (Hp & _ & _ & Hst & Hpa & Hcf & Hpos & _).
  assert (toggle_play self p = play_track self p) as Htoggle.
  { unfold toggle_play. destruct (current_track self) as [id|] eqn:Hcur; [|reflexivity].
    destruct (objects self !! id) as [t|] eqn:Hl; [|reflexivity].
    assert (String.eqb (path t) p = false) as ->
      by (apply String.eqb_neq; exact (Hother id t eq_refl Hl)).
    reflexivity. }
  assert (exists self' t,
            prompt_step self (ev_toggle_play p) = Ok self' /\
            current_track self' = Some (length (objects self)) /\
            objects self' !! length (objects self) = Some t /\
            path t = p /\ running t /\
            (paused (player t) = false /\ current_frame (player t) = 0 /\
             sf_pos (sf (player t)) = 0) /\
            threads self' = []) as (self' & t & Hstep & Hc & Hl & Hpt & Hr & Hfresh & Ht).
  { unfold prompt_step. cbn [step]. rewrite Htoggle.
    unfold play_track. rewrite Hs. cbn [rbind].
    unfold start_track. rewrite Hdir1, Hinit. cbn [rbind].
    rewrite (Track_set_volume_slider _ _ (wf_volume _ Hwf1)). cbn [rbind].
    match goal with
    | |- exists s' t', run_started 2 ?s1 = Ok s' /\ _ =>
        match s1 with
        | context [objects self1 ++ [?tn]] =>
            rewrite (run_started_single_play s1 (length (objects self1)) tn 1);
            [|simpl; rewrite Hth1, Hth; reflexivity
             |simpl; apply list_lookup_middle; reflexivity];
            exists (set_object (set_threads s1 []) (length (objects self1))
                      (Track_play tn)), (Track_play tn)
        end
    end.
    split; [reflexivity|].
    cbn [current_track set_object set_objects set_threads set_current_track
         start_thread objects threads].
    rewrite <- Hlen1. split; [reflexivity|].
    split; [apply list_lookup_insert_eq; rewrite length_app; simpl; lia|].
    simpl. repeat split; auto. }
  exists self', t.
  split; [exact Hstep|]. split; [exact Hc|]. split; [exact Hl|].
  split; [exact Hpt|]. split; [exact Hr|]. split; [exact Hfresh|].
  split; [|exact Ht].
  intros j tj Hj Hrj.
  destruct (prompt_sessions_exclusive self'
              (prompt_next _ _ _ Hprompt Hstep)) as [Hex' _].
  pose proof (Hex' j tj Hj Hrj) as Hcj. congruence.
Qed.

Lemma play_switches_track_witness :
  exists self',
    prompt_step prompt_session (ev_toggle_play "A") = Ok self' /\
    current_track self' = Some 1.
Proof.
  destruct (play_switches_track prompt_session "A"
              {| path := "A";
                 player := {| sf := sf (player example_track);
                              samplerate := 44100; channels := 1;
                              stream := None; volume := 1; paused := false;
                              current_frame := 0; finished_callback := None |};
                 duration_seconds := 3 # 44100 |})
    as (self' & t & H1 & H2 & _).
  - apply prompt_session_reachable.
  - vm_compute. reflexivity.
  - intros id t Hc Hl. vm_compute in Hc. injection Hc as <-.
    vm_compute in Hl. injection Hl as <-. discriminate.
  - exists self'. split; [exact H1 | exact H2].
Defined.

(** ** One engine at a time *)

(** X17: in a session whose threads run at once, whatever the sequence of
    events, at most one engine runs at any time, and it is the engine of
    the current track: two objects with a started stream are the same
    object, and no thread is left waiting between two events. *)
Theorem one_engine_at_a_time (self : MusicPlayer) (i j : nat) (ti tj : Track) :
  prompt_reachable self ->
  objects self !! i = Some ti -> running ti ->
  objects self !! j = Some tj -> running tj ->
  i = j /\ current_track self = Some i /\ threads self = [].
Proof.
  intros Hp Hi Ri Hj Rj.
  destruct (prompt_sessions_exclusive self Hp) as [Hex Hth].
  pose proof (Hex i ti Hi Ri) as Hci. pose proof (Hex j tj Hj Rj) as Hcj.
  split; [congruence|]. split; assumption.
Qed.

Lemma one_engine_at_a_time_witness :
  current_track prompt_session = Some 0 /\ threads prompt_session = [].
Proof.
  refine (proj2 (one_engine_at_a_time prompt_session 0 0 example_track example_track
                   prompt_session_reachable _ _ _ _)).
  - vm_compute. reflexivity.
  - reflexivity.
  - vm_compute. reflexivity.
  - reflexivity.
Defined.
